(** * GeometricKernels: kernel factory, spaces, feature maps, array
    primitives and utilities

  A shallow embedding of parts of the GeometricKernels package:

  - [geometric_kernels/kernels/matern_kernel.py]: the dispatching factory
    [MaternGeometricKernel.__new__], [default_num], [default_feature_map];
  - [geometric_kernels/kernels/feature_maps.py]: the deterministic feature
    map of compact spaces and the random-phase feature map of non-compact
    ones;
  - [geometric_kernels/spaces/circle.py]: [SinCosEigenfunctions], [Circle];
  - [geometric_kernels/spaces/hyperbolic.py]: distance and heat kernel;
  - [geometric_kernels/spaces/stiefel.py]: the hook content formula, the
    projected character at the identity, the embedding of the stabiliser;
  - [geometric_kernels/lab_extras]: [cosh], [sinh], [degree], [eigenpairs]
    and [set_value];
  - [geometric_kernels/utils/utils.py]: [make_deterministic] and
    [ordered_pairwise_differences].

  Python integers are [Z]; floating-point tensors are idealised as real
  numbers ([R]), and the theorems state of them what holds of the
  floating-point code up to rounding; exceptions are values of [exn]
  returned in a sum. *)

From Stdlib Require Import ZArith List String Reals Lra Lia.
From stdpp Require Import gmap strings list.

Open Scope Z_scope.

(** ** Python values and exceptions *)

Module Py.

(** The Python values that reach the code under study as arguments. *)
Inductive pyval : Type :=
| PyNone
| PyBool (b : bool)
| PyInt (z : Z)
| PyStr (s : string)
| PyObj (id : positive).

(** Python truth value testing: [None], [False], [0] and the empty string
    are falsy, every other value is truthy. *)
Definition truthy (v : pyval) : bool :=
  match v with
  | PyNone => false
  | PyBool b => b
  | PyInt z => negb (z =? 0)
  | PyStr s => negb (String.eqb s EmptyString)
  | PyObj _ => true
  end.

(** The exceptions raised by the code under study.  [DanglingReference] is
    not a Python exception: it is the outcome of using a reference to no
    object, which no Python program can forge. *)
Inductive exn : Type :=
| ValueError (msg : string)
| NotImplementedError
| NotFoundLookupError
| AssertionError (msg : string)
| IndexError
| TypeError
| DanglingReference.

(** A computation that either raises or returns. *)
Definition result (A : Type) : Type := exn + A.

Definition Raise {A : Type} (e : exn) : result A := inl e.
Definition Return {A : Type} (a : A) : result A := inr a.

End Py.

Import Py.

(** ** The kernel factory ([kernels/matern_kernel.py]) *)

Module Factory.

(** The spaces the factory dispatches on.  [Mesh] and [Graph] carry their
    [num_vertices]; the [Other...] constructors stand for instances of any
    further subclass, named by the string [str(type(space))] prints. *)
Inductive space : Type :=
| Mesh (num_vertices : Z)
| Graph (num_vertices : Z)
| OtherDiscreteSpectrumSpace (cls : string)
| Hyperbolic (dim : Z)
| SymmetricPositiveDefiniteMatrices (n : Z)
| OtherNoncompactSymmetricSpace (cls : string)
| OtherSpace (cls : string).

(** [isinstance(space, DiscreteSpectrumSpace)]. *)
Definition isinstance_DiscreteSpectrumSpace (s : space) : bool :=
  match s with
  | Mesh _ | Graph _ | OtherDiscreteSpectrumSpace _ => true
  | _ => false
  end.

(** [isinstance(space, NoncompactSymmetricSpace)].  The class [Hyperbolic]
    of [spaces/hyperbolic.py] derives from [Space] and from geomstats'
    [Hyperboloid] only, so it is not an instance, whatever the factory's
    docstring says. *)
Definition isinstance_NoncompactSymmetricSpace (s : space) : bool :=
  match s with
  | SymmetricPositiveDefiniteMatrices _
  | OtherNoncompactSymmetricSpace _ => true
  | _ => false
  end.

(** [str(type(space))]. *)
Definition str_type (s : space) : string :=
  match s with
  | Mesh _ => "<class 'geometric_kernels.spaces.mesh.Mesh'>"
  | Graph _ => "<class 'geometric_kernels.spaces.graph.Graph'>"
  | Hyperbolic _ => "<class 'geometric_kernels.spaces.hyperbolic.Hyperbolic'>"
  | SymmetricPositiveDefiniteMatrices _ =>
      "<class 'geometric_kernels.spaces.spd.SymmetricPositiveDefiniteMatrices'>"
  | OtherDiscreteSpectrumSpace c
  | OtherNoncompactSymmetricSpace c
  | OtherSpace c => c
  end.

(** The objects the factory constructs.  Their classes live outside the
    factory module, so a constructed object is represented by the
    constructor call that made it. *)
Inductive kernel : Type :=
| MaternKarhunenLoeveKernel (s : space) (num : pyval) (normalize : pyval)
| MaternFeatureMapKernel (s : space) (fm : feature_map) (key : pyval)
                         (normalize : pyval)
with feature_map : Type :=
| deterministic_feature_map_compact (s : space) (k : option kernel)
| random_phase_feature_map_noncompact (s : space) (num : pyval)
| rejection_sampling_feature_map_hyperbolic (s : space) (num : pyval)
| rejection_sampling_feature_map_spd (s : space) (num : pyval).

(** Every call of a kernel or feature-map constructor is logged, in program
    order: these are the only places where the factory computes with
    tensors. *)
Inductive event : Type :=
| BuiltKernel (k : kernel)
| BuiltFeatureMap (fm : feature_map).

(** The factory monad: exceptions plus the log of constructor calls.  An
    exception keeps the log written before it was raised. *)
Definition Build (A : Type) : Type := list event -> result A * list event.

Definition ret {A} (a : A) : Build A := fun log => (Return a, log).
Definition raise {A} (e : exn) : Build A := fun log => (Raise e, log).
Definition bind {A B} (m : Build A) (f : A -> Build B) : Build B :=
  fun log =>
    match m log with
    | (inl e, log') => (inl e, log')
    | (inr a, log') => f a log'
    end.
Definition lift {A} (r : result A) : Build A := fun log => (r, log).
Definition emit (e : event) : Build unit := fun log => (Return tt, log ++ [e]).
Definition run {A} (m : Build A) : result A * list event := m [].

Notation "'let!' x ':=' m 'in' k" := (bind m (fun x => k))
  (at level 10, x name, m at level 100, k at level 200).
Notation "'do!' m 'in' k" := (bind m (fun _ => k))
  (at level 10, m at level 100, k at level 200).

(** The class attributes of [MaternGeometricKernel]. *)
Definition _DEFAULT_NUM_EIGENFUNCTIONS : Z := 1000.
Definition _DEFAULT_NUM_LEVELS : Z := 35.
Definition _DEFAULT_NUM_RANDOM_PHASES : Z := 3000.

(** [default_num], dispatched on the most specific class of [space]; no
    method is registered for a space that is neither a
    [DiscreteSpectrumSpace] nor a [NoncompactSymmetricSpace], as
    [Hyperbolic]. *)
Definition default_num (s : space) : result Z :=
  match s with
  | Mesh num_vertices => Return (Z.min _DEFAULT_NUM_EIGENFUNCTIONS num_vertices)
  | Graph num_vertices => Return (Z.min _DEFAULT_NUM_EIGENFUNCTIONS num_vertices)
  | OtherDiscreteSpectrumSpace _ => Return _DEFAULT_NUM_LEVELS
  | SymmetricPositiveDefiniteMatrices _
  | OtherNoncompactSymmetricSpace _ => Return _DEFAULT_NUM_RANDOM_PHASES
  | Hyperbolic _ | OtherSpace _ => Raise NotFoundLookupError
  end.

(** [default_feature_map(space, *, num, kernel)], dispatched on the most
    specific class of [space]; the method for [Hyperbolic] is registered
    twice with the same body. *)
Definition default_feature_map (s : space) (num : pyval) (k : option kernel)
  : Build feature_map :=
  match s with
  | Mesh _ | Graph _ | OtherDiscreteSpectrumSpace _ =>
      let fm := deterministic_feature_map_compact s k in
      do! emit (BuiltFeatureMap fm) in ret fm
  | OtherNoncompactSymmetricSpace _ =>
      let fm := random_phase_feature_map_noncompact s num in
      do! emit (BuiltFeatureMap fm) in ret fm
  | Hyperbolic _ =>
      let fm := rejection_sampling_feature_map_hyperbolic s num in
      do! emit (BuiltFeatureMap fm) in ret fm
  | SymmetricPositiveDefiniteMatrices _ =>
      let fm := rejection_sampling_feature_map_spd s num in
      do! emit (BuiltFeatureMap fm) in ret fm
  | OtherSpace _ => raise NotFoundLookupError
  end.

(** What [MaternGeometricKernel(...)] evaluates to. *)
Inductive product : Type :=
| KernelOnly (k : kernel)
| KernelAndFeatureMap (k : kernel) (fm : feature_map).

Definition missing_key_message (s : space) : string :=
  ("MaternGeometricKernel for " ++ str_type s ++
   " requires mandatory keyword argument 'key' which is a random number" ++
   " generator specific to the backend used")%string.

(** [num or default_num(space)]: [default_num] is only called when [num]
    is falsy. *)
Definition num_or_default (num : pyval) (s : space) : Build pyval :=
  if truthy num then ret num
  else (let! d := lift (default_num s) in ret (PyInt d)).

(** [MaternGeometricKernel.__new__(cls, space, num, normalize,
    return_feature_map, **kwargs)]. *)
Definition MaternGeometricKernel_new
    (s : space) (num normalize return_feature_map : pyval)
    (kwargs : gmap string pyval) : Build product :=
  let! kf :=
    (if isinstance_DiscreteSpectrumSpace s then
       let! num := num_or_default num s in
       let k := MaternKarhunenLoeveKernel s num normalize in
       do! emit (BuiltKernel k) in
       let! fm := default_feature_map s num (Some k) in
       ret (k, fm)
     else if isinstance_NoncompactSymmetricSpace s then
       let! num := num_or_default num s in
       let! key := match kwargs !! "key"%string with
                   | Some key => ret key
                   | None => raise (ValueError (missing_key_message s))
                   end in
       let! fm := default_feature_map s num None in
       let k := MaternFeatureMapKernel s fm key normalize in
       do! emit (BuiltKernel k) in
       ret (k, fm)
     else raise NotImplementedError) in
  let '(k, fm) := kf in
  if truthy return_feature_map then ret (KernelAndFeatureMap k fm)
  else ret (KernelOnly k).

(** The kernel of a product, and the order [num] its construction was given:
    directly for a [MaternKarhunenLoeveKernel], through the feature map for a
    [MaternFeatureMapKernel]. *)
Definition product_kernel (p : product) : kernel :=
  match p with
  | KernelOnly k => k
  | KernelAndFeatureMap k _ => k
  end.

Fixpoint kernel_order (k : kernel) : pyval :=
  match k with
  | MaternKarhunenLoeveKernel _ num _ => num
  | MaternFeatureMapKernel _ fm _ _ =>
      match fm with
      | deterministic_feature_map_compact _ (Some k') => kernel_order k'
      | deterministic_feature_map_compact _ None => PyNone
      | random_phase_feature_map_noncompact _ num => num
      | rejection_sampling_feature_map_hyperbolic _ num => num
      | rejection_sampling_feature_map_spd _ num => num
      end
  end.

End Factory.

(** ** Dense real tensors

    A matrix [[N, M]] is the list of its [N] rows; a rank-3 tensor
    [[N, N2, L]] is a list of matrices.  Entries are real numbers. *)

Module Tensor.

Local Open Scope R_scope.

Abbreviation matrix := (list (list R)).
Abbreviation tensor3 := (list (list (list R))).

(** [ones_like(t)] for a matrix [t]. *)
Definition ones_like (t : matrix) : matrix := map (map (fun _ => 1)) t.

(** [ones((N, L))]. *)
Definition ones (N L : nat) : matrix := repeat (repeat 1 L) N.

(** [c * t] for a scalar [c]. *)
Definition scale (c : R) (t : matrix) : matrix := map (map (Rmult c)) t.

(** A function applied entrywise, as [tf.math.cos(t)]. *)
Definition pointwise (f : R -> R) (t : matrix) : matrix := map (map f) t.

(** [concat(values, axis=1)] of matrices with the same number of rows: row
    [i] of the result is the concatenation of the rows [i]. *)
Definition concat_axis1 (values : list matrix) : matrix :=
  match values with
  | [] => []
  | v :: vs => fold_left (zip_with (@app R)) vs v
  end.

(** [sum(row)]. *)
Definition sum (row : list R) : R := fold_right Rplus 0 row.

(** The diagonal [t[i, i, :]] of a rank-3 tensor, a matrix [[N, L]]. *)
Definition diagonal (t : tensor3) : matrix :=
  imap (fun i (m : matrix) => default [] (m !! i)) t.

End Tensor.

(** ** The circle's eigenfunctions ([spaces/circle.py]) *)

Module Circle.

Import Tensor.
Local Open Scope R_scope.

(** [range(n)] for a Python integer [n]: empty when [n <= 0]. *)
Definition range (n : Z) : list Z := map Z.of_nat (seq 0 (Z.to_nat n)).

(** [atan2(y, x)], the angle of the point [(x, y)] in [(-pi, pi]]. *)
Definition atan2 (y x : R) : R :=
  if Rlt_dec 0 x then atan (y / x)
  else if Rlt_dec x 0 then
    if Rle_dec 0 y then atan (y / x) + PI else atan (y / x) - PI
  else if Rlt_dec 0 y then PI / 2
  else if Rlt_dec y 0 then - (PI / 2)
  else 0.

(** [cartesian_to_polar(X)]: from [[N, 2]] Cartesian coordinates to the
    [[N, 1]] column of angles [atan2(X[:, 1], X[:, 0])]. *)
Definition cartesian_to_polar (X : list (R * R)) : matrix :=
  map (fun x => [atan2 (snd x) (fst x)]) X.

(** The state of a [SinCosEigenfunctions] object. *)
Record SinCosEigenfunctions : Type := {
  _num_eigenfunctions : Z;
  _num_levels : Z
}.

Definition parity_message : string :=
  "num_eigenfunctions needs to be odd to include all eigenfunctions within a level.".

(** [SinCosEigenfunctions.__init__(self, num_eigenfunctions)]: two
    assertions, then the two attributes.  Python's [%] and [//] with a
    positive divisor are [Z.modulo] and [Z.div]. *)
Definition init (num_eigenfunctions : Z) : result SinCosEigenfunctions :=
  if negb (num_eigenfunctions mod 2 =? 1)%Z then
    Raise (AssertionError parity_message)
  else if negb (num_eigenfunctions >=? 1)%Z then
    Raise (AssertionError EmptyString)
  else
    Return {| _num_eigenfunctions := num_eigenfunctions;
              _num_levels := (num_eigenfunctions / 2 + 1)%Z |}.

Definition num_eigenfunctions (self : SinCosEigenfunctions) : Z :=
  _num_eigenfunctions self.

Definition num_levels (self : SinCosEigenfunctions) : Z :=
  _num_levels self.

(** [num_eigenfunctions_per_level]:
    [[1 if level == 0 else 2 for level in range(self.num_levels)]]. *)
Definition num_eigenfunctions_per_level (self : SinCosEigenfunctions) : list Z :=
  map (fun level => if (level =? 0)%Z then 1%Z else 2%Z) (range (num_levels self)).

(** [SinCosEigenfunctions.__call__(self, X)]: the columns of all levels,
    concatenated along axis 1 into a [[N, M]] matrix. *)
Definition call (self : SinCosEigenfunctions) (X : list (R * R)) : matrix :=
  let const := Rpower 2 (1 / 2) in
  let theta := cartesian_to_polar X in
  let values :=
    flat_map
      (fun level =>
         if (level =? 0)%Z then [ones_like theta]
         else
           let freq := 1 * IZR level in
           [scale const (pointwise cos (scale freq theta));
            scale const (pointwise sin (scale freq theta))])
      (range (num_levels self)) in
  concat_axis1 values.

(** [SinCosEigenfunctions._addition_theorem(self, X, X2)], a [[N, N2, L]]
    tensor.  The broadcasts are written out: [diff_theta] is [[N, N2, 1]],
    [freqs] is [[L]]. *)
Definition _addition_theorem (self : SinCosEigenfunctions)
    (X X2 : list (R * R)) : tensor3 :=
  let theta := cartesian_to_polar X in
  let theta2 := cartesian_to_polar X2 in
  let diff_theta : tensor3 :=
    map (fun t => map (fun t2 => zip_with Rminus t t2) theta2) theta in
  let freqs := map IZR (range (num_levels self)) in
  let values : tensor3 :=
    map (map (fun d => flat_map (fun dt => map (fun f => cos (f * dt)) freqs) d))
        diff_theta in
  map (map (fun v => zip_with Rmult (map IZR (num_eigenfunctions_per_level self)) v))
      values.

(** [SinCosEigenfunctions._addition_theorem_diag(self, X)], a [[N, L]]
    matrix. *)
Definition _addition_theorem_diag (self : SinCosEigenfunctions)
    (X : list (R * R)) : matrix :=
  let N := length X in
  let ones := ones N (Z.to_nat (num_levels self)) in
  map (fun row => zip_with Rmult row (map IZR (num_eigenfunctions_per_level self)))
      ones.

End Circle.

(** ** The random-phase feature map for non-compact symmetric spaces
       ([kernels/feature_maps.py]) *)

Module FeatureMaps.

Import Tensor.
Local Open Scope R_scope.

Section RandomPhaseNoncompact.

(** Points, phases, random keys and kernel parameters are opaque here. *)
Variables point phase key params : Type.

(** What the feature map consumes of a non-compact symmetric space.  The
    space's tensor functions are given by their value at one frequency
    (and point and phase); a complex number is the pair of its real and
    imaginary parts. *)
Record NoncompactSymmetricSpace : Type := {
  dimension : Z;
  random_phases : key -> nat -> key * list phase;
  power_function : R -> point -> phase -> R * R;
  inv_harish_chandra : R -> R
}.

(** [base_density_sample(key, (num,), params, dimension)] of the sampling
    module: a new key and [num] spectral frequencies. *)
Variable base_density_sample : key -> nat -> params -> Z -> key * list R.

(** [p], a [[N, O]] complex matrix: the power function at every point, with
    frequency and phase number [o] in column [o]. *)
Definition power_matrix (space : NoncompactSymmetricSpace) (X : list point)
    (random_lambda : list R) (random_phases : list phase)
  : list (list (R * R)) :=
  map (fun x => zip_with (fun lam ph => power_function space lam x ph)
                         random_lambda random_phases) X.

(** [concat(real(p) * c, imag(p) * c, axis=-1)], with [c] of shape [[1, O]]
    broadcast over the rows of [p]: a [[N, 2*O]] matrix. *)
Definition unnormalized (p : list (list (R * R))) (c : list R) : matrix :=
  map (fun row => zip_with Rmult (map fst row) c ++
                  zip_with Rmult (map snd row) c) p.

(** [sqrt(sum(out**2, axis=-1, squeeze=False))], a [[N, 1]] column. *)
Definition normalizer (out : matrix) : matrix :=
  map (fun row => [sqrt (sum (map (fun x => x ^ 2) row))]) out.

(** [out / normalizer], the column broadcast along each row.  Division is
    real division, which is only meaningful for a non-zero divisor. *)
Definition divide (out normalizer : matrix) : matrix :=
  zip_with (fun row n => flat_map (fun d => map (fun x => x / d) row) n)
           out normalizer.

(** The first half of [_map]: sampling, and the matrix [out] before its
    normalisation, together with the key after sampling. *)
Definition sampled_features (space : NoncompactSymmetricSpace)
    (num_random_phases : nat) (X : list point) (prm : params) (k : key)
  : matrix * key :=
  let '(k, random_phases) := random_phases space k num_random_phases in
  let '(k, random_lambda) :=
    base_density_sample k num_random_phases prm (dimension space) in
  let p := power_matrix space X random_lambda random_phases in
  let c := map (inv_harish_chandra space) random_lambda in
  (unnormalized p c, k).

(** [random_phase_feature_map_noncompact(space, num_random_phases)._map(X,
    params, state, key)]: the features and the new key of the context.  The
    argument [state] is unused and left out. *)
Definition _map (space : NoncompactSymmetricSpace) (num_random_phases : nat)
    (X : list point) (prm : params) (k : key) : matrix * key :=
  let '(out, k) := sampled_features space num_random_phases X prm k in
  let normalizer := normalizer out in
  let out := divide out normalizer in
  (out, k).

End RandomPhaseNoncompact.

(** A space and a sampler on which the normaliser vanishes: one phase, the
    sampled frequency [0], a power function of modulus one and an inverse
    Harish-Chandra factor that is zero at frequency zero. *)
Definition flat_space : NoncompactSymmetricSpace unit unit unit := {|
  dimension := 2;
  random_phases := fun k n => (k, repeat tt n);
  power_function := fun _ _ _ => (1, 0);
  inv_harish_chandra := fun lam => Rabs lam
|}.

Definition zero_frequency_sample (k : unit) (n : nat) (prm : unit) (d : Z)
  : unit * list R := (k, repeat 0 n).

End FeatureMaps.

(** ** Array primitives of the numpy back-end
       ([lab_extras/numpy/sparse_extras.py]) *)

Module LabExtras.

(** The scipy formats gathered in the [SparseArray] union. *)
Inductive sparse_format : Type :=
| bsr_matrix | coo_matrix | csc_matrix | csr_matrix
| dia_matrix | dok_matrix | lil_matrix.

(** Formats on which [a[index] = value] is implemented. *)
Definition supports_item_assignment (fmt : sparse_format) : bool :=
  match fmt with
  | csc_matrix | csr_matrix | dok_matrix | lil_matrix => true
  | bsr_matrix | coo_matrix | dia_matrix => false
  end.

(** What [a[index] = value] raises on the other three: the [__setitem__] of
    [bsr_matrix] raises [NotImplementedError]; [coo_matrix] and [dia_matrix]
    define none, which is a [TypeError]. *)
Definition item_assignment_error (fmt : sparse_format) : exn :=
  match fmt with
  | bsr_matrix => NotImplementedError
  | _ => TypeError
  end.

(** The conversion to an integer dtype of a float within the range of the
    dtype: truncation toward zero. *)
Definition truncate (x : R) : Z :=
  if Rle_dec 0 x then Int_part x else (- Int_part (- x))%Z.

Definition integer_cast (x : R) : result Z := Return (truncate x).

(** The conversion to [float64]: a Python float is stored as it is. *)
Definition float64_cast (x : R) : result R := Return x.

Section Arrays.

(** The values of the array's dtype, and its zero. *)
Variable T : Type.
Variable zero : T.

(** The conversion numpy and scipy apply to the Python float that is stored
    into an array of this dtype; it raises for a float the dtype cannot
    hold, as a NaN stored into an integer array. *)
Variable cast : R -> result T.

(** A one- or two-dimensional numpy array, or a scipy sparse matrix given by
    its format, its shape and its stored entries. *)
Inductive array : Type :=
| Vector (data : list T)
| Dense (rows : list (list T))
| Sparse (fmt : sparse_format) (nrows ncols : nat) (stored : gmap (nat * nat) T).

(** [sp.issparse(a)]. *)
Definition issparse (a : array) : bool :=
  match a with
  | Sparse _ _ _ _ => true
  | _ => false
  end.

(** [a.shape[0]]. *)
Definition shape0 (a : array) : nat :=
  match a with
  | Vector data => length data
  | Dense rows => length rows
  | Sparse _ nrows _ _ => nrows
  end.

(** Row [i] of a sparse matrix, entries that are not stored being zero. *)
Definition sparse_row (ncols : nat) (stored : gmap (nat * nat) T) (i : nat)
  : list T :=
  map (fun j => default zero (stored !! (i, j))) (seq 0 ncols).

(** [a.toarray()]; it is only ever called on a sparse matrix. *)
Definition toarray (a : array) : array :=
  match a with
  | Sparse _ nrows ncols stored =>
      Dense (map (sparse_row ncols stored) (seq 0 nrows))
  | _ => a
  end.

(** The call that ends [eigenpairs]:
    [sp.linalg.eigsh(L, k, sigma=1e-8)]. *)
Inductive solver_call : Type :=
| eigsh (A : array) (k : Z) (sigma : R).

Definition solver_input (c : solver_call) : array :=
  match c with eigsh A _ _ => A end.

(** [eigenpairs(L, k)], up to the solver it delegates to. *)
Definition eigenpairs (L : array) (k : Z) : solver_call :=
  let L := if issparse L && (k =? Z.of_nat (shape0 L)) then toarray L else L in
  eigsh L k (1e-8)%R.

(** The position an integer index designates along an axis of length [n]:
    negative indices count from the end, anything outside [[-n, n)] is out
    of range. *)
Definition normalize_index (n : nat) (index : Z) : option nat :=
  if (0 <=? index) && (index <? Z.of_nat n) then Some (Z.to_nat index)
  else if (- Z.of_nat n <=? index) && (index <? 0) then
    Some (Z.to_nat (index + Z.of_nat n))
  else None.

(** Storing [value] in every column of row [i] of a sparse matrix. *)
Definition fill_row (i : nat) (value : T) (ncols : nat)
    (stored : gmap (nat * nat) T) : gmap (nat * nat) T :=
  fold_right (fun j m => <[(i, j) := value]> m) stored (seq 0 ncols).

(** The array after [a[index] = value] for a float [value]: the index is
    resolved first, then the value is converted to the dtype and stored in
    one entry of a vector, in one whole row of a matrix. *)
Definition assign (a : array) (index : Z) (value : R) : result array :=
  match a with
  | Vector data =>
      match normalize_index (length data) index with
      | Some i =>
          match cast value with
          | inr v => Return (Vector (<[i := v]> data))
          | inl e => Raise e
          end
      | None => Raise IndexError
      end
  | Dense rows =>
      match normalize_index (length rows) index with
      | Some i =>
          match cast value with
          | inr v => Return (Dense (alter (map (fun _ => v)) i rows))
          | inl e => Raise e
          end
      | None => Raise IndexError
      end
  | Sparse fmt nrows ncols stored =>
      if supports_item_assignment fmt then
        match normalize_index nrows index with
        | Some i =>
            match cast value with
            | inr v => Return (Sparse fmt nrows ncols (fill_row i v ncols stored))
            | inl e => Raise e
            end
        | None => Raise IndexError
        end
      else Raise (item_assignment_error fmt)
  end.

(** Whether [a[index] = value] is defined for the class of [a]. *)
Definition assignable (a : array) : bool :=
  match a with
  | Sparse fmt _ _ _ => supports_item_assignment fmt
  | _ => true
  end.

(** [a[i]] read as a list: the one entry of a vector, the row of a
    matrix. *)
Definition item (a : array) (i : nat) : option (list T) :=
  match a with
  | Vector data => (fun x => [x]) <$> data !! i
  | Dense rows => rows !! i
  | Sparse _ nrows ncols stored =>
      if decide (i < nrows)%nat then Some (sparse_row ncols stored i) else None
  end.

(** Arrays are objects: a program holds references to them, and the heap
    maps every reference to the current contents of its object. *)
Definition St (A : Type) : Type :=
  gmap positive array -> result A * gmap positive array.

(** [a.copy()]: a new object with the contents of [a]. *)
Definition copy (a : positive) : St positive :=
  fun h =>
    match h !! a with
    | Some contents =>
        let a' := fresh (dom h) in (Return a', <[a' := contents]> h)
    | None => (Raise DanglingReference, h)
    end.

(** [a[index] = value]: the object [a] is updated in place. *)
Definition setitem (a : positive) (index : Z) (value : R) : St unit :=
  fun h =>
    match h !! a with
    | Some contents =>
        match assign contents index value with
        | inr contents' => (Return tt, <[a := contents']> h)
        | inl e => (Raise e, h)
        end
    | None => (Raise DanglingReference, h)
    end.

(** [set_value(a, index, value)]: the local name [a] is rebound to the
    copy, the copy is updated and returned. *)
Definition set_value (a : positive) (index : Z) (value : R) : St positive :=
  fun h =>
    match copy a h with
    | (inr a', h1) =>
        match setitem a' index value h1 with
        | (inr _, h2) => (Return a', h2)
        | (inl e, h2) => (Raise e, h2)
        end
    | (inl e, h1) => (Raise e, h1)
    end.

End Arrays.

Arguments Vector {T} data.
Arguments Dense {T} rows.
Arguments Sparse {T} fmt nrows ncols stored.
Arguments eigsh {T} A k sigma.

End LabExtras.

(** ** Random-state utilities ([utils/utils.py]) *)

Module Utils.

Section MakeDeterministic.

(** The states of a random generator, the data passed to functions besides
    the random key, and the results of calls. *)
Variables rstate data res : Type.

(** A Python value passed as an argument: the random key, which refers to
    the stateful generator, or any other datum. *)
Inductive value : Type :=
| Key
| Datum (d : data).

(** A computation that reads and advances the state of the generator the key
    refers to; this generator is the only source of randomness. *)
Definition Rand (A : Type) : Type := rstate -> A * rstate.

(** Modelled from the spec: [get_random_state] of
    [geometric_kernels.lab_extras] is not among the sources.  The random
    state is a single abstract value; reading it leaves it in place. *)
Definition get_random_state (key : value) : Rand rstate :=
  fun s => (s, s).

(** Modelled from the spec: [restore_random_state] of
    [geometric_kernels.lab_extras] is not among the sources.  The
    generator is put back into the saved state and the key is returned. *)
Definition restore_random_state (key : value) (saved : rstate) : Rand value :=
  fun _ => (key, saved).

(** The part of [inspect.getfullargspec(f)] that is looked at. *)
Record FullArgSpec : Type := {
  args : list string;
  kwonlyargs : list string
}.

(** A Python function: its signature, and what a call with positional
    arguments [args] and keyword arguments [kwargs] does. *)
Record function : Type := {
  getfullargspec : FullArgSpec;
  apply : list value -> gmap string value -> Rand res
}.

(** [l.index(x)], when [x in l]. *)
Fixpoint index (x : string) (l : list string) : option nat :=
  match l with
  | [] => None
  | y :: l' => if String.eqb x y then Some 0%nat else S <$> index x l'
  end.

(** The two ways [f] can take its key; [None] in the code is the absence
    of a [key_argtype]. *)
Inductive key_argtype : Type :=
| pos (key_position : nat)
| kwonly.

Definition find_key_argtype (f : function) : option key_argtype :=
  let f_argspec := getfullargspec f in
  let f_varnames := args f_argspec in
  match index "key" f_varnames with
  | Some key_position => Some (pos key_position)
  | None =>
      if bool_decide ("key"%string ∈ kwonlyargs f_argspec) then Some kwonly
      else None
  end.

(** The closure [deterministic_f] returned by [make_deterministic]; it
    accepts any positional and keyword arguments. *)
Definition deterministic_f (f : function) (key : value)
    (saved_random_state : rstate) (t : key_argtype) : function :=
  {| getfullargspec := {| args := []; kwonlyargs := [] |};
     apply := fun args kwargs s =>
       let '(restored_key, s) :=
         restore_random_state key saved_random_state s in
       match t with
       | kwonly =>
           apply f args (<["key"%string := restored_key]> kwargs) s
       | pos key_position =>
           let new_args :=
             take key_position args ++ [restored_key]
               ++ drop key_position args in
           apply f new_args kwargs s
       end |}.

(** [make_deterministic(f, key)]. *)
Definition make_deterministic (f : function) (key : value) : Rand function :=
  fun s =>
    match find_key_argtype f with
    | None => (f, s)
    | Some t =>
        let '(saved_random_state, s) := get_random_state key s in
        (deterministic_f f key saved_random_state t, s)
    end.

End MakeDeterministic.

Arguments Key {data}.
Arguments Datum {data} d.

(** A function that draws from the generator: it returns the current state
    of the generator as its sample and advances it. *)
Definition draw : function nat unit nat :=
  {| getfullargspec := {| args := ["X"; "key"]%string; kwonlyargs := [] |};
     apply := fun _ _ s => (s, S s) |}.

(** A function without a [key] argument. *)
Definition constant : function nat unit nat :=
  {| getfullargspec := {| args := ["X"]%string; kwonlyargs := [] |};
     apply := fun _ _ s => (0%nat, s) |}.

End Utils.

(** ** The circle as a space ([spaces/circle.py], class [Circle]) *)

Module CircleSpace.

Import Tensor Circle.
Local Open Scope R_scope.

(** [Circle.dimension]. *)
Definition dimension : Z := 2.

(** [Circle.get_eigenfunctions(num)]. *)
Definition get_eigenfunctions (num : Z) : result SinCosEigenfunctions :=
  init num.

(** What TensorFlow raises for a range that cannot be built. *)
Inductive tf_error : Type := InvalidArgumentError.

(** [tf.range(limit, dtype='float64')]: the floats [0, 1, ..., limit - 1];
    unlike Python's [range], it rejects a negative [limit]. *)
Definition tf_range (limit : Z) : tf_error + list R :=
  if (limit <? 0)%Z then inl InvalidArgumentError
  else inr (map IZR (range limit)).

(** [Circle.get_eigenvalues(num)]: [tf.range(num, dtype='float64') ** 2.0]. *)
Definition get_eigenvalues (num : Z) : tf_error + list R :=
  match tf_range num with
  | inl e => inl e
  | inr r => inr (map (fun x => x ^ 2) r)
  end.

(** The row of [SinCosEigenfunctions.__call__] for a point of angle
    [theta], level after level. *)
Definition basis_row (self : SinCosEigenfunctions) (theta : R) : list R :=
  flat_map
    (fun level =>
       if (level =? 0)%Z then [1]
       else [Rpower 2 (1 / 2) * cos (1 * IZR level * theta);
             Rpower 2 (1 / 2) * sin (1 * IZR level * theta)])
    (range (num_levels self)).

(** The entries of a row of [__call__] that belong to level [l]: the first
    one for level [0], then two for every level. *)
Definition level_slice (l : nat) (row : list R) : list R :=
  match l with
  | O => take 1 row
  | S l' => take 2 (drop (2 * l' + 1) row)
  end.

(** The entry [t[i, j, l]] of a rank-3 tensor. *)
Definition entry (t : tensor3) (i j l : nat) : option R :=
  t !! i ≫= fun m => m !! j ≫= fun v => v !! l.

End CircleSpace.

(** ** The Stiefel manifold ([spaces/stiefel.py]) *)

Module Stiefel.

Import Tensor.

(** The outcomes of integer code that also divides. *)
Inductive error : Type :=
| Exn (e : exn)
| ZeroDivisionError
| OverflowError.

(** A left fold whose step may raise; the first exception ends it. *)
Fixpoint fold_result {A B : Type} (step : A -> B -> result A) (acc : A)
    (l : list B) : result A :=
  match l with
  | [] => Return acc
  | b :: l' =>
      match step acc b with
      | inl e => inl e
      | inr acc' => fold_result step acc' l'
      end
  end.

(** [enumerate(l)], counting from [start]. *)
Fixpoint enumerate_from {A : Type} (start : Z) (l : list A) : list (Z * A) :=
  match l with
  | [] => []
  | a :: l' => (start, a) :: enumerate_from (start + 1) l'
  end.

(** [sum([row_l >= i + 1 for row_l in lmd])]: the number of rows longer
    than [i]. *)
Definition rows_longer_than (lmd : list Z) (i : Z) : Z :=
  fold_right Z.add 0%Z
    (map (fun row_l => if (row_l >=? i + 1)%Z then 1%Z else 0%Z) lmd).

(** [l_cols]: indexing [lmd[0]] raises on the empty tuple. *)
Definition l_cols (lmd : list Z) : result (list Z) :=
  match lmd with
  | [] => Raise IndexError
  | l0 :: _ => Return (map (rows_longer_than lmd) (Circle.range l0))
  end.

(** The body of the inner loop, on the pair [(numer, denom)].  [id_col] is
    never negative, so [l_cols[id_col]] raises exactly when [id_col] is
    beyond the end. *)
Definition cell_step (n : Z) (cols : list Z) (id_row l_row : Z)
    (acc : Z * Z) (id_col : Z) : result (Z * Z) :=
  let '(numer, denom) := acc in
  let numer := (numer * (n + id_col - id_row))%Z in
  match cols !! Z.to_nat id_col with
  | Some c => Return (numer, (denom * (c + l_row - id_row - id_col - 1))%Z)
  | None => Raise IndexError
  end.

(** The body of the outer loop. *)
Definition row_step (n : Z) (cols : list Z) (acc : Z * Z) (row : Z * Z)
  : result (Z * Z) :=
  let '(id_row, l_row) := row in
  fold_result (cell_step n cols id_row l_row) acc (Circle.range l_row).

(** The two products at the end of the loops. *)
Definition hook_content_products (lmd : list Z) (n : Z) : result (Z * Z) :=
  match l_cols lmd with
  | inl e => inl e
  | inr cols => fold_result (row_step n cols) (1%Z, 1%Z) (enumerate_from 0 lmd)
  end.

(** The least magnitude that no float holds: a quotient of integers is
    rounded to the nearest float, and from [2^1024 - 2^970] on there is
    none. *)
Definition float_overflow : Z := 2 ^ 1024 - 2 ^ 970.

(** [numer / denom] on two Python integers: the quotient as a float, here a
    real number; the division raises [ZeroDivisionError] for a zero
    divisor and [OverflowError] when the quotient is too large for a
    float. *)
Definition true_divide (numer denom : Z) : error + R :=
  if (denom =? 0)%Z then inl ZeroDivisionError
  else if (float_overflow * Z.abs denom <=? Z.abs numer)%Z
       then inl OverflowError
       else inr (IZR numer / IZR denom)%R.

(** [hook_content_formula(lmd, n)]: [numer / denom]. *)
Definition hook_content_formula (lmd : list Z) (n : Z) : error + R :=
  match hook_content_products lmd n with
  | inl e => inl (Exn e)
  | inr (numer, denom) => true_divide numer denom
  end.

(** A tuple of row lengths is the shape of a diagram when no row is longer
    than the row before it. *)
Fixpoint non_increasing (lmd : list Z) : bool :=
  match lmd with
  | a :: (b :: _) as tail => (b <=? a)%Z && non_increasing tail
  | _ => true
  end.

(** The same, entry against entry. *)
Definition later_not_longer (lmd : list Z) : Prop :=
  forall (i j : nat) (a b : Z),
    (i <= j)%nat -> lmd !! i = Some a -> lmd !! j = Some b -> (b <= a)%Z.

(** The product of a list of integers. *)
Definition product (l : list Z) : Z := fold_right Z.mul 1%Z l.

(** The cells [(id_row, id_col)] of the diagram of [lmd], in the order the
    loops visit them. *)
Definition cells (lmd : list Z) : list (Z * Z) :=
  flat_map (fun row => map (fun id_col => (fst row, id_col))
                           (Circle.range (snd row)))
           (enumerate_from 0 lmd).

End Stiefel.

(** ** Hyperbolic functions of the back-end layer ([lab_extras/extras.py]) *)

Module LabMath.

Local Open Scope R_scope.

(** [cosh(x) = 0.5 * (exp(x) + exp(-x))]. *)
Definition cosh (x : R) : R := 0.5 * (exp x + exp (- x)).

(** [sinh(x) = 0.5 * (exp(x) - exp(-x))]. *)
Definition sinh (x : R) : R := 0.5 * (exp x - exp (- x)).

End LabMath.

(** ** Hyperbolic space ([spaces/hyperbolic.py]) *)

Module HyperbolicSpace.

Import Tensor.
Local Open Scope R_scope.

(** A [Hyperbolic] object: its attribute [dim], which [dimension]
    returns. *)
Record Hyperbolic : Type := { dim : Z }.

Definition dimension (self : Hyperbolic) : Z := dim self.

(** [Hyperbolic.inner_product(vector_a, vector_b)] for two vectors of
    [dim + 1] entries: the Minkowski product with signature
    [[-1.0] * 1 + [1.0] * dimension]. *)
Definition inner_product (self : Hyperbolic) (vector_a vector_b : list R) : R :=
  let q := dimension self in
  let p := 1%nat in
  let diagonal := repeat (-1) p ++ repeat 1 (Z.to_nat q) in
  sum (zip_with Rmult (zip_with Rmult diagonal vector_a) vector_b).

(** The two [B.where] of [distance]: the values are clipped into
    [[1.0, 1e24]]. *)
Definition clip (cosh_angle : R) : R :=
  let one := 1 in
  let large_constant := 1e24 in
  let cosh_angle := if Rlt_dec cosh_angle one then one else cosh_angle in
  if Rgt_dec cosh_angle large_constant then large_constant else cosh_angle.

(** The body of [distance] after the points have been paired: the
    distance of one point [x1_] to one point [x2_]. *)
Definition distance_pair (self : Hyperbolic) (x1_ x2_ : list R) : R :=
  let sq_norm_1 := inner_product self x1_ x1_ in
  let sq_norm_2 := inner_product self x2_ x2_ in
  let inner_prod := inner_product self x1_ x2_ in
  let cosh_angle := - inner_prod / sqrt (sq_norm_1 * sq_norm_2) in
  let cosh_angle := clip cosh_angle in
  ln (cosh_angle + sqrt (cosh_angle ^ 2 - 1)).

(** An argument of [distance]: one point as a rank-1 array, or an
    [[N, dim+1]] array of points. *)
Inductive points : Type :=
| OnePoint (x : list R)
| Points (xs : matrix).

(** [B.expand_dims(x)] applied when [B.rank(x) == 1]. *)
Definition as_matrix (x : points) : matrix :=
  match x with
  | OnePoint v => [v]
  | Points xs => xs
  end.

(** [distance(x1, x2, diag=False)]: all pairs of a point of [x1] and a point
    of [x2], an [[N, M]] matrix. *)
Definition distance (self : Hyperbolic) (x1 x2 : points) : matrix :=
  let x1 := as_matrix x1 in
  let x2 := as_matrix x2 in
  map (fun a => map (fun b => distance_pair self a b) x2) x1.

(** [distance(x1, x2, diag=True)] for two [[N, dim+1]] arrays: the points
    are paired position by position, an [[N]] vector. *)
Definition distance_diag (self : Hyperbolic) (x1 x2 : matrix) : list R :=
  zip_with (distance_pair self) x1 x2.

(** [Hyperbolic.random(key, number)]. *)
Definition random {K : Type} (self : Hyperbolic) (key : K) (number : Z)
  : result (K * matrix) :=
  Raise NotImplementedError.

(** [np.linspace(start, stop, num)]. *)
Definition linspace (start stop : R) (num : nat) : list R :=
  match num with
  | 1%nat => [start]
  | _ => map (fun i => start + INR i * ((stop - start) / INR (num - 1)))
             (seq 0 num)
  end.

(** [logspace(start, stop, num, base)]: [base ** linspace(start, stop,
    num)]. *)
Definition logspace (start stop : R) (num : nat) (base : R) : list R :=
  map (Rpower base) (linspace start stop num).

(** [trapz(y, x)] along the last axis: the composite trapezoidal rule on
    the nodes [x]. *)
Fixpoint trapz (y x : list R) : R :=
  match y, x with
  | y0 :: ((y1 :: _) as y'), x0 :: ((x1 :: _) as x') =>
      (x1 - x0) * (y0 + y1) / 2 + trapz y' x'
  | _, _ => 0
  end.

(** The heat kernel in dimension one at one distance and one time. *)
Definition heat_kernel_1 (distance t : R) : R :=
  exp (- (distance ^ 2) / (4 * t)).

(** The nodes [s_vals] of the integral in dimension two. *)
Definition s_vals (distance : R) (num_points : nat) : list R :=
  map (fun s => s + distance)
      (logspace (ln 1e-2) (ln 100) num_points (exp 1)).

(** The values [integral_vals] at the nodes. *)
Definition integral_vals (distance t : R) (num_points : nat) : list R :=
  map (fun s => s * exp (- (s ^ 2) / (4 * t))
                / sqrt (LabMath.cosh s - LabMath.cosh distance))
      (s_vals distance num_points).

(** The heat kernel in dimension two. *)
Definition heat_kernel_2 (distance t : R) (num_points : nat) : R :=
  trapz (integral_vals distance t num_points) (s_vals distance num_points).

(** The heat kernel in dimension three. *)
Definition heat_kernel_3 (distance t : R) : R :=
  let heat_kernel := exp (- (distance ^ 2) / (4 * t)) in
  heat_kernel * (distance + 1e-8) / LabMath.sinh (distance + 1e-8).

(** [heat_kernel(distance, t, num_points)] for an [[N1, N2]] matrix of
    distances and a vector [t] of [T] times: an [[N1, N2, T]] tensor. *)
Definition heat_kernel (self : Hyperbolic) (distance : matrix) (t : list R)
    (num_points : nat) : result tensor3 :=
  if (dimension self =? 1)%Z then
    Return (map (map (fun d => map (fun ti => heat_kernel_1 d ti) t)) distance)
  else if (dimension self =? 2)%Z then
    Return (map (map (fun d => map (fun ti => heat_kernel_2 d ti num_points) t))
                distance)
  else if (dimension self =? 3)%Z then
    Return (map (map (fun d => map (fun ti => heat_kernel_3 d ti) t)) distance)
  else Raise NotImplementedError.

End HyperbolicSpace.

(** ** The deterministic feature map for compact spaces
       ([kernels/feature_maps.py]) *)

Module CompactFeatureMaps.

Import Tensor.
Local Open Scope R_scope.

Section DeterministicCompact.

Variable point : Type.

(** A rank-two tensor: its rows and its number of columns, which is part of
    its shape also when it has no row. *)
Record tensor2 : Type := { columns : nat; rows : matrix }.

(** The kernel state, a dictionary, by the two keys the map reads: a key is
    absent, or holds the eigenvalues, respectively the eigenfunctions
    object, given by its [__call__]. *)
Record kernel_state : Type := {
  eigenvalues_laplacian : option (list R);
  eigenfunctions : option (list point -> tensor2)
}.

(** The kernel parameters [params["nu"]] and [params["lengthscale"]]. *)
Record kernel_params : Type := { nu : R; lengthscale : R }.

(** What the feature map uses of the space and of the kernel. *)
Record DiscreteSpectrumSpace : Type := {
  get_repeated_eigenvalues : Z -> list R
}.

Record MaternKarhunenLoeveKernel : Type := {
  num_eigenfunctions : Z;
  _spectrum : list R -> R -> R -> list R
}.

(** [B.cast(B.dtype(X), v)] on one entry [v]: the conversion to the dtype
    of [X].  It leaves [v] as it is, up to rounding, when [X] holds floats,
    and truncates it when [X] holds integers, as the indices of the
    vertices of a graph or of a mesh. *)
Variable cast : list point -> R -> R.

(** The product of a tensor of shape [[N, M']] and the row [weights] of
    shape [[1, M]], with the broadcasting of the back-end: [M'] and [M]
    are equal, or one of the two is one and its only entry is repeated;
    otherwise the product raises [ValueError], whose text, which quotes the
    shapes, is left out. *)
Definition broadcast_mul (t : tensor2) (weights : list R) : result matrix :=
  if bool_decide (columns t = length weights)
  then Return (map (fun row => zip_with Rmult row weights) (rows t))
  else if bool_decide (columns t = 1%nat)
  then Return (map (fun row => flat_map (fun a => map (Rmult a) weights) row)
                   (rows t))
  else if bool_decide (length weights = 1%nat)
  then Return (map (fun row => flat_map (fun w => map (fun x => x * w) row)
                                        weights)
                   (rows t))
  else Raise (ValueError EmptyString).

(** [deterministic_feature_map_compact(space, kernel)._map(X, params,
    state)]: the features, the context being empty.  A power with exponent
    [0.5] is a square root. *)
Definition _map (space : DiscreteSpectrumSpace)
    (kernel : MaternKarhunenLoeveKernel) (X : list point)
    (prm : kernel_params) (state : kernel_state) : result matrix :=
  match eigenvalues_laplacian state, eigenfunctions state with
  | None, _ => Raise (AssertionError EmptyString)
  | Some _, None => Raise (AssertionError EmptyString)
  | Some _, Some Phi =>
      let repeated_eigenvalues :=
        get_repeated_eigenvalues space (num_eigenfunctions kernel) in
      let spectrum :=
        _spectrum kernel (map sqrt repeated_eigenvalues) (nu prm)
                  (lengthscale prm) in
      let weights := map sqrt spectrum in
      let eigenfunctions := Phi X in
      broadcast_mul
        {| columns := columns eigenfunctions;
           rows := map (map (cast X)) (rows eigenfunctions) |}
        (map (cast X) weights)
  end.

End DeterministicCompact.

End CompactFeatureMaps.

(** ** The value of a projected character at the identity
       ([spaces/stiefel.py]) *)

Module StiefelEigenfunctions.

Import Stiefel.

(** What the method reads of the manifold [self.M]: [M.n], [M.m] and the
    rank [M.G.rank] of its group. *)
Record Manifold : Type := { n : Z; m : Z; rank : Z }.

(** [signature[i]] on a tuple. *)
Definition getitem (signature : list Z) (i : Z) : result Z :=
  match LabExtras.normalize_index (length signature) i with
  | Some k =>
      match signature !! k with
      | Some x => Return x
      | None => Raise IndexError
      end
  | None => Raise IndexError
  end.

(** [_compute_projected_character_value_at_e(signature)]; the conjunction
    reads [signature[m_]] only when [m_ < rank]. *)
Definition _compute_projected_character_value_at_e (M : Manifold)
    (signature : list Z) : error + R :=
  let m_ := Z.min (m M) (n M - m M) in
  let positive_beyond : result bool :=
    if (m_ <? rank M)%Z then
      match getitem signature m_ with
      | inl e => inl e
      | inr x => Return (x >? 0)%Z
      end
    else Return false in
  match positive_beyond with
  | inl e => inl (Exn e)
  | inr true => inr 0%R
  | inr false =>
      let signature_abs := map Z.abs signature in
      hook_content_formula signature_abs m_
  end.

End StiefelEigenfunctions.

(** ** The degree matrix of an adjacency matrix
       ([lab_extras/numpy/extras.py], [lab_extras/numpy/sparse_extras.py]) *)

Module Degree.

Import Tensor LabExtras.
Local Open Scope R_scope.

(** Entry [(i, j)] of a matrix. *)
Definition entry (rows : matrix) (i j : nat) : R :=
  default 0 (default [] (rows !! i) !! j).

(** [a.sum(axis=0)] for a two-dimensional array with [ncols] columns. *)
Definition sum_axis0 (ncols : nat) (rows : matrix) : list R :=
  map (fun j => sum (map (fun row => default 0 (row !! j)) rows))
      (seq 0 ncols).

(** [np.diag(d)] for a one-dimensional [d]. *)
Definition diag (d : list R) : matrix :=
  imap (fun i x => imap (fun j _ => if decide (i = j) then x else 0) d) d.

(** [a.sum(axis=0)] for a sparse matrix: the column sums of the entries
    within the shape, as many as there are columns. *)
Definition sparse_sum_axis0 (nrows ncols : nat)
    (stored : gmap (nat * nat) R) : list R :=
  map (fun j => sum (map (fun i => default 0 (stored !! (i, j)))
                         (seq 0 nrows)))
      (seq 0 ncols).

(** [sp.spdiags(d, 0, d.size, d.size)]: the matrix in the [dia] format that
    stores [d] on its main diagonal. *)
Definition spdiags (d : list R) : array R :=
  Sparse dia_matrix (length d) (length d)
         (list_to_map (imap (fun j x => ((j, j), x)) d)).

(** [degree(a)].  On a one-dimensional array [a.sum(axis=0)] is a scalar,
    which [np.diag] rejects.  A dense array is given by its rows, so one
    without rows has no columns here. *)
Definition degree (a : array R) : result (array R) :=
  match a with
  | Vector _ => Raise (ValueError "Input must be 1- or 2-d.")
  | Dense rows =>
      let degrees := sum_axis0 (length (hd [] rows)) rows in
      Return (Dense (diag degrees))
  | Sparse _ nrows ncols stored =>
      let d := sparse_sum_axis0 nrows ncols stored in
      Return (spdiags d)
  end.

End Degree.

(** ** Ordered pairwise differences ([utils/utils.py]) *)

Module PairwiseDifferences.

Import Tensor.
Local Open Scope R_scope.

(** [expand_dims(x, -2) - expand_dims(x, -1)] for one row [x] of the batch:
    the matrix whose entry [(i, j)] is [x[j] - x[i]]. *)
Definition differences (x : list R) : matrix :=
  map (fun xi => map (fun xj => xj - xi) x) x.

(** [tril_to_vec(a, offset)] on a square matrix: the entries [(i, j)] with
    [j <= i + offset], row after row. *)
Definition tril_to_vec (offset : Z) (a : matrix) : list R :=
  flat_map
    (fun i =>
       map (fun j => default 0 (default [] (a !! i) !! j))
           (seq 0 (Nat.min (length a)
                           (Z.to_nat (Z.of_nat i + offset + 1)))))
    (seq 0 (length a)).

(** [ordered_pairwise_differences(X)] for [X] of shape [[B, D]]. *)
Definition ordered_pairwise_differences (X : matrix) : matrix :=
  map (fun x => tril_to_vec (-1) (differences x)) X.

End PairwiseDifferences.

(** ** The Stiefel manifold as a quotient ([spaces/stiefel.py]) *)

Module StiefelSpace.

Import Tensor.
Local Open Scope R_scope.

(** The attributes [n] and [m] of the space. *)
Record Stiefel : Type := { n : Z; m : Z }.

(** [l[:stop]]: a negative [stop] counts from the end. *)
Definition slice_to {A : Type} (stop : Z) (l : list A) : list A :=
  if (stop <? 0)%Z then take (Z.to_nat (Z.of_nat (length l) + stop)) l
  else take (Z.to_nat stop) l.

(** [project_to_manifold(g)] for one matrix [g]: [g[..., :m]]. *)
Definition project_to_manifold (self : Stiefel) (g : matrix) : matrix :=
  map (slice_to (m self)) g.

(** [zeros(r, c)] and [eye(r, c)]. *)
Definition zeros (r c : nat) : matrix := repeat (repeat 0 c) r.

Definition eye (r c : nat) : matrix :=
  map (fun i => map (fun j => if decide (i = j) then 1 else 0) (seq 0 c))
      (seq 0 r).

(** [transpose(a)] for a matrix with [cols] columns. *)
Definition transpose (cols : nat) (a : matrix) : matrix :=
  map (fun j => map (fun row => default 0 (row !! j)) a) (seq 0 cols).

(** [embed_stabilizer(h)] for one matrix [h], given by its rows; its number
    of columns is read off its first row.  A negative size is rejected by
    [zeros], and [concat] rejects pieces whose other dimension differs;
    the texts of these two errors are left out. *)
Definition embed_stabilizer (self : Stiefel) (h : matrix) : result matrix :=
  if ((m self <? 0) || (n self - m self <? 0))%Z
  then Raise (ValueError EmptyString)
  else
    let rows := Z.to_nat (m self) in
    let cols := Z.to_nat (n self - m self) in
    let zeros := zeros rows cols in
    let zeros_t := transpose cols zeros in
    let eye := eye rows rows in
    let l := eye ++ zeros_t in
    if negb (bool_decide (length (hd [] h) = cols))
    then Raise (ValueError EmptyString)
    else
      let r := zeros ++ h in
      if negb (bool_decide (length l = length r))
      then Raise (ValueError EmptyString)
      else Return (zip_with (@app R) l r).

End StiefelSpace.

(** * Properties *)

(** Lookup in a mapped list, for [List.map]. *)
Lemma lookup_map {A B : Type} (f : A -> B) (l : list A) (i : nat) :
  map f l !! i = f <$> l !! i.
Proof. exact (list_lookup_fmap f l i). Qed.

(** ** The kernel factory *)

Section FactoryFacts.

Import Factory.

(** The two classifications the factory branches on are disjoint. *)
Lemma noncompact_not_discrete (s : space) :
  isinstance_NoncompactSymmetricSpace s = true ->
  isinstance_DiscreteSpectrumSpace s = false.
Proof. destruct s; simpl; congruence. Qed.

(** [default_num] is defined on both supported classifications. *)
Lemma default_num_defined (s : space) :
  isinstance_DiscreteSpectrumSpace s = true \/
  isinstance_NoncompactSymmetricSpace s = true ->
  exists d, default_num s = Return d.
Proof. destruct s; simpl; intros [H | H]; try discriminate; eauto. Qed.

(** On a non-compact space the feature map is chosen from [space] and [num]
    alone and logged. *)
Lemma default_feature_map_noncompact (s : space) (num : pyval) log :
  isinstance_NoncompactSymmetricSpace s = true ->
  exists fm, default_feature_map s num None log
             = (Return fm, log ++ [BuiltFeatureMap fm]).
Proof. destruct s; simpl; intros H; try discriminate; eauto. Qed.

(** C1. On a [NoncompactSymmetricSpace], a call without the keyword argument
    ['key'] raises [ValueError] with an empty construction log: no feature
    map and no kernel has been built.  With ['key'] present the factory
    builds first the feature map, then the [MaternFeatureMapKernel] that
    wraps it with that key, and returns normally. *)
Theorem noncompact_requires_key
    (s : space) (num normalize return_feature_map : pyval)
    (kwargs : gmap string pyval) :
  isinstance_NoncompactSymmetricSpace s = true ->
  (kwargs !! "key"%string = None ->
   run (MaternGeometricKernel_new s num normalize return_feature_map kwargs)
   = (Raise (ValueError (missing_key_message s)), [])) /\
  (forall key, kwargs !! "key"%string = Some key ->
   exists fm p,
     run (MaternGeometricKernel_new s num normalize return_feature_map kwargs)
     = (Return p,
        [BuiltFeatureMap fm;
         BuiltKernel (MaternFeatureMapKernel s fm key normalize)])).
Proof.
  intros Hnc. pose proof (noncompact_not_discrete s Hnc) as Hd.
  unfold run, MaternGeometricKernel_new, bind. rewrite Hd, Hnc.
  split.
  - intros Hk. rewrite Hk.
    unfold num_or_default, bind, lift, ret, raise, Return, Raise.
    destruct (truthy num); [reflexivity|].
    destruct (default_num_defined s (or_intror Hnc)) as [d Hdn].
    unfold Return in Hdn. rewrite Hdn. reflexivity.
  - intros key Hk. rewrite Hk.
    unfold num_or_default, bind, lift, ret, emit, Return.
    destruct (truthy num).
    + destruct (default_feature_map_noncompact s num [] Hnc) as [fm Hfm].
      unfold Return in Hfm. rewrite Hfm. cbn.
      exists fm. destruct (truthy return_feature_map); eauto.
    + destruct (default_num_defined s (or_intror Hnc)) as [d Hdn].
      unfold Return in Hdn. rewrite Hdn.
      destruct (default_feature_map_noncompact s (PyInt d) [] Hnc) as [fm Hfm].
      unfold Return in Hfm. rewrite Hfm. cbn.
      exists fm. destruct (truthy return_feature_map); eauto.
Qed.

Lemma noncompact_requires_key_witness :
  run (MaternGeometricKernel_new (SymmetricPositiveDefiniteMatrices 2) PyNone (PyBool true)
         (PyBool false) ∅)
  = (Raise (ValueError (missing_key_message (SymmetricPositiveDefiniteMatrices 2))), []) /\
  exists fm p,
    run (MaternGeometricKernel_new (SymmetricPositiveDefiniteMatrices 2) PyNone (PyBool true)
           (PyBool false) {[ "key"%string := PyObj 1 ]})
    = (Return p,
       [BuiltFeatureMap fm;
        BuiltKernel (MaternFeatureMapKernel (SymmetricPositiveDefiniteMatrices 2) fm (PyObj 1)
                       (PyBool true))]).
Proof.
  split.
  - apply (proj1 (noncompact_requires_key (SymmetricPositiveDefiniteMatrices 2) PyNone (PyBool true)
                    (PyBool false) ∅ eq_refl)).
    reflexivity.
  - apply (proj2 (noncompact_requires_key (SymmetricPositiveDefiniteMatrices 2) PyNone (PyBool true)
                    (PyBool false) {[ "key"%string := PyObj 1 ]} eq_refl)
             (PyObj 1)).
    reflexivity.
Defined.

(** What the factory does on a discrete-spectrum space, for an order already
    resolved to [n]. *)
Lemma new_discrete_run (s : space) (num normalize rfm : pyval)
    (kwargs : gmap string pyval) (n : pyval) :
  isinstance_DiscreteSpectrumSpace s = true ->
  num_or_default num s [] = (Return n, []) ->
  exists p,
    run (MaternGeometricKernel_new s num normalize rfm kwargs)
    = (Return p,
       [BuiltKernel (MaternKarhunenLoeveKernel s n normalize);
        BuiltFeatureMap
          (deterministic_feature_map_compact s
             (Some (MaternKarhunenLoeveKernel s n normalize)))]) /\
    product_kernel p = MaternKarhunenLoeveKernel s n normalize.
Proof.
  intros Hd Hn. unfold run, MaternGeometricKernel_new, bind.
  rewrite Hd. unfold Return in Hn. rewrite Hn.
  destruct s; try discriminate; cbn;
    destruct (truthy rfm); cbn; eauto.
Qed.

(** The same on a non-compact symmetric space called with a key. *)
Lemma new_noncompact_run (s : space) (num normalize rfm : pyval)
    (kwargs : gmap string pyval) (n key : pyval) :
  isinstance_NoncompactSymmetricSpace s = true ->
  kwargs !! "key"%string = Some key ->
  num_or_default num s [] = (Return n, []) ->
  exists p fm,
    run (MaternGeometricKernel_new s num normalize rfm kwargs)
    = (Return p,
       [BuiltFeatureMap fm;
        BuiltKernel (MaternFeatureMapKernel s fm key normalize)]) /\
    product_kernel p = MaternFeatureMapKernel s fm key normalize /\
    kernel_order (product_kernel p) = n.
Proof.
  intros Hnc Hk Hn. pose proof (noncompact_not_discrete s Hnc) as Hd.
  unfold run, MaternGeometricKernel_new, bind.
  rewrite Hd, Hnc, Hk. unfold Return in Hn. rewrite Hn.
  destruct s; try discriminate; cbn;
    destruct (truthy rfm); cbn; eauto 10.
Qed.

Lemma num_or_default_None (s : space) (d : Z) log :
  default_num s = Return d ->
  num_or_default PyNone s log = (Return (PyInt d), log).
Proof.
  intros H. unfold num_or_default, bind, lift, ret. cbn.
  unfold Return in H. rewrite H. reflexivity.
Qed.

(** C3. Called without an order ([num=None]), the factory builds the kernel
    of a [Graph] or [Mesh] with order [min(1000, num_vertices)], the kernel
    of any other discrete-spectrum space with order [35], and the kernel of
    a non-compact symmetric space (called with a key) with order [3000];
    these are the values of [default_num]. *)
Theorem default_order_resolution
    (normalize rfm : pyval) (kwargs : gmap string pyval) :
  (forall nv, exists p log,
      default_num (Graph nv) = Return (Z.min 1000 nv) /\
      run (MaternGeometricKernel_new (Graph nv) PyNone normalize rfm kwargs)
      = (Return p, log) /\
      kernel_order (product_kernel p) = PyInt (Z.min 1000 nv)) /\
  (forall nv, exists p log,
      default_num (Mesh nv) = Return (Z.min 1000 nv) /\
      run (MaternGeometricKernel_new (Mesh nv) PyNone normalize rfm kwargs)
      = (Return p, log) /\
      kernel_order (product_kernel p) = PyInt (Z.min 1000 nv)) /\
  (forall cls, exists p log,
      default_num (OtherDiscreteSpectrumSpace cls) = Return 35 /\
      run (MaternGeometricKernel_new (OtherDiscreteSpectrumSpace cls) PyNone
             normalize rfm kwargs)
      = (Return p, log) /\
      kernel_order (product_kernel p) = PyInt 35) /\
  (forall s key,
      isinstance_NoncompactSymmetricSpace s = true ->
      kwargs !! "key"%string = Some key ->
      exists p log,
        default_num s = Return 3000 /\
        run (MaternGeometricKernel_new s PyNone normalize rfm kwargs)
        = (Return p, log) /\
        kernel_order (product_kernel p) = PyInt 3000).
Proof.
  repeat split.
  - intros nv.
    destruct (new_discrete_run (Graph nv) PyNone normalize rfm kwargs
                (PyInt (Z.min 1000 nv)) eq_refl eq_refl) as (p & Hrun & Hp).
    exists p. eexists. rewrite Hp. eauto.
  - intros nv.
    destruct (new_discrete_run (Mesh nv) PyNone normalize rfm kwargs
                (PyInt (Z.min 1000 nv)) eq_refl eq_refl) as (p & Hrun & Hp).
    exists p. eexists. rewrite Hp. eauto.
  - intros cls.
    destruct (new_discrete_run (OtherDiscreteSpectrumSpace cls) PyNone
                normalize rfm kwargs (PyInt 35) eq_refl eq_refl)
      as (p & Hrun & Hp).
    exists p. eexists. rewrite Hp. eauto.
  - intros s key Hnc Hk.
    assert (Hd : default_num s = Return 3000)
      by (destruct s; try discriminate; reflexivity).
    destruct (new_noncompact_run s PyNone normalize rfm kwargs (PyInt 3000)
                key Hnc Hk (num_or_default_None s 3000 [] Hd))
      as (p & fm & Hrun & _ & Hord).
    exists p. eexists. eauto.
Qed.

Lemma default_order_resolution_witness :
  exists p log,
    default_num (SymmetricPositiveDefiniteMatrices 3) = Return 3000 /\
    run (MaternGeometricKernel_new (SymmetricPositiveDefiniteMatrices 3) PyNone
           (PyBool true) (PyBool true) {[ "key"%string := PyObj 7 ]})
    = (Return p, log) /\
    kernel_order (product_kernel p) = PyInt 3000.
Proof.
  apply (proj2 (proj2 (proj2
           (default_order_resolution (PyBool true) (PyBool true)
              {[ "key"%string := PyObj 7 ]})))
           (SymmetricPositiveDefiniteMatrices 3) (PyObj 7));
    reflexivity.
Defined.




(** With [num=0] on a graph of twelve vertices the kernel is built with
    order twelve, not zero. *)
Example zero_num_on_graph :
  run (MaternGeometricKernel_new (Graph 12) (PyInt 0) (PyBool true)
         (PyBool false) ∅)
  = (Return (KernelOnly (MaternKarhunenLoeveKernel (Graph 12) (PyInt 12)
                           (PyBool true))),
     [BuiltKernel (MaternKarhunenLoeveKernel (Graph 12) (PyInt 12) (PyBool true));
      BuiltFeatureMap
        (deterministic_feature_map_compact (Graph 12)
           (Some (MaternKarhunenLoeveKernel (Graph 12) (PyInt 12)
                    (PyBool true))))]).
Proof. reflexivity. Qed.

End FactoryFacts.

(** ** The circle's eigenfunctions *)

Section CircleFacts.

Import Tensor Circle.

(** Every level after the first holds two eigenfunctions. *)
Lemma per_level_from (start n : nat) :
  (1 <= start)%nat ->
  map (fun level => if (level =? 0)%Z then 1%Z else 2%Z)
      (map Z.of_nat (seq start n))
  = repeat 2%Z n.
Proof.
  revert start. induction n as [|n IH]; intros start Hs; [reflexivity|].
  cbn [seq map repeat]. rewrite IH by lia.
  destruct (Z.eqb_spec (Z.of_nat start) 0); [lia | reflexivity].
Qed.

Lemma firstn_repeat_succ {A : Type} (x : A) (n : nat) :
  firstn n (repeat x (S n)) = repeat x n.
Proof. induction n as [|n IH]; [reflexivity|]. cbn [repeat firstn] in *. now f_equal. Qed.

(** The per-level counts are [1, 2, 2, ...], cut at the number of levels. *)
Lemma per_level_shape (self : SinCosEigenfunctions) :
  num_eigenfunctions_per_level self
  = take (Z.to_nat (num_levels self))
         (1%Z :: repeat 2%Z (Z.to_nat (num_levels self))).
Proof.
  unfold num_eigenfunctions_per_level, range.
  destruct (Z.to_nat (num_levels self)) as [|n]; [reflexivity|].
  cbn [seq map firstn]. rewrite per_level_from by lia.
  now rewrite firstn_repeat_succ.
Qed.

Lemma sum_repeat_two (n : nat) :
  fold_right Z.add 0%Z (repeat 2%Z n) = (2 * Z.of_nat n)%Z.
Proof. induction n as [|n IH]; [reflexivity|]. cbn [repeat fold_right]. lia. Qed.

(** C7. An even count (zero included) fails the parity assertion of
    [__init__]; an odd count [num >= 1] constructs an object with
    [num // 2 + 1] levels, whose per-level counts are [1] for level [0] and
    [2] for every other level and sum to [num]. *)
Theorem init_parity (num : Z) :
  (Z.even num = true ->
   init num = Raise (AssertionError parity_message)) /\
  (Z.odd num = true -> (1 <= num)%Z ->
   exists self,
     init num = Return self /\
     num_eigenfunctions self = num /\
     num_levels self = (num / 2 + 1)%Z /\
     num_eigenfunctions_per_level self
     = 1%Z :: repeat 2%Z (Z.to_nat (num / 2)) /\
     length (num_eigenfunctions_per_level self) = Z.to_nat (num_levels self) /\
     fold_right Z.add 0%Z (num_eigenfunctions_per_level self) = num).
Proof.
  split.
  - intros He. unfold init.
    rewrite Zmod_even, He. reflexivity.
  - intros Ho H1. unfold init.
    rewrite Zmod_odd, Ho. cbn [Z.eqb Pos.eqb negb].
    destruct (Z.geb_spec num 1) as [_|Hlt]; [|lia]. cbn [negb].
    eexists. split; [reflexivity|].
    assert (Hnum : num = (2 * (num / 2) + 1)%Z).
    { rewrite (Z.div_mod num 2) at 1 by lia. rewrite Zmod_odd, Ho. reflexivity. }
    assert (Hpos : (0 <= num / 2)%Z) by (apply Z.div_pos; lia).
    assert (Hpl :
      num_eigenfunctions_per_level
        {| _num_eigenfunctions := num; _num_levels := (num / 2 + 1)%Z |}
      = 1%Z :: repeat 2%Z (Z.to_nat (num / 2))).
    { unfold num_eigenfunctions_per_level, range, num_levels. cbn [_num_levels].
      replace (Z.to_nat (num / 2 + 1)) with (S (Z.to_nat (num / 2))) by lia.
      cbn [seq map]. rewrite per_level_from by lia. reflexivity. }
    rewrite Hpl. unfold num_eigenfunctions, num_levels.
    cbn [_num_eigenfunctions _num_levels].
    repeat split.
    + cbn [length]. rewrite repeat_length. lia.
    + cbn [fold_right]. rewrite sum_repeat_two. lia.
Qed.

Lemma init_parity_witness :
  init 4 = Raise (AssertionError parity_message) /\
  exists self,
    init 5 = Return self /\
    num_eigenfunctions self = 5%Z /\
    num_levels self = (5 / 2 + 1)%Z /\
    num_eigenfunctions_per_level self
    = 1%Z :: repeat 2%Z (Z.to_nat (5 / 2)) /\
    length (num_eigenfunctions_per_level self) = Z.to_nat (num_levels self) /\
    fold_right Z.add 0%Z (num_eigenfunctions_per_level self) = 5%Z.
Proof.
  split.
  - apply (proj1 (init_parity 4)). reflexivity.
  - apply (proj2 (init_parity 5)); [reflexivity | lia].
Defined.

(** An odd but non-positive count passes the parity assertion and fails the
    second one. *)
Example init_minus_one : init (-1) = Raise (AssertionError EmptyString).
Proof. reflexivity. Qed.

(** C8. With [num_eigenfunctions=5], the basis evaluated at the points
    [(1,0)] and [(0,1)] is a matrix of two rows of five entries each, and
    the first entry of both rows, the level-0 function, is exactly [1]. *)
Theorem call_five_first_column :
  exists self r0 r1,
    init 5 = Return self /\
    call self [(1, 0); (0, 1)]%R = [1%R :: r0; 1%R :: r1] /\
    length (call self [(1, 0); (0, 1)]%R) = 2%nat /\
    length (1%R :: r0) = 5%nat /\
    length (1%R :: r1) = 5%nat.
Proof.
  eexists. eexists. eexists.
  split; [reflexivity|].
  split; [|split; [|split]]; reflexivity.
Qed.

Lemma atan2_east : atan2 0 1 = 0%R.
Proof.
  unfold atan2. destruct (Rlt_dec 0 1) as [_|H]; [|lra].
  replace (0 / 1)%R with 0%R by lra. apply atan_0.
Qed.

Lemma atan2_north : atan2 1 0 = (PI / 2)%R.
Proof.
  unfold atan2.
  destruct (Rlt_dec 0 0) as [H|_]; [lra|].
  destruct (Rlt_dec 0 1) as [_|H]; [reflexivity | lra].
Qed.

(** The two rows in full: at angle [0] the cosines are [1] and the sines
    [0]; at angle [pi/2] they are [0, -1] and [1, 0]. *)
Example call_five_values :
  forall self, init 5 = Return self ->
  call self [(1, 0); (0, 1)]%R
  = [[1; sqrt 2; 0; sqrt 2; 0];
     [1; 0; sqrt 2; - sqrt 2; 0]]%R.
Proof.
  intros self H. injection H as <-.
  cbv [call num_levels _num_levels range Z.to_nat Pos.to_nat Pos.iter_op
       Z.div Z.div_eucl Z.pos_div_eucl Z.add Z.leb Z.compare Pos.compare
       Pos.compare_cont Z.ltb Z.mul Pos.mul Z.sub Z.opp Z.pos_sub Z.succ_double
       Z.pred_double Z.double Pos.pred_double Pos.add Pos.succ Init.Nat.add
       seq map flat_map app Z.of_nat Pos.of_succ_nat Z.eqb fst snd
       cartesian_to_polar ones_like scale pointwise concat_axis1 fold_left
       zip_with].
  rewrite atan2_east, atan2_north.
  replace (Rpower 2 (1 / 2)) with (sqrt 2)
    by (symmetry; rewrite <- Rpower_sqrt by lra; f_equal; lra).
  replace (1 * 1 * 0)%R with 0%R by lra.
  replace (1 * 2 * 0)%R with 0%R by lra.
  replace (1 * 1 * (PI / 2))%R with (PI / 2)%R by lra.
  replace (1 * 2 * (PI / 2))%R with PI by lra.
  rewrite cos_0, sin_0, cos_PI2, sin_PI2, cos_PI, sin_PI.
  repeat (f_equal; try lra).
Qed.

(** The diagonal of a tensor built as an outer product over one list. *)
Lemma diagonal_outer {A : Type} (F : A -> A -> list R) (l : list A) :
  diagonal (map (fun t => map (F t) l) l) = map (fun t => F t t) l.
Proof.
  apply list_eq. intros i. unfold diagonal.
  rewrite list_lookup_imap.
  change (map (fun t => F t t) l) with ((fun t => F t t) <$> l).
  change (map (fun t => map (F t) l) l) with ((fun t => F t <$> l) <$> l).
  rewrite !list_lookup_fmap.
  destruct (l !! i) as [t|] eqn:Hi; [|reflexivity].
  change (Some (default [] ((F t <$> l) !! i)) = Some (F t t)).
  rewrite list_lookup_fmap, Hi. reflexivity.
Qed.

(** Weighting cosines of a zero angle leaves the weights. *)
Lemma weights_times_cos_zero (w : Z -> Z) (r : list Z) (a : R) :
  zip_with Rmult (map IZR (map w r))
           (map (fun f => cos (f * (a - a))) (map IZR r))
  = map IZR (map w r).
Proof.
  induction r as [|l r IH]; [reflexivity|].
  cbn [map zip_with]. rewrite IH. f_equal.
  replace (IZR l * (a - a))%R with 0%R by lra. rewrite cos_0. lra.
Qed.

(** Weighting a row of ones leaves the weights. *)
Lemma ones_times_weights (w : list R) :
  zip_with Rmult (repeat 1%R (length w)) w = w.
Proof.
  induction w as [|x w IH]; [reflexivity|].
  cbn [length repeat zip_with]. rewrite IH. f_equal. lra.
Qed.

Lemma map_const_repeat {A B : Type} (b : B) (l : list A) :
  map (fun _ => b) l = repeat b (length l).
Proof. induction l as [|x l IH]; [reflexivity|]. cbn. now rewrite IH. Qed.

Lemma per_level_length (self : SinCosEigenfunctions) :
  length (num_eigenfunctions_per_level self) = Z.to_nat (num_levels self).
Proof.
  unfold num_eigenfunctions_per_level, range.
  now rewrite !length_map, length_seq.
Qed.

(** The diagonal closed form: every row is the vector of per-level counts. *)
Lemma addition_theorem_diag_rows (self : SinCosEigenfunctions)
    (X : list (R * R)) :
  _addition_theorem_diag self X
  = map (fun _ => map IZR (num_eigenfunctions_per_level self)) X.
Proof.
  unfold _addition_theorem_diag, ones.
  rewrite map_const_repeat.
  induction (length X) as [|n IH]; [reflexivity|].
  cbn [repeat map]. rewrite IH. f_equal.
  rewrite <- per_level_length, <- (length_map IZR).
  apply ones_times_weights.
Qed.

(** C6. For every point set [X], the diagonal [[i, i, :]] of
    [_addition_theorem(X, X)] equals [_addition_theorem_diag(X)]: at every
    point both give, level by level, the number of eigenfunctions of the
    level, which is [1] for level [0] and [2] for every other level. *)
Theorem addition_theorem_diag_consistent
    (self : SinCosEigenfunctions) (X : list (R * R)) :
  diagonal (_addition_theorem self X X) = _addition_theorem_diag self X /\
  _addition_theorem_diag self X
  = map (fun _ => map IZR (num_eigenfunctions_per_level self)) X /\
  num_eigenfunctions_per_level self
  = take (Z.to_nat (num_levels self))
         (1%Z :: repeat 2%Z (Z.to_nat (num_levels self))).
Proof.
  split; [|split].
  - rewrite addition_theorem_diag_rows.
    unfold _addition_theorem, cartesian_to_polar.
    rewrite !map_map.
    rewrite (map_ext _
      (fun x => map
         (fun x2 => zip_with Rmult
            (map IZR (num_eigenfunctions_per_level self))
            (flat_map
               (fun dt => map (fun f => cos (f * dt))
                            (map IZR (range (num_levels self))))
               (zip_with Rminus [atan2 (snd x) (fst x)]
                                [atan2 (snd x2) (fst x2)])))
         X)).
    2:{ intros x. now rewrite !map_map. }
    rewrite (diagonal_outer
      (fun x x2 => zip_with Rmult
         (map IZR (num_eigenfunctions_per_level self))
         (flat_map
            (fun dt => map (fun f => cos (f * dt))
                         (map IZR (range (num_levels self))))
            (zip_with Rminus [atan2 (snd x) (fst x)]
                             [atan2 (snd x2) (fst x2)])))).
    apply map_ext. intros x.
    cbn [zip_with flat_map]. rewrite app_nil_r.
    apply weights_times_cos_zero.
  - apply addition_theorem_diag_rows.
  - apply per_level_shape.
Qed.

End CircleFacts.

(** ** The row normalisation of the random-phase feature map *)

Section FeatureMapFacts.

Import Tensor FeatureMaps.
Local Open Scope R_scope.

Lemma sum_squares_nonneg (row : list R) :
  0 <= sum (map (fun x => x ^ 2) row).
Proof.
  induction row as [|x row IH]; cbn [map sum fold_right]; [lra|].
  fold (sum (map (fun x => x ^ 2) row)). nra.
Qed.

Lemma sum_squares_zero (row : list R) :
  sum (map (fun x => x ^ 2) row) = 0 <-> Forall (fun x => x = 0) row.
Proof.
  induction row as [|x row IH]; cbn [map sum fold_right].
  - split; [constructor | reflexivity].
  - fold (sum (map (fun x => x ^ 2) row)).
    pose proof (sum_squares_nonneg row) as Hs.
    split.
    + intros H. constructor; [nra | apply IH; nra].
    + intros H. inversion H as [|? ? Hx Hrow]; subst.
      apply IH in Hrow. rewrite Hrow. lra.
Qed.

(** C2, as the code has it.  The normaliser of a row is the square root of
    the sum of its squared entries, with no floor and no other guard, and
    the row is divided by it entry by entry.  For a row whose entries are
    all zero the normaliser is zero: the division is by zero. *)
Theorem normalizer_without_floor (out : matrix) (i : nat) (row : list R) :
  out !! i = Some row ->
  exists d,
    normalizer out !! i = Some [d] /\
    d = sqrt (sum (map (fun x => x ^ 2) row)) /\
    (Forall (fun x => x = 0) row -> d = 0) /\
    divide out (normalizer out) !! i = Some (map (fun x => x / d) row).
Proof.
  intros Hi. exists (sqrt (sum (map (fun x => x ^ 2) row))).
  assert (Hn : normalizer out !! i
               = Some [sqrt (sum (map (fun x => x ^ 2) row))]).
  { unfold normalizer. rewrite lookup_map, Hi. reflexivity. }
  split; [exact Hn|]. split; [reflexivity|]. split.
  - intros Hz. apply sum_squares_zero in Hz. rewrite Hz. apply sqrt_0.
  - unfold divide. rewrite lookup_zip_with, Hi. cbn [mbind option_bind].
    rewrite Hn. cbn [mbind option_bind flat_map]. now rewrite app_nil_r.
Qed.

Lemma normalizer_without_floor_witness :
  exists d,
    normalizer [[0; 0]] !! 0%nat = Some [d] /\
    d = sqrt (sum (map (fun x => x ^ 2) [0; 0])) /\
    (Forall (fun x => x = 0) [0; 0] -> d = 0) /\
    divide [[0; 0]] (normalizer [[0; 0]]) !! 0%nat
    = Some (map (fun x => x / d) [0; 0]).
Proof.
  apply (normalizer_without_floor [[0; 0]] 0 [0; 0]). reflexivity.
Defined.

(** On [flat_space] with the frequency [0] sampled, the only row of [out] is
    zero and so is its normaliser: [_map] computes [0 / 0] twice. *)
Lemma flat_space_normalizer :
  normalizer (fst (sampled_features unit unit unit unit zero_frequency_sample
                     flat_space 1 [tt] tt tt))
  = [[0]] /\
  fst (_map unit unit unit unit zero_frequency_sample flat_space 1 [tt] tt tt)
  = [[0 / 0; 0 / 0]].
Proof.
  cbv [_map sampled_features flat_space zero_frequency_sample random_phases
       dimension power_function inv_harish_chandra power_matrix unnormalized
       normalizer divide repeat map flat_map zip_with app fst snd sum
       fold_right].
  rewrite Rabs_R0.
  replace (1 * 0) with 0 by lra. replace (0 * 0) with 0 by lra.
  replace (0 ^ 2 + (0 ^ 2 + 0)) with 0 by lra.
  rewrite sqrt_0. split; reflexivity.
Qed.

(** C2, as the specification has it, fails: on [flat_space] with the
    frequency [0] sampled the denominator of the division is [0], so no
    positive floor bounds the denominators from below. *)
Lemma normalizer_floor_counterexample :
  normalizer (fst (sampled_features unit unit unit unit zero_frequency_sample
                     flat_space 1 [tt] tt tt))
  = [[0]] /\
  ~ (exists floor : R,
       0 < floor /\
       forall (space : NoncompactSymmetricSpace unit unit unit)
              (sample : unit -> nat -> unit -> Z -> unit * list R)
              (num : nat) (X : list unit),
         Forall (Forall (fun d => floor <= d))
                (normalizer (fst (sampled_features unit unit unit unit sample
                                    space num X tt tt)))).
Proof.
  split; [apply flat_space_normalizer|].
  intros (floor & Hpos & Hall).
  specialize (Hall flat_space zero_frequency_sample 1%nat [tt]).
  rewrite (proj1 flat_space_normalizer) in Hall.
  inversion Hall as [|? ? Hrow _]; subst.
  inversion Hrow as [|? ? Hd _]; subst. lra.
Qed.

End FeatureMapFacts.

(** ** Array primitives *)

Section LabExtrasFacts.

Import LabExtras.

Variable T : Type.
Variable zero : T.
Variable cast : R -> result T.

(** C4. For a sparse [L], [eigenpairs] hands the solver a dense array if and
    only if [k] equals [L.shape[0]], and then it is [L.toarray()]; for every
    other [k], in particular every [k] below the dimension, the solver
    receives [L] itself. *)
Theorem eigenpairs_densifies_iff (L : array T) (k : Z) :
  issparse T L = true ->
  (issparse T (solver_input T (eigenpairs T zero L k)) = false
   <-> k = Z.of_nat (shape0 T L)) /\
  (k = Z.of_nat (shape0 T L) ->
   eigenpairs T zero L k = eigsh (toarray T zero L) k (1e-8)%R) /\
  ((k < Z.of_nat (shape0 T L))%Z ->
   eigenpairs T zero L k = eigsh L k (1e-8)%R) /\
  (k <> Z.of_nat (shape0 T L) ->
   eigenpairs T zero L k = eigsh L k (1e-8)%R).
Proof.
  intros Hs. unfold eigenpairs. rewrite Hs. cbn [andb].
  destruct (Z.eqb_spec k (Z.of_nat (shape0 T L))) as [Heq|Hne].
  - repeat split; try (intros; lia); try reflexivity.
    destruct L; try discriminate. reflexivity.
  - repeat split; try (intros; reflexivity); try (intros; lia).
    cbn [solver_input]. rewrite Hs. discriminate.
Qed.

(** A dense input always reaches the solver as it is. *)
Lemma eigenpairs_dense (L : array T) (k : Z) :
  issparse T L = false -> eigenpairs T zero L k = eigsh L k (1e-8)%R.
Proof. intros H. unfold eigenpairs. now rewrite H. Qed.

Lemma normalize_index_in_range (n : nat) (index : Z) :
  (- Z.of_nat n <= index < Z.of_nat n)%Z ->
  normalize_index n index = Some (Z.to_nat (index mod Z.of_nat n)).
Proof.
  intros H. unfold normalize_index.
  destruct (Z.leb_spec 0 index) as [H0|H0];
    destruct (Z.ltb_spec index (Z.of_nat n)) as [H1|H1]; cbn [andb]; try lia.
  - now rewrite Z.mod_small by lia.
  - destruct (Z.leb_spec (- Z.of_nat n) index) as [H2|H2];
      destruct (Z.ltb_spec index 0) as [H3|H3]; cbn [andb]; try lia.
    f_equal. f_equal.
    rewrite <- (Z.mod_add index 1 (Z.of_nat n)) by lia.
    rewrite Z.mod_small by lia. lia.
Qed.

Lemma normalize_index_out_of_range (n : nat) (index : Z) :
  ~ (- Z.of_nat n <= index < Z.of_nat n)%Z ->
  normalize_index n index = None.
Proof.
  intros H. unfold normalize_index.
  destruct (Z.leb_spec 0 index); destruct (Z.ltb_spec index (Z.of_nat n));
    destruct (Z.leb_spec (- Z.of_nat n) index); destruct (Z.ltb_spec index 0);
    cbn [andb]; try reflexivity; lia.
Qed.

Lemma normalize_index_bound (n : nat) (index : Z) (i : nat) :
  normalize_index n index = Some i -> (i < n)%nat.
Proof.
  unfold normalize_index.
  destruct (Z.leb_spec 0 index); destruct (Z.ltb_spec index (Z.of_nat n));
    destruct (Z.leb_spec (- Z.of_nat n) index); destruct (Z.ltb_spec index 0);
    cbn [andb]; intros [= <-]; lia.
Qed.

(** The stored entries after a row has been filled. *)
Lemma fill_row_lookup (i : nat) (value : T) (ncols : nat)
    (stored : gmap (nat * nat) T) (i' j : nat) :
  fill_row T i value ncols stored !! (i', j)
  = if decide (i' = i /\ (j < ncols)%nat) then Some value
    else stored !! (i', j).
Proof.
  unfold fill_row.
  assert (Hgen : forall start,
    fold_right (fun j m => <[(i, j) := value]> m) stored (seq start ncols)
      !! (i', j)
    = if decide (i' = i /\ (start <= j < start + ncols)%nat) then Some value
      else stored !! (i', j)).
  { induction ncols as [|n IH]; intros start; cbn [seq fold_right].
    - destruct (decide (i' = i /\ (start <= j < start + 0)%nat)) as [H|H];
        [lia | reflexivity].
    - rewrite lookup_insert, IH.
      destruct (decide ((i, start) = (i', j))) as [Heq|Hne];
        destruct (decide (i' = i /\ (start <= j < start + S n)%nat))
          as [H1|H1];
        destruct (decide (i' = i /\ (S start <= j < S start + n)%nat))
          as [H2|H2];
        try reflexivity; exfalso.
      + injection Heq as Hi Hj. apply H1. lia.
      + injection Heq as Hi Hj. apply H1. lia.
      + destruct H1 as [-> H1]. apply H2. split; [reflexivity|].
        assert (j <> start) by (intros ->; now apply Hne). lia.
      + apply H1. lia. }
  rewrite Hgen.
  destruct (decide (i' = i /\ (0 <= j < 0 + ncols)%nat)) as [H1|H1];
    destruct (decide (i' = i /\ (j < ncols)%nat)) as [H2|H2];
    try reflexivity; exfalso; [apply H2 | apply H1]; lia.
Qed.

Lemma sparse_row_length (ncols : nat) (stored : gmap (nat * nat) T) (i : nat) :
  length (sparse_row T zero ncols stored i) = ncols.
Proof. unfold sparse_row. now rewrite length_map, length_seq. Qed.

Lemma sparse_row_filled (i : nat) (value : T) (ncols : nat)
    (stored : gmap (nat * nat) T) :
  sparse_row T zero ncols (fill_row T i value ncols stored) i
  = map (fun _ => value) (sparse_row T zero ncols stored i).
Proof.
  unfold sparse_row. rewrite map_map. apply map_ext_in.
  intros j Hj. apply in_seq in Hj. rewrite fill_row_lookup.
  destruct (decide _) as [_|H]; [reflexivity|]. exfalso. apply H. lia.
Qed.

Lemma sparse_row_other (i i' : nat) (value : T) (ncols : nat)
    (stored : gmap (nat * nat) T) :
  i' <> i ->
  sparse_row T zero ncols (fill_row T i value ncols stored) i'
  = sparse_row T zero ncols stored i'.
Proof.
  intros Hne. unfold sparse_row. apply map_ext. intros j.
  rewrite fill_row_lookup.
  destruct (decide _) as [[H _]|_]; [contradiction | reflexivity].
Qed.

(** What [a[index] = value] does to the contents of an array, for an index
    in range and a value the dtype can hold. *)
Lemma assign_in_range (a : array T) (index : Z) (value : R) (v : T) :
  assignable T a = true ->
  (- Z.of_nat (shape0 T a) <= index < Z.of_nat (shape0 T a))%Z ->
  cast value = Return v ->
  exists a',
    assign T cast a index value = Return a' /\
    shape0 T a' = shape0 T a /\
    issparse T a' = issparse T a /\
    item T zero a' (Z.to_nat (index mod Z.of_nat (shape0 T a)))
    = map (fun _ => v)
        <$> item T zero a (Z.to_nat (index mod Z.of_nat (shape0 T a))) /\
    (forall i, i <> Z.to_nat (index mod Z.of_nat (shape0 T a)) ->
               item T zero a' i = item T zero a i).
Proof.
  intros Ha Hr Hv. unfold Return in Hv.
  pose proof (normalize_index_in_range _ _ Hr) as Hn.
  pose proof (normalize_index_bound _ _ _ Hn) as Hb.
  set (p := Z.to_nat (index mod Z.of_nat (shape0 T a))) in *.
  destruct a as [data | rows | fmt nrows ncols stored];
    cbn [assign shape0 assignable] in *.
  - rewrite Hn, Hv. eexists. split; [reflexivity|].
    cbn [shape0 issparse item]. repeat split.
    + apply length_insert.
    + rewrite list_lookup_insert_eq by exact Hb.
      destruct (lookup_lt_is_Some_2 data p Hb) as [x ->]. reflexivity.
    + intros i Hi. now rewrite list_lookup_insert_ne by congruence.
  - rewrite Hn, Hv. eexists. split; [reflexivity|].
    cbn [shape0 issparse item]. repeat split.
    + apply length_alter.
    + apply list_lookup_alter_eq.
    + intros i Hi. now rewrite list_lookup_alter_ne by congruence.
  - rewrite Ha, Hn, Hv. eexists. split; [reflexivity|].
    cbn [shape0 issparse item]. repeat split.
    + destruct (decide (p < nrows)%nat) as [_|H]; [|contradiction].
      cbn. now rewrite sparse_row_filled.
    + intros i Hi. destruct (decide (i < nrows)%nat); [|reflexivity].
      now rewrite sparse_row_other.
Qed.

(** The same for a value the dtype cannot hold. *)
Lemma assign_cast_fails (a : array T) (index : Z) (value : R) (e : exn) :
  assignable T a = true ->
  (- Z.of_nat (shape0 T a) <= index < Z.of_nat (shape0 T a))%Z ->
  cast value = Raise e ->
  assign T cast a index value = Raise e.
Proof.
  intros Ha Hr He. unfold Raise in He.
  pose proof (normalize_index_in_range _ _ Hr) as Hn.
  destruct a; cbn [assign shape0 assignable] in *;
    rewrite ?Ha, Hn, He; reflexivity.
Qed.

Lemma assign_out_of_range (a : array T) (index : Z) (value : R) :
  assignable T a = true ->
  ~ (- Z.of_nat (shape0 T a) <= index < Z.of_nat (shape0 T a))%Z ->
  assign T cast a index value = Raise IndexError.
Proof.
  intros Ha Hr. pose proof (normalize_index_out_of_range _ _ Hr) as Hn.
  destruct a; cbn [assign shape0 assignable] in *; rewrite ?Ha, Hn; reflexivity.
Qed.

(** The copy made by [set_value] is a new object next to the old ones. *)
Lemma copy_fresh (h : gmap positive (array T)) (a : positive)
    (contents : array T) :
  h !! a = Some contents ->
  copy T a h = (Return (fresh (dom h)), <[fresh (dom h) := contents]> h) /\
  h !! fresh (dom h) = None /\
  fresh (dom h) <> a.
Proof.
  intros Ha. unfold copy. rewrite Ha.
  assert (Hf : h !! fresh (dom h) = None)
    by (apply not_elem_of_dom, is_fresh).
  repeat split; [exact Hf | congruence].
Qed.

(** When the assignment on the copy raises, so does [set_value], and the
    array [a] is as it was. *)
Lemma set_value_raises (h : gmap positive (array T)) (a : positive)
    (contents : array T) (index : Z) (value : R) (e : exn) :
  h !! a = Some contents ->
  assign T cast contents index value = Raise e ->
  exists h',
    set_value T cast a index value h = (Raise e, h') /\
    h' !! a = Some contents.
Proof.
  intros Ha He.
  destruct (copy_fresh h a contents Ha) as (Hcopy & Hnew & Hne).
  exists (<[fresh (dom h) := contents]> h). split.
  - unfold set_value. rewrite Hcopy. unfold Return.
    unfold setitem. rewrite lookup_insert_eq. rewrite He. reflexivity.
  - rewrite lookup_insert_ne by exact Hne. exact Ha.
Qed.

(** C5, as the code has it.  On an array that supports item assignment, for
    an index within [[-n, n)], [n = a.shape[0]], and a float that the dtype
    of the array converts to [v], [set_value] returns a reference to a new
    object; the heap is the old heap extended with that object, so [a] and
    every other array are unchanged; the new array has the shape of [a],
    holds [v], the converted value, at position [index] (counted from the
    end when negative) and agrees with [a] everywhere else.  When the
    conversion raises, or the index is outside the range, the call raises
    (the exception of the conversion, respectively [IndexError]) and [a] is
    unchanged as well. *)
Theorem set_value_functional (h : gmap positive (array T)) (a : positive)
    (contents : array T) (index : Z) (value : R) :
  h !! a = Some contents ->
  assignable T contents = true ->
  ((- Z.of_nat (shape0 T contents) <= index < Z.of_nat (shape0 T contents))%Z ->
   forall v, cast value = Return v ->
   exists a' contents',
     set_value T cast a index value h = (Return a', <[a' := contents']> h) /\
     h !! a' = None /\
     <[a' := contents']> h !! a = Some contents /\
     shape0 T contents' = shape0 T contents /\
     item T zero contents'
       (Z.to_nat (index mod Z.of_nat (shape0 T contents)))
     = map (fun _ => v)
         <$> item T zero contents
               (Z.to_nat (index mod Z.of_nat (shape0 T contents))) /\
     (forall i, i <> Z.to_nat (index mod Z.of_nat (shape0 T contents)) ->
                item T zero contents' i = item T zero contents i)) /\
  ((- Z.of_nat (shape0 T contents) <= index < Z.of_nat (shape0 T contents))%Z ->
   forall e, cast value = Raise e ->
   exists h',
     set_value T cast a index value h = (Raise e, h') /\
     h' !! a = Some contents) /\
  (~ (- Z.of_nat (shape0 T contents) <= index < Z.of_nat (shape0 T contents))%Z ->
   forall v, cast value = Return v ->
   exists h',
     set_value T cast a index value h = (Raise IndexError, h') /\
     h' !! a = Some contents).
Proof.
  intros Ha Hok.
  destruct (copy_fresh h a contents Ha) as (Hcopy & Hnew & Hne).
  split; [|split].
  - intros Hr v Hv.
    destruct (assign_in_range contents index value v Hok Hr Hv)
      as (contents' & Has & Hshape & _ & Hat & Hother).
    exists (fresh (dom h)), contents'.
    split; [|repeat split; try assumption].
    + unfold set_value. rewrite Hcopy. unfold Return.
      unfold setitem. rewrite lookup_insert_eq.
      unfold Return in Has. rewrite Has. now rewrite insert_insert_eq.
    + rewrite lookup_insert_ne by exact Hne. exact Ha.
  - intros Hr e He. apply set_value_raises; [exact Ha|].
    now apply assign_cast_fails.
  - intros Hr v _. apply set_value_raises; [exact Ha|].
    now apply assign_out_of_range.
Qed.

End LabExtrasFacts.

Lemma eigenpairs_densifies_iff_witness :
  LabExtras.eigenpairs Z 0%Z
    (LabExtras.Sparse LabExtras.csr_matrix 2 2
       {[ (0%nat, 0%nat) := 2%Z; (1%nat, 1%nat) := 3%Z ]}) 2
  = LabExtras.eigsh
      (LabExtras.toarray Z 0%Z
         (LabExtras.Sparse LabExtras.csr_matrix 2 2
            {[ (0%nat, 0%nat) := 2%Z; (1%nat, 1%nat) := 3%Z ]})) 2 (1e-8)%R /\
  LabExtras.eigenpairs Z 0%Z
    (LabExtras.Sparse LabExtras.csr_matrix 2 2
       {[ (0%nat, 0%nat) := 2%Z; (1%nat, 1%nat) := 3%Z ]}) 1
  = LabExtras.eigsh
      (LabExtras.Sparse LabExtras.csr_matrix 2 2
         {[ (0%nat, 0%nat) := 2%Z; (1%nat, 1%nat) := 3%Z ]}) 1 (1e-8)%R.
Proof.
  split.
  - apply (proj1 (proj2 (eigenpairs_densifies_iff Z 0%Z
             (LabExtras.Sparse LabExtras.csr_matrix 2 2
                {[ (0%nat, 0%nat) := 2%Z; (1%nat, 1%nat) := 3%Z ]})
             2 eq_refl))).
    reflexivity.
  - apply (proj1 (proj2 (proj2 (eigenpairs_densifies_iff Z 0%Z
             (LabExtras.Sparse LabExtras.csr_matrix 2 2
                {[ (0%nat, 0%nat) := 2%Z; (1%nat, 1%nat) := 3%Z ]})
             1 eq_refl)))).
    simpl. lia.
Defined.

(** The dense form of a diagonal sparse matrix. *)
Example toarray_diagonal :
  LabExtras.toarray Z 0%Z
    (LabExtras.Sparse LabExtras.csr_matrix 2 2
       {[ (0%nat, 0%nat) := 2%Z; (1%nat, 1%nat) := 3%Z ]})
  = LabExtras.Dense [[2; 0]; [0; 3]]%Z.
Proof. vm_compute. reflexivity. Qed.

Lemma set_value_functional_witness :
  (exists a' contents',
     LabExtras.set_value R LabExtras.float64_cast 1%positive (-1) 9%R
       {[ 1%positive := LabExtras.Vector [1; 2; 3]%R ]}
     = (Return a',
        <[a' := contents']> {[ 1%positive := LabExtras.Vector [1; 2; 3]%R ]}) /\
     ({[ 1%positive := LabExtras.Vector [1; 2; 3]%R ]}
        : gmap positive (LabExtras.array R)) !! a' = None /\
     <[a' := contents']>
       ({[ 1%positive := LabExtras.Vector [1; 2; 3]%R ]}
          : gmap positive (LabExtras.array R))
       !! 1%positive = Some (LabExtras.Vector [1; 2; 3]%R) /\
     LabExtras.shape0 R contents' = 3%nat /\
     LabExtras.item R 0%R contents' 2 = Some [9%R] /\
     (forall i, i <> 2%nat ->
        LabExtras.item R 0%R contents' i
        = LabExtras.item R 0%R (LabExtras.Vector [1; 2; 3]%R) i)) /\
  (exists h',
     LabExtras.set_value R LabExtras.float64_cast 1%positive 3 9%R
       {[ 1%positive := LabExtras.Vector [1; 2; 3]%R ]}
     = (Raise IndexError, h') /\
     h' !! 1%positive = Some (LabExtras.Vector [1; 2; 3]%R)).
Proof.
  split.
  - refine (proj1 (set_value_functional R 0%R LabExtras.float64_cast
                     {[ 1%positive := LabExtras.Vector [1; 2; 3]%R ]}
                     1%positive (LabExtras.Vector [1; 2; 3]%R) (-1) 9%R
                     _ _) _ 9%R _).
    + vm_compute. reflexivity.
    + reflexivity.
    + simpl. lia.
    + reflexivity.
  - refine (proj2 (proj2 (set_value_functional R 0%R LabExtras.float64_cast
                     {[ 1%positive := LabExtras.Vector [1; 2; 3]%R ]}
                     1%positive (LabExtras.Vector [1; 2; 3]%R) 3 9%R
                     _ _)) _ 9%R _).
    + vm_compute. reflexivity.
    + reflexivity.
    + simpl. lia.
    + reflexivity.
Defined.

(** The truncation of [9.5] is [9]. *)
Lemma truncate_nine_and_a_half : LabExtras.truncate 9.5%R = 9%Z.
Proof.
  unfold LabExtras.truncate.
  destruct (Rle_dec 0 9.5) as [_|H]; [|exfalso; apply H; lra].
  unfold Int_part.
  rewrite <- (tech_up 9.5 10); [reflexivity | lra | lra].
Qed.

(** What [set_value] evaluates to on a one-object heap. *)
Lemma set_value_singleton (T : Type) (cast : R -> result T)
    (contents : LabExtras.array T) (index : Z) (value : R) :
  LabExtras.set_value T cast 1%positive index value {[ 1%positive := contents ]}
  = match LabExtras.assign T cast contents index value with
    | inr contents' =>
        (Return (fresh (dom ({[ 1%positive := contents ]}
                               : gmap positive (LabExtras.array T)))),
         <[fresh (dom ({[ 1%positive := contents ]}
                         : gmap positive (LabExtras.array T))) := contents']>
           (<[fresh (dom ({[ 1%positive := contents ]}
                            : gmap positive (LabExtras.array T))) := contents]>
              {[ 1%positive := contents ]}))
    | inl e =>
        (Raise e,
         <[fresh (dom ({[ 1%positive := contents ]}
                         : gmap positive (LabExtras.array T))) := contents]>
           {[ 1%positive := contents ]})
    end.
Proof.
  unfold LabExtras.set_value.
  destruct (copy_fresh T {[ 1%positive := contents ]} 1%positive contents
              (lookup_singleton_eq _ _)) as (-> & _ & _).
  unfold Return, LabExtras.setitem. rewrite lookup_insert_eq.
  destruct (LabExtras.assign T cast contents index value); reflexivity.
Qed.

(** C5, as the specification has it, fails in each of its three
    generalities, at an index within the range for the first two.  Not
    every array: on a sparse matrix in [coo] format [set_value] returns no
    array, it raises [TypeError].  Not every value: in an array of integers
    the entry at the index is [9] after [9.5] has been stored, not [9.5].
    Not every index: at index [2] of a two-element vector no array is
    returned, [IndexError] is raised. *)
Lemma set_value_counterexample :
  (fst (LabExtras.set_value R LabExtras.float64_cast 1%positive 0 7%R
          {[ 1%positive := LabExtras.Sparse LabExtras.coo_matrix 2 2 ∅ ]})
   = Raise TypeError /\
   ~ (exists a' h',
        LabExtras.set_value R LabExtras.float64_cast 1%positive 0 7%R
          {[ 1%positive := LabExtras.Sparse LabExtras.coo_matrix 2 2 ∅ ]}
        = (Return a', h'))) /\
  (exists a' h' contents',
     LabExtras.set_value Z LabExtras.integer_cast 1%positive 0 9.5%R
       {[ 1%positive := LabExtras.Vector [1; 2]%Z ]}
     = (Return a', h') /\
     h' !! a' = Some contents' /\
     LabExtras.item Z 0%Z contents' 0 = Some [9%Z] /\
     IZR 9 <> 9.5%R) /\
  (fst (LabExtras.set_value R LabExtras.float64_cast 1%positive 2 7%R
          {[ 1%positive := LabExtras.Vector [1; 2]%R ]})
   = Raise IndexError /\
   ~ (exists a' h',
        LabExtras.set_value R LabExtras.float64_cast 1%positive 2 7%R
          {[ 1%positive := LabExtras.Vector [1; 2]%R ]}
        = (Return a', h'))).
Proof.
  split; [|split].
  - rewrite set_value_singleton. cbn. split; [reflexivity|].
    intros (a' & h' & Heq). discriminate.
  - rewrite set_value_singleton.
    cbn [LabExtras.assign LabExtras.normalize_index length].
    cbn. unfold LabExtras.integer_cast. rewrite truncate_nine_and_a_half.
    cbn. eexists. eexists. eexists. split; [reflexivity|].
    split; [apply lookup_insert_eq|]. split; [reflexivity | lra].
  - rewrite set_value_singleton. cbn. split; [reflexivity|].
    intros (a' & h' & Heq). discriminate.
Qed.

(** A sparse matrix in [bsr] format has an item assignment that raises
    [NotImplementedError], whatever the index. *)
Example set_value_bsr :
  fst (LabExtras.set_value R LabExtras.float64_cast 1%positive 0 7%R
         {[ 1%positive := LabExtras.Sparse LabExtras.bsr_matrix 2 2 ∅ ]})
  = Raise NotImplementedError.
Proof. rewrite set_value_singleton. reflexivity. Qed.

(** ** Random-state utilities *)

Section UtilsFacts.

Import Utils.

Variables rstate data res : Type.

Lemma index_Some_iff (x : string) (l : list string) :
  x ∈ l <-> exists i, index x l = Some i.
Proof.
  induction l as [|y l IH]; cbn [index].
  - split; [intros H; inversion H | intros [i H]; discriminate].
  - destruct (String.eqb_spec x y) as [->|Hne].
    + split; [eauto | intros _; constructor].
    + split.
      * intros H. inversion H as [|? ? ? H']; subst; [contradiction|].
        apply IH in H' as [i ->]. cbn. eauto.
      * intros [i H]. constructor. apply IH.
        destruct (index x l); [eauto | discriminate].
Qed.

(** A function has a key argument type exactly when ['key'] is one of its
    positional or keyword-only argument names. *)
Lemma find_key_argtype_Some (f : function rstate data res) :
  "key"%string ∈ args (getfullargspec rstate data res f) \/
  "key"%string ∈ kwonlyargs (getfullargspec rstate data res f) ->
  exists t, find_key_argtype rstate data res f = Some t.
Proof.
  intros [H|H]; unfold find_key_argtype.
  - apply index_Some_iff in H as [i ->]. eauto.
  - destruct (index _ _); [eauto|].
    rewrite bool_decide_eq_true_2 by exact H. eauto.
Qed.

Lemma find_key_argtype_None (f : function rstate data res) :
  "key"%string ∉ args (getfullargspec rstate data res f) ->
  "key"%string ∉ kwonlyargs (getfullargspec rstate data res f) ->
  find_key_argtype rstate data res f = None.
Proof.
  intros Ha Hk. unfold find_key_argtype.
  destruct (index _ _) as [i|] eqn:Hi.
  - exfalso. apply Ha. apply index_Some_iff. eauto.
  - now rewrite bool_decide_eq_false_2 by exact Hk.
Qed.

(** C9. If [f] has a positional or keyword-only argument named ['key'],
    [make_deterministic(f, key)] returns, without touching the generator, a
    function every invocation of which runs [f] from the random state the
    generator had at wrapping time: its outcome does not depend on the
    state it is invoked in, and a second invocation with the same
    arguments, run after the first, returns the same result.  If [f] has no
    such argument, [f] itself is returned. *)
Theorem make_deterministic_two_runs
    (f : function rstate data res) (key : value data) (s0 : rstate) :
  ("key"%string ∈ args (getfullargspec rstate data res f) \/
   "key"%string ∈ kwonlyargs (getfullargspec rstate data res f) ->
   exists g,
     make_deterministic rstate data res f key s0 = (g, s0) /\
     (forall a kw s, exists a' kw',
         apply rstate data res g a kw s = apply rstate data res f a' kw' s0 /\
         (key ∈ a' \/ kw' !! "key"%string = Some key)) /\
     (forall a kw s1 s2,
         apply rstate data res g a kw s1 = apply rstate data res g a kw s2) /\
     (forall a kw s,
         fst (apply rstate data res g a kw
                (snd (apply rstate data res g a kw s)))
         = fst (apply rstate data res g a kw s))) /\
  ("key"%string ∉ args (getfullargspec rstate data res f) ->
   "key"%string ∉ kwonlyargs (getfullargspec rstate data res f) ->
   make_deterministic rstate data res f key s0 = (f, s0)).
Proof.
  split.
  - intros Hkey. destruct (find_key_argtype_Some f Hkey) as [t Ht].
    exists (deterministic_f rstate data res f key s0 t).
    split; [unfold make_deterministic; now rewrite Ht|].
    split; [|split].
    + intros a kw s. destruct t as [p|]; cbn.
      * exists (take p a ++ [key] ++ drop p a), kw. split; [reflexivity|].
        left. rewrite !elem_of_app. right. left. constructor.
      * exists a, (<["key"%string := key]> kw). split; [reflexivity|].
        right. apply lookup_insert_eq.
    + intros a kw s1 s2. destruct t; reflexivity.
    + intros a kw s. destruct t; reflexivity.
  - intros Ha Hk. unfold make_deterministic.
    now rewrite (find_key_argtype_None f Ha Hk).
Qed.

End UtilsFacts.

Lemma make_deterministic_two_runs_witness :
  (exists g,
     Utils.make_deterministic nat unit nat Utils.draw Utils.Key 7%nat
     = (g, 7%nat) /\
     (forall a kw s, exists a' kw',
         Utils.apply nat unit nat g a kw s
         = Utils.apply nat unit nat Utils.draw a' kw' 7%nat /\
         (Utils.Key ∈ a' \/ kw' !! "key"%string = Some Utils.Key)) /\
     (forall a kw s1 s2,
         Utils.apply nat unit nat g a kw s1 = Utils.apply nat unit nat g a kw s2) /\
     (forall a kw s,
         fst (Utils.apply nat unit nat g a kw
                (snd (Utils.apply nat unit nat g a kw s)))
         = fst (Utils.apply nat unit nat g a kw s))) /\
  Utils.make_deterministic nat unit nat Utils.constant Utils.Key 7%nat
  = (Utils.constant, 7%nat).
Proof.
  split.
  - apply (proj1 (make_deterministic_two_runs nat unit nat Utils.draw
                    Utils.Key 7%nat)).
    left. simpl. right. left.
  - apply (proj2 (make_deterministic_two_runs nat unit nat Utils.constant
                    Utils.Key 7%nat)); simpl.
    + refine (bool_decide_unpack _ _). vm_compute. exact I.
    + refine (bool_decide_unpack _ _). vm_compute. exact I.
Defined.

(** Without the wrapper two successive calls with the same key draw
    different samples; with it they draw the same one. *)
Example draw_twice :
  fst (Utils.apply nat unit nat Utils.draw [Utils.Datum tt; Utils.Key] ∅ 7%nat)
  = 7%nat /\
  fst (Utils.apply nat unit nat Utils.draw [Utils.Datum tt; Utils.Key] ∅
         (snd (Utils.apply nat unit nat Utils.draw
                 [Utils.Datum tt; Utils.Key] ∅ 7%nat)))
  = 8%nat /\
  (forall s,
     fst (Utils.apply nat unit nat
            (fst (Utils.make_deterministic nat unit nat Utils.draw Utils.Key
                    7%nat))
            [Utils.Datum tt] ∅ s)
     = 7%nat).
Proof. repeat split. Qed.

(** * Further properties of the code *)

(** ** The kernel factory: unsupported spaces, keyword arguments, the
       returned pair *)

Section FactoryMoreFacts.

Import Factory.

Lemma num_or_default_returns (s : space) (num : pyval) :
  isinstance_DiscreteSpectrumSpace s = true \/
  isinstance_NoncompactSymmetricSpace s = true ->
  exists n, forall log, num_or_default num s log = (inr n, log).
Proof.
  intros Hs. unfold num_or_default.
  destruct (truthy num); [eexists; reflexivity|].
  destruct (default_num_defined s Hs) as [d Hdn].
  unfold bind, lift, ret. unfold Return in Hdn. rewrite Hdn. eauto.
Qed.

(** The complete run on a discrete-spectrum space. *)
Lemma new_discrete_full (s : space) (num normalize : pyval) :
  isinstance_DiscreteSpectrumSpace s = true ->
  exists n,
    forall flag kwargs,
      run (MaternGeometricKernel_new s num normalize flag kwargs)
      = (inr (if truthy flag
              then KernelAndFeatureMap
                     (MaternKarhunenLoeveKernel s n normalize)
                     (deterministic_feature_map_compact s
                        (Some (MaternKarhunenLoeveKernel s n normalize)))
              else KernelOnly (MaternKarhunenLoeveKernel s n normalize)),
         [BuiltKernel (MaternKarhunenLoeveKernel s n normalize);
          BuiltFeatureMap
            (deterministic_feature_map_compact s
               (Some (MaternKarhunenLoeveKernel s n normalize)))]).
Proof.
  intros Hd. destruct (num_or_default_returns s num (or_introl Hd)) as [n Hn].
  exists n. intros flag kwargs.
  unfold run, MaternGeometricKernel_new, bind. rewrite Hd, Hn.
  destruct s; try discriminate; cbn; destruct (truthy flag); reflexivity.
Qed.

(** The complete run on a non-compact symmetric space called with a key. *)
Lemma new_noncompact_full (s : space) (num normalize : pyval) :
  isinstance_NoncompactSymmetricSpace s = true ->
  exists fm,
    forall flag kwargs key,
      kwargs !! "key"%string = Some key ->
      run (MaternGeometricKernel_new s num normalize flag kwargs)
      = (inr (if truthy flag
              then KernelAndFeatureMap
                     (MaternFeatureMapKernel s fm key normalize) fm
              else KernelOnly (MaternFeatureMapKernel s fm key normalize)),
         [BuiltFeatureMap fm;
          BuiltKernel (MaternFeatureMapKernel s fm key normalize)]).
Proof.
  intros Hn. pose proof (noncompact_not_discrete s Hn) as Hd.
  destruct (num_or_default_returns s num (or_intror Hn)) as [n Hnum].
  destruct (default_feature_map_noncompact s n [] Hn) as [fm Hfm].
  exists fm. intros flag kwargs key Hk.
  unfold run, MaternGeometricKernel_new, bind. rewrite Hd, Hn, Hk, Hnum.
  unfold Return in Hfm. cbn. rewrite Hfm. cbn.
  destruct (truthy flag); reflexivity.
Qed.

(** The complete run on a non-compact symmetric space called without. *)
Lemma new_noncompact_no_key (s : space) (num normalize flag : pyval)
    (kwargs : gmap string pyval) :
  isinstance_NoncompactSymmetricSpace s = true ->
  kwargs !! "key"%string = None ->
  run (MaternGeometricKernel_new s num normalize flag kwargs)
  = (inl (ValueError (missing_key_message s)), []).
Proof.
  intros Hn Hk. pose proof (noncompact_not_discrete s Hn) as Hd.
  destruct (num_or_default_returns s num (or_intror Hn)) as [n Hnum].
  unfold run, MaternGeometricKernel_new, bind. rewrite Hd, Hn, Hk, Hnum.
  reflexivity.
Qed.

(** The complete run on any other space. *)
Lemma new_unsupported (s : space) (num normalize flag : pyval)
    (kwargs : gmap string pyval) :
  isinstance_DiscreteSpectrumSpace s = false ->
  isinstance_NoncompactSymmetricSpace s = false ->
  run (MaternGeometricKernel_new s num normalize flag kwargs)
  = (inl NotImplementedError, []).
Proof.
  intros Hd Hn. unfold run, MaternGeometricKernel_new, bind.
  rewrite Hd, Hn. reflexivity.
Qed.

(** [Hyperbolic] is a plain [Space] here: the factory rejects it, with or
    without a key. *)
Example hyperbolic_not_supported (dim : Z) (num normalize flag : pyval)
    (kwargs : gmap string pyval) :
  run (MaternGeometricKernel_new (Hyperbolic dim) num normalize flag kwargs)
  = (Raise NotImplementedError, []).
Proof. reflexivity. Qed.

(** X1. On a discrete-spectrum space the factory never raises and never
    looks at the keyword arguments: it builds the Karhunen-Loeve kernel,
    then the deterministic feature map of that very kernel, and the runs
    with any two sets of keyword arguments are the same. *)
Theorem discrete_always_builds
    (s : space) (num normalize rfm : pyval) (kwargs kwargs' : gmap string pyval) :
  isinstance_DiscreteSpectrumSpace s = true ->
  exists p k,
    run (MaternGeometricKernel_new s num normalize rfm kwargs)
    = (Return p,
       [BuiltKernel k;
        BuiltFeatureMap (deterministic_feature_map_compact s (Some k))]) /\
    product_kernel p = k /\
    (exists n, k = MaternKarhunenLoeveKernel s n normalize) /\
    run (MaternGeometricKernel_new s num normalize rfm kwargs')
    = run (MaternGeometricKernel_new s num normalize rfm kwargs).
Proof.
  intros Hd. destruct (new_discrete_full s num normalize Hd) as [n Hrun].
  eexists. exists (MaternKarhunenLoeveKernel s n normalize).
  split; [apply Hrun|]. split; [destruct (truthy rfm); reflexivity|].
  split; [eauto|]. now rewrite !Hrun.
Qed.

Lemma discrete_always_builds_witness :
  exists p k,
    run (MaternGeometricKernel_new (Mesh 2562) (PyInt 20) (PyBool true)
           (PyBool false) ∅)
    = (Return p,
       [BuiltKernel k;
        BuiltFeatureMap
          (deterministic_feature_map_compact (Mesh 2562) (Some k))]) /\
    product_kernel p = k /\
    (exists n, k = MaternKarhunenLoeveKernel (Mesh 2562) n (PyBool true)) /\
    run (MaternGeometricKernel_new (Mesh 2562) (PyInt 20) (PyBool true)
           (PyBool false) {[ "key"%string := PyObj 1 ]})
    = run (MaternGeometricKernel_new (Mesh 2562) (PyInt 20) (PyBool true)
             (PyBool false) ∅).
Proof.
  apply (discrete_always_builds (Mesh 2562) (PyInt 20) (PyBool true)
           (PyBool false) ∅ {[ "key"%string := PyObj 1 ]}).
  reflexivity.
Defined.

(** X2. [return_feature_map] only selects what is returned.  The
    constructor calls and a raised exception are the same for every value
    of the flag; when the call returns, both constructed objects are in the
    log, a falsy flag gives the kernel alone and a truthy flag gives the
    same kernel paired with the feature map that was built. *)
Theorem return_feature_map_selects
    (s : space) (num normalize flag flag' : pyval)
    (kwargs : gmap string pyval) :
  snd (run (MaternGeometricKernel_new s num normalize flag kwargs))
  = snd (run (MaternGeometricKernel_new s num normalize flag' kwargs)) /\
  (forall e,
      fst (run (MaternGeometricKernel_new s num normalize flag kwargs))
      = Raise e ->
      fst (run (MaternGeometricKernel_new s num normalize flag' kwargs))
      = Raise e) /\
  (forall p,
      fst (run (MaternGeometricKernel_new s num normalize flag kwargs))
      = Return p ->
      exists fm,
        In (BuiltFeatureMap fm)
           (snd (run (MaternGeometricKernel_new s num normalize flag kwargs))) /\
        In (BuiltKernel (product_kernel p))
           (snd (run (MaternGeometricKernel_new s num normalize flag kwargs))) /\
        p = (if truthy flag then KernelAndFeatureMap (product_kernel p) fm
             else KernelOnly (product_kernel p)) /\
        fst (run (MaternGeometricKernel_new s num normalize flag' kwargs))
        = Return (if truthy flag'
                  then KernelAndFeatureMap (product_kernel p) fm
                  else KernelOnly (product_kernel p))).
Proof.
  destruct (isinstance_DiscreteSpectrumSpace s) eqn:Hd;
    [|destruct (isinstance_NoncompactSymmetricSpace s) eqn:Hn;
      [destruct (kwargs !! "key"%string) as [key|] eqn:Hk|]].
  - destruct (new_discrete_full s num normalize Hd) as [n Hrun].
    rewrite !Hrun. cbn [fst snd].
    split; [reflexivity|]. split; [intros e [=]|].
    intros p [= <-]. eexists.
    destruct (truthy flag); cbn [product_kernel];
      (split; [right; left; reflexivity|]);
      (split; [left; reflexivity|]); split; reflexivity.
  - destruct (new_noncompact_full s num normalize Hn) as [fm Hrun].
    rewrite !(Hrun _ kwargs key Hk). cbn [fst snd].
    split; [reflexivity|]. split; [intros e [=]|].
    intros p [= <-]. exists fm.
    destruct (truthy flag); cbn [product_kernel];
      (split; [left; reflexivity|]);
      (split; [right; left; reflexivity|]); split; reflexivity.
  - rewrite !(new_noncompact_no_key s num normalize _ kwargs Hn Hk).
    cbn [fst snd]. split; [reflexivity|]. split; [intros e H; exact H|].
    intros p [=].
  - rewrite !(new_unsupported s num normalize _ kwargs Hd Hn).
    cbn [fst snd]. split; [reflexivity|]. split; [intros e H; exact H|].
    intros p [=].
Qed.

Lemma return_feature_map_selects_witness :
  fst (run (MaternGeometricKernel_new (OtherSpace "<class 'Euclidean'>")
              (PyInt 3) (PyBool true) (PyBool true) ∅))
  = Raise NotImplementedError /\
  exists fm,
    fst (run (MaternGeometricKernel_new (Mesh 10) (PyInt 3) (PyBool true)
                (PyBool true) ∅))
    = Return (KernelAndFeatureMap
                (MaternKarhunenLoeveKernel (Mesh 10) (PyInt 3) (PyBool true))
                fm).
Proof.
  split.
  - apply (proj1 (proj2
             (return_feature_map_selects (OtherSpace "<class 'Euclidean'>")
                (PyInt 3) (PyBool true) (PyBool false) (PyBool true) ∅))).
    reflexivity.
  - destruct (proj2 (proj2
                (return_feature_map_selects (Mesh 10) (PyInt 3) (PyBool true)
                   (PyBool false) (PyBool true) ∅))
                (KernelOnly
                   (MaternKarhunenLoeveKernel (Mesh 10) (PyInt 3)
                      (PyBool true)))
                eq_refl) as (fm & _ & _ & _ & H).
    exists fm. exact H.
Defined.

End FactoryMoreFacts.

(** ** The circle: evaluation, addition theorem, eigenvalues *)

Section CircleMoreFacts.

Import Tensor Circle CircleSpace.
Local Open Scope R_scope.

Lemma zip_with_app_map {A : Type} (f h : A -> list R) (l : list A) :
  zip_with (@app R) (map f l) (map h l) = map (fun x => f x ++ h x) l.
Proof. induction l as [|x l IH]; [reflexivity|]. cbn. now rewrite IH. Qed.

(** Concatenating along axis 1 matrices that are all computed row by row
    from the same list. *)
Lemma concat_axis1_columns {A : Type} (g0 : A -> list R)
    (gs : list (A -> list R)) (l : list A) :
  concat_axis1 (map (fun g => map g l) (g0 :: gs))
  = map (fun x => concat (map (fun g => g x) (g0 :: gs))) l.
Proof.
  cbn [map concat_axis1 concat].
  revert g0. induction gs as [|g gs IH]; intros g0; cbn [map fold_left concat].
  - apply map_ext. intros x. now rewrite app_nil_r.
  - rewrite zip_with_app_map, (IH (fun x => g0 x ++ g x)).
    apply map_ext. intros x. now rewrite app_assoc.
Qed.

Lemma range_from_one (L : Z) :
  (1 <= L)%Z ->
  range L = 0%Z :: map Z.of_nat (seq 1 (Z.to_nat L - 1)).
Proof.
  intros H. unfold range.
  replace (Z.to_nat L) with (S (Z.to_nat L - 1)) at 1 by lia. reflexivity.
Qed.

Lemma map_flat_map_comm {A B C : Type} (f : B -> C) (G : A -> list B)
    (l : list A) :
  map f (flat_map G l) = flat_map (fun a => map f (G a)) l.
Proof.
  induction l as [|a l IH]; [reflexivity|].
  cbn [flat_map]. now rewrite map_app, IH.
Qed.

Lemma concat_map_flat_map {A B : Type} (G : A -> list (B -> list R))
    (l : list A) (x : B) :
  concat (map (fun g => g x) (flat_map G l))
  = flat_map (fun a => concat (map (fun g => g x) (G a))) l.
Proof.
  induction l as [|a l IH]; [reflexivity|].
  cbn [flat_map]. now rewrite map_app, concat_app, IH.
Qed.

(** [__call__] computes, for every point, the row of its angle. *)
Lemma call_rows (self : SinCosEigenfunctions) (X : list (R * R)) :
  (1 <= num_levels self)%Z ->
  call self X = map (fun x => basis_row self (atan2 (snd x) (fst x))) X.
Proof.
  intros HL. unfold call, basis_row, cartesian_to_polar.
  rewrite (range_from_one _ HL).
  set (tail := map Z.of_nat (seq 1 (Z.to_nat (num_levels self) - 1))).
  set (G := fun level : Z =>
    if (level =? 0)%Z then [fun x : R * R => [1]]
    else [fun x : R * R =>
            [Rpower 2 (1 / 2) * cos (1 * IZR level * atan2 (snd x) (fst x))];
          fun x : R * R =>
            [Rpower 2 (1 / 2) * sin (1 * IZR level * atan2 (snd x) (fst x))]]).
  rewrite (flat_map_ext _ (fun level => map (fun g => map g X) (G level))).
  2:{ intros level. unfold G, ones_like, scale, pointwise.
      destruct (level =? 0)%Z; cbn [map]; rewrite !map_map; reflexivity. }
  rewrite <- map_flat_map_comm.
  change (flat_map G (0%Z :: tail))
    with ((fun x : R * R => [1]) :: flat_map G tail).
  rewrite concat_axis1_columns.
  apply map_ext. intros x.
  change ((fun _ : R * R => [1]) :: flat_map G tail)
    with (flat_map G (0%Z :: tail)).
  rewrite concat_map_flat_map.
  apply flat_map_ext. intros level.
  unfold G. destruct (level =? 0)%Z; reflexivity.
Qed.

Lemma init_inv (num : Z) (self : SinCosEigenfunctions) :
  init num = Return self ->
  Z.odd num = true /\ (1 <= num)%Z /\
  num_eigenfunctions self = num /\ num_levels self = (num / 2 + 1)%Z.
Proof.
  unfold init. rewrite Zmod_odd.
  destruct (Z.odd num); cbn [Z.eqb negb]; [|discriminate].
  destruct (Z.geb_spec num 1); cbn [negb]; [|discriminate].
  intros [= <-]. repeat split. lia.
Qed.

(** A row of [__call__]: the constant [1], then a cosine and a sine for
    each of the levels [1, 2, ...]. *)
Lemma basis_row_levels (self : SinCosEigenfunctions) (theta : R) :
  (1 <= num_levels self)%Z ->
  basis_row self theta
  = 1 :: flat_map
           (fun k : nat =>
              [Rpower 2 (1 / 2) * cos (1 * IZR (Z.of_nat k) * theta);
               Rpower 2 (1 / 2) * sin (1 * IZR (Z.of_nat k) * theta)])
           (seq 1 (Z.to_nat (num_levels self) - 1)).
Proof.
  intros HL. unfold basis_row. rewrite (range_from_one _ HL).
  cbn [flat_map Z.eqb app]. f_equal.
  assert (Hgen : forall n s, (1 <= s)%nat ->
    flat_map
      (fun level =>
         if (level =? 0)%Z then [1]
         else [Rpower 2 (1 / 2) * cos (1 * IZR level * theta);
               Rpower 2 (1 / 2) * sin (1 * IZR level * theta)])
      (map Z.of_nat (seq s n))
    = flat_map
        (fun k : nat =>
           [Rpower 2 (1 / 2) * cos (1 * IZR (Z.of_nat k) * theta);
            Rpower 2 (1 / 2) * sin (1 * IZR (Z.of_nat k) * theta)])
        (seq s n)).
  { induction n as [|n IH]; intros s Hs; [reflexivity|].
    cbn [seq map flat_map]. rewrite IH by lia.
    destruct (Z.eqb_spec (Z.of_nat s) 0); [lia | reflexivity]. }
  apply Hgen. lia.
Qed.

Lemma flat_map_pairs_length {A : Type} (P : A -> list R) (l : list A) :
  (forall a, length (P a) = 2%nat) ->
  length (flat_map P l) = (2 * length l)%nat.
Proof.
  intros HP. induction l as [|a l IH]; [reflexivity|].
  cbn [flat_map length]. rewrite length_app, HP, IH. lia.
Qed.

Lemma drop_flat_map_pairs (P : nat -> list R) (s n k : nat) :
  (forall a, length (P a) = 2%nat) ->
  (k <= n)%nat ->
  drop (2 * k) (flat_map P (seq s n)) = flat_map P (seq (s + k) (n - k)).
Proof.
  intros HP. revert s n. induction k as [|k IH]; intros s n Hk.
  - replace (2 * 0)%nat with 0%nat by lia.
    now rewrite Nat.add_0_r, Nat.sub_0_r.
  - destruct n as [|n]; [lia|]. cbn [seq flat_map].
    replace (2 * S k)%nat with (length (P s) + 2 * k)%nat by (rewrite HP; lia).
    rewrite drop_app_add, IH by lia.
    replace (S s + k)%nat with (s + S k)%nat by lia. reflexivity.
Qed.

(** The entries of level [l] in a row of [__call__]. *)
Lemma level_slice_basis_row (self : SinCosEigenfunctions) (theta : R) (l : nat) :
  (l < Z.to_nat (num_levels self))%nat ->
  level_slice l (basis_row self theta)
  = match l with
    | O => [1]
    | S _ => [Rpower 2 (1 / 2) * cos (1 * IZR (Z.of_nat l) * theta);
              Rpower 2 (1 / 2) * sin (1 * IZR (Z.of_nat l) * theta)]
    end.
Proof.
  intros Hl. rewrite basis_row_levels by lia.
  destruct l as [|l]; [reflexivity|].
  unfold level_slice.
  replace (2 * l + 1)%nat with (S (2 * l)) by lia. cbn [skipn].
  rewrite drop_flat_map_pairs by (reflexivity || lia).
  replace (Z.to_nat (num_levels self) - 1 - l)%nat
    with (S (Z.to_nat (num_levels self) - 2 - l)) by lia.
  cbn [seq flat_map app firstn]. reflexivity.
Qed.

Lemma range_lookup (L : Z) (l : nat) :
  (l < Z.to_nat L)%nat -> range L !! l = Some (Z.of_nat l).
Proof.
  intros Hl. unfold range. rewrite lookup_map, lookup_seq_lt by exact Hl.
  reflexivity.
Qed.

(** [_addition_theorem] row by row, the broadcasts resolved. *)
Lemma addition_theorem_rows (self : SinCosEigenfunctions)
    (X X2 : list (R * R)) :
  _addition_theorem self X X2
  = map (fun x => map
           (fun x2 => zip_with Rmult
              (map IZR (num_eigenfunctions_per_level self))
              (map (fun f => cos (f * (atan2 (snd x) (fst x)
                                       - atan2 (snd x2) (fst x2))))
                   (map IZR (range (num_levels self)))))
           X2) X.
Proof.
  unfold _addition_theorem, cartesian_to_polar.
  rewrite !map_map. apply map_ext. intros x.
  rewrite !map_map. apply map_ext. intros x2.
  cbn [zip_with flat_map]. now rewrite app_nil_r.
Qed.

(** One entry of [_addition_theorem]. *)
Lemma addition_theorem_entry (self : SinCosEigenfunctions)
    (X X2 : list (R * R)) (i j l : nat) (x x2 : R * R) :
  X !! i = Some x -> X2 !! j = Some x2 ->
  (l < Z.to_nat (num_levels self))%nat ->
  entry (_addition_theorem self X X2) i j l
  = Some (IZR (if (Z.of_nat l =? 0)%Z then 1 else 2)
          * cos (IZR (Z.of_nat l)
                 * (atan2 (snd x) (fst x) - atan2 (snd x2) (fst x2)))).
Proof.
  intros Hi Hj Hl. unfold entry.
  rewrite addition_theorem_rows, lookup_map, Hi. cbn [fmap option_fmap option_map mbind option_bind].
  rewrite lookup_map, Hj. cbn [fmap option_fmap option_map mbind option_bind].
  unfold num_eigenfunctions_per_level.
  rewrite lookup_zip_with, !lookup_map, range_lookup by exact Hl.
  reflexivity.
Qed.

Lemma sqrt_two_squared : Rpower 2 (1 / 2) * Rpower 2 (1 / 2) = 2.
Proof.
  replace (1 / 2) with (/ 2) by lra.
  rewrite Rpower_sqrt by lra. apply sqrt_sqrt. lra.
Qed.

(** X3. For an object built by [__init__] with count [num], [__call__]
    returns one row per point; every row has [num] entries, and its first
    entry, the level-0 function, is [1]. *)
Theorem call_shape (num : Z) (self : SinCosEigenfunctions)
    (X : list (R * R)) :
  init num = Return self ->
  length (call self X) = length X /\
  Forall (fun row => length row = Z.to_nat num /\ row !! 0%nat = Some 1)
         (call self X).
Proof.
  intros Hinit. destruct (init_inv num self Hinit) as (Hodd & H1 & _ & HL).
  assert (Hpos : (0 <= num / 2)%Z) by (apply Z.div_pos; lia).
  assert (Hnum : num = (2 * (num / 2) + 1)%Z).
  { rewrite (Z.div_mod num 2) at 1 by lia. now rewrite Zmod_odd, Hodd. }
  rewrite call_rows by lia. split; [apply length_map|].
  apply List.Forall_forall. intros row Hrow.
  apply in_map_iff in Hrow as (x & <- & _).
  rewrite basis_row_levels by lia. split; [|reflexivity].
  cbn [length]. rewrite flat_map_pairs_length by reflexivity.
  rewrite length_seq, HL. lia.
Qed.

Lemma call_shape_witness :
  exists self,
    init 3 = Return self /\
    length (call self [(1, 0); (0, 1); (-1, 0)]) = 3%nat /\
    Forall (fun row => length row = 3%nat /\ row !! 0%nat = Some 1)
           (call self [(1, 0); (0, 1); (-1, 0)]).
Proof.
  eexists. split; [reflexivity|].
  apply (call_shape 3 _ [(1, 0); (0, 1); (-1, 0)]). reflexivity.
Defined.

(** X4. The addition theorem links [__call__] and [_addition_theorem]: for
    points [X[i]] and [X2[j]] and every level [l], the products of the
    level's eigenfunctions at the two points sum to the entry
    [[i, j, l]] of [_addition_theorem(X, X2)]. *)
Theorem addition_theorem_sums_level (self : SinCosEigenfunctions)
    (X X2 : list (R * R)) (i j l : nat) (x x2 : R * R) :
  X !! i = Some x -> X2 !! j = Some x2 ->
  (l < Z.to_nat (num_levels self))%nat ->
  exists r r2 v,
    call self X !! i = Some r /\
    call self X2 !! j = Some r2 /\
    entry (_addition_theorem self X X2) i j l = Some v /\
    sum (zip_with Rmult (level_slice l r) (level_slice l r2)) = v.
Proof.
  intros Hi Hj Hl.
  exists (basis_row self (atan2 (snd x) (fst x))),
         (basis_row self (atan2 (snd x2) (fst x2))).
  eexists. rewrite !call_rows by lia. rewrite !lookup_map, Hi, Hj.
  split; [reflexivity|]. split; [reflexivity|].
  split; [apply (addition_theorem_entry self X X2 i j l x x2 Hi Hj Hl)|].
  rewrite !level_slice_basis_row by exact Hl.
  destruct l as [|l].
  - change (Z.of_nat 0) with 0%Z. cbn [zip_with sum fold_right Z.eqb].
    rewrite Rmult_0_l, cos_0. lra.
  - cbn [zip_with sum fold_right].
    replace (Z.of_nat (S l) =? 0)%Z with false
      by (symmetry; apply Z.eqb_neq; lia).
    set (a := atan2 (snd x) (fst x)). set (b := atan2 (snd x2) (fst x2)).
    set (k := IZR (Z.of_nat (S l))).
    replace (k * (a - b)) with (1 * k * a - 1 * k * b) by lra.
    rewrite cos_minus. pose proof sqrt_two_squared as Hc.
    set (c := Rpower 2 (1 / 2)) in *.
    replace (c * cos (1 * k * a) * (c * cos (1 * k * b))
             + (c * sin (1 * k * a) * (c * sin (1 * k * b)) + 0))
      with (c * c * (cos (1 * k * a) * cos (1 * k * b)
                     + sin (1 * k * a) * sin (1 * k * b))) by ring.
    rewrite Hc. reflexivity.
Qed.

Lemma addition_theorem_sums_level_witness :
  exists r r2 v,
    call {| _num_eigenfunctions := 5; _num_levels := 3 |}
      [(1, 0); (0, 1)] !! 0%nat = Some r /\
    call {| _num_eigenfunctions := 5; _num_levels := 3 |}
      [(0, 1)] !! 0%nat = Some r2 /\
    entry (_addition_theorem {| _num_eigenfunctions := 5; _num_levels := 3 |}
             [(1, 0); (0, 1)] [(0, 1)]) 0 0 2 = Some v /\
    sum (zip_with Rmult (level_slice 2 r) (level_slice 2 r2)) = v.
Proof.
  apply (addition_theorem_sums_level
           {| _num_eigenfunctions := 5; _num_levels := 3 |}
           [(1, 0); (0, 1)] [(0, 1)] 0 0 2 (1, 0) (0, 1));
    [reflexivity | reflexivity | simpl; lia].
Defined.

(** X5. [_addition_theorem] is symmetric in its two point sets, and no
    entry exceeds in absolute value the number of eigenfunctions of its
    level, the value [_addition_theorem_diag] gives on the diagonal. *)
Theorem addition_theorem_symmetric_bounded (self : SinCosEigenfunctions)
    (X X2 : list (R * R)) (i j l : nat) (x x2 : R * R) :
  X !! i = Some x -> X2 !! j = Some x2 ->
  (l < Z.to_nat (num_levels self))%nat ->
  exists v d,
    entry (_addition_theorem self X X2) i j l = Some v /\
    entry (_addition_theorem self X2 X) j i l = Some v /\
    _addition_theorem_diag self X !! i ≫= (fun row => row !! l) = Some d /\
    - d <= v <= d.
Proof.
  intros Hi Hj Hl.
  rewrite (addition_theorem_entry self X X2 i j l x x2 Hi Hj Hl).
  rewrite (addition_theorem_entry self X2 X j i l x2 x Hj Hi Hl).
  set (a := atan2 (snd x) (fst x)). set (b := atan2 (snd x2) (fst x2)).
  set (k := IZR (Z.of_nat l)).
  set (n := IZR (if (Z.of_nat l =? 0)%Z then 1 else 2)).
  exists (n * cos (k * (a - b))), n.
  split; [reflexivity|]. split.
  - f_equal. f_equal. replace (k * (b - a)) with (- (k * (a - b))) by lra.
    apply cos_neg.
  - split.
    + rewrite addition_theorem_diag_rows, lookup_map, Hi.
      cbn [fmap option_fmap option_map mbind option_bind].
      unfold num_eigenfunctions_per_level.
      rewrite !lookup_map, range_lookup by exact Hl. reflexivity.
    + pose proof (COS_bound (k * (a - b))) as [Hlo Hhi].
      assert (Hn : 0 <= n) by (unfold n; destruct (Z.of_nat l =? 0)%Z; lra).
      split; nra.
Qed.

Lemma addition_theorem_symmetric_bounded_witness :
  exists v d,
    entry (_addition_theorem {| _num_eigenfunctions := 5; _num_levels := 3 |}
             [(1, 0); (0, 1)] [(0, 1)]) 1 0 2 = Some v /\
    entry (_addition_theorem {| _num_eigenfunctions := 5; _num_levels := 3 |}
             [(0, 1)] [(1, 0); (0, 1)]) 0 1 2 = Some v /\
    _addition_theorem_diag {| _num_eigenfunctions := 5; _num_levels := 3 |}
      [(1, 0); (0, 1)] !! 1%nat ≫= (fun row => row !! 2%nat) = Some d /\
    - d <= v <= d.
Proof.
  apply (addition_theorem_symmetric_bounded
           {| _num_eigenfunctions := 5; _num_levels := 3 |}
           [(1, 0); (0, 1)] [(0, 1)] 1 0 2 (0, 1) (0, 1));
    [reflexivity | reflexivity | simpl; lia].
Defined.

(** X6. [Circle.get_eigenvalues(num)] raises TensorFlow's
    [InvalidArgumentError] for a negative [num].  For [num >= 0] it returns
    exactly [num] values, the value at position [l] is [l] squared, and the
    values are strictly increasing. *)
Theorem get_eigenvalues_increasing (num : Z) :
  ((num < 0)%Z -> get_eigenvalues num = inl InvalidArgumentError) /\
  ((0 <= num)%Z ->
   exists ev,
     get_eigenvalues num = inr ev /\
     length ev = Z.to_nat num /\
     (forall l, (l < Z.to_nat num)%nat ->
                ev !! l = Some (IZR (Z.of_nat l) ^ 2)) /\
     (forall i j a b,
         (i < j)%nat -> ev !! i = Some a -> ev !! j = Some b -> a < b)).
Proof.
  unfold get_eigenvalues, tf_range. split.
  - intros Hneg. destruct (Z.ltb_spec num 0); [reflexivity | lia].
  - intros Hpos. destruct (Z.ltb_spec num 0); [lia|].
    set (ev := map (fun x => x ^ 2) (map IZR (range num))).
    assert (Hat : forall l, (l < Z.to_nat num)%nat ->
                  ev !! l = Some (IZR (Z.of_nat l) ^ 2)).
    { intros l Hl. unfold ev.
      rewrite !lookup_map, range_lookup by exact Hl. reflexivity. }
    assert (Hlen : length ev = Z.to_nat num).
    { unfold ev, range. now rewrite !length_map, length_seq. }
    exists ev. split; [reflexivity|]. split; [exact Hlen|].
    split; [exact Hat|].
    intros i j a b Hij Ha Hb.
    assert (Hj : (j < Z.to_nat num)%nat)
      by (rewrite <- Hlen; eapply lookup_lt_Some; eassumption).
    rewrite Hat in Ha by lia. rewrite Hat in Hb by lia.
    injection Ha as <-. injection Hb as <-.
    assert (H0 : 0 <= IZR (Z.of_nat i)) by (apply IZR_le; lia).
    assert (H1 : IZR (Z.of_nat i) < IZR (Z.of_nat j)) by (apply IZR_lt; lia).
    nra.
Qed.

Lemma get_eigenvalues_increasing_witness :
  get_eigenvalues (-2) = inl InvalidArgumentError /\
  exists ev,
    get_eigenvalues 4 = inr ev /\
    length ev = Z.to_nat 4 /\
    (forall l, (l < Z.to_nat 4)%nat ->
               ev !! l = Some (IZR (Z.of_nat l) ^ 2)) /\
    (forall i j a b,
        (i < j)%nat -> ev !! i = Some a -> ev !! j = Some b -> a < b).
Proof.
  split.
  - apply (proj1 (get_eigenvalues_increasing (-2))). lia.
  - apply (proj2 (get_eigenvalues_increasing 4)). lia.
Defined.

End CircleMoreFacts.

(** ** The hook content formula of the Stiefel manifold *)

Section StiefelFacts.

Import Stiefel.

Lemma later_not_longer_tail (a : Z) (l : list Z) :
  later_not_longer (a :: l) ->
  later_not_longer l /\ Forall (fun b => (b <= a)%Z) l.
Proof.
  intros H. split.
  - intros i j x y Hij Hx Hy. apply (H (S i) (S j)); [lia | exact Hx | exact Hy].
  - apply List.Forall_forall. intros b Hb.
    apply list_elem_of_In, list_elem_of_lookup in Hb as [j Hj].
    apply (H 0%nat (S j)); [lia | reflexivity | exact Hj].
Qed.

Lemma non_increasing_later_not_longer (lmd : list Z) :
  non_increasing lmd = true -> later_not_longer lmd.
Proof.
  induction lmd as [|a l IH]; intros H i j x y Hij Hx Hy; [discriminate|].
  destruct l as [|b l].
  - destruct i as [|i]; [|discriminate]. destruct j as [|j]; [|discriminate].
    cbn in Hx, Hy. injection Hx as <-. injection Hy as <-. lia.
  - cbn [non_increasing] in H. apply andb_prop in H as [Hba Hl].
    apply Z.leb_le in Hba. specialize (IH Hl).
    destruct i as [|i].
    + cbn in Hx. injection Hx as <-.
      destruct j as [|j]; [cbn in Hy; injection Hy as <-; lia|].
      assert (y <= b)%Z
        by (apply (IH 0%nat j b y); [lia | reflexivity | exact Hy]).
      lia.
    + destruct j as [|j]; [lia|].
      apply (IH i j x y); [lia | exact Hx | exact Hy].
Qed.

Lemma in_range (l c : Z) : In c (Circle.range l) <-> (0 <= c < l)%Z.
Proof.
  unfold Circle.range. rewrite in_map_iff. split.
  - intros (k & <- & Hk). apply in_seq in Hk. lia.
  - intros Hc. exists (Z.to_nat c). split; [lia|]. apply in_seq. lia.
Qed.

Lemma rows_longer_than_nonneg (lmd : list Z) (i : Z) :
  (0 <= rows_longer_than lmd i)%Z.
Proof.
  unfold rows_longer_than. induction lmd as [|a l IH]; cbn [map fold_right]; [lia|].
  destruct (a >=? i + 1)%Z; lia.
Qed.

Lemma rows_longer_than_le_length (lmd : list Z) (i : Z) :
  (rows_longer_than lmd i <= Z.of_nat (length lmd))%Z.
Proof.
  unfold rows_longer_than. induction lmd as [|a l IH]; cbn [map fold_right length]; [lia|].
  destruct (a >=? i + 1)%Z; lia.
Qed.

(** In a non-increasing tuple the rows longer than [i] are the first
    ones. *)
Lemma rows_longer_than_prefix (lmd : list Z) (i : Z) (k : nat) :
  later_not_longer lmd ->
  ((Z.of_nat k < rows_longer_than lmd i)%Z
   <-> exists l, lmd !! k = Some l /\ (i + 1 <= l)%Z).
Proof.
  revert k. induction lmd as [|a l IH]; intros k Hs.
  - cbn. split; [lia | intros (x & Hx & _); discriminate].
  - destruct (later_not_longer_tail a l Hs) as [Hs' Hall].
    unfold rows_longer_than. cbn [map fold_right].
    fold (rows_longer_than l i).
    destruct (Z.geb_spec a (i + 1)) as [Ha|Ha].
    + destruct k as [|k].
      * pose proof (rows_longer_than_nonneg l i).
        split; [intros _; exists a; split; [reflexivity | lia] | lia].
      * rewrite <- (IH k Hs'). lia.
    + assert (H0 : rows_longer_than l i = 0%Z).
      { clear IH Hs Hs'. unfold rows_longer_than.
        induction Hall as [|b l Hb Hall IHl]; [reflexivity|].
        cbn [map fold_right]. rewrite IHl.
        destruct (Z.geb_spec b (i + 1)); lia. }
      rewrite H0. split; [lia|]. intros (x & Hx & Hle). exfalso.
      assert (x <= a)%Z by (apply (Hs 0%nat k a x); [lia | reflexivity | exact Hx]).
      lia.
Qed.

Lemma enumerate_from_lookup {A : Type} (start : Z) (l : list A) (k : nat) :
  enumerate_from start l !! k
  = (fun a => ((start + Z.of_nat k)%Z, a)) <$> l !! k.
Proof.
  revert start k. induction l as [|a l IH]; intros start k; [reflexivity|].
  destruct k as [|k]; cbn [enumerate_from].
  - cbn. f_equal. f_equal. lia.
  - cbn [lookup list_lookup]. change (enumerate_from (start + 1) l !! k
      = (fun a0 => ((start + Z.of_nat (S k))%Z, a0)) <$> l !! k).
    rewrite IH. destruct (l !! k); cbn; [|reflexivity]. f_equal. f_equal. lia.
Qed.

Lemma in_enumerate_from {A : Type} (start : Z) (l : list A) (r : Z) (a : A) :
  In (r, a) (enumerate_from start l)
  <-> exists k : nat, r = (start + Z.of_nat k)%Z /\ l !! k = Some a.
Proof.
  rewrite <- list_elem_of_In, list_elem_of_lookup. split.
  - intros [k Hk]. rewrite enumerate_from_lookup in Hk.
    destruct (l !! k) as [x|] eqn:Hx; [|discriminate].
    injection Hk as <- <-. eauto.
  - intros (k & -> & Hk). exists k. rewrite enumerate_from_lookup, Hk. reflexivity.
Qed.

(** The cells of a diagram. *)
Lemma in_cells (lmd : list Z) (r c : Z) :
  In (r, c) (cells lmd)
  <-> exists (k : nat) (l : Z),
        r = Z.of_nat k /\ lmd !! k = Some l /\ (0 <= c < l)%Z.
Proof.
  unfold cells. rewrite in_flat_map. split.
  - intros ([r' l] & Hrow & Hc). cbn [fst snd] in Hc.
    apply in_map_iff in Hc as (c' & [= <- <-] & Hc').
    apply in_enumerate_from in Hrow as (k & -> & Hk).
    exists k, l. rewrite in_range in Hc'. repeat split; try lia. exact Hk.
  - intros (k & l & -> & Hk & Hc). exists (Z.of_nat k, l). split.
    + apply in_enumerate_from. exists k. split; [lia | exact Hk].
    + cbn [fst snd]. apply in_map_iff. exists c. split; [reflexivity|].
      now apply in_range.
Qed.

(** A fold whose steps all succeed and keep an invariant. *)
Lemma fold_result_invariant {A B : Type} (step : A -> B -> result A)
    (I : A -> Prop) (P : B -> Prop) (l : list B) (acc : A) :
  I acc -> Forall P l ->
  (forall a b, I a -> P b -> exists a', step a b = Return a' /\ I a') ->
  exists a', fold_result step acc l = Return a' /\ I a'.
Proof.
  intros Hacc Hl Hstep. revert acc Hacc.
  induction Hl as [|b l Hb Hl IH]; intros acc Hacc; cbn [fold_result]; [eauto|].
  destruct (Hstep acc b Hacc Hb) as (a' & Ha' & HI).
  unfold Return in Ha'. rewrite Ha'. apply IH, HI.
Qed.

(** The loops can only raise [IndexError]. *)
Lemma fold_result_only_raises {A B : Type} (step : A -> B -> result A)
    (e0 : exn) (l : list B) (acc : A) (e : exn) :
  (forall a b e', step a b = inl e' -> e' = e0) ->
  fold_result step acc l = inl e -> e = e0.
Proof.
  intros Hstep. revert acc. induction l as [|b l IH]; intros acc; cbn [fold_result].
  - discriminate.
  - destruct (step acc b) as [e'|a'] eqn:Hs; [|apply IH].
    intros [= <-]. eapply Hstep, Hs.
Qed.

(** A fold with a step that fails from every accumulator does not return. *)
Lemma fold_result_fails {A B : Type} (step : A -> B -> result A)
    (l : list B) (b : B) (acc : A) :
  In b l ->
  (forall a, exists e, step a b = inl e) ->
  exists e, fold_result step acc l = inl e.
Proof.
  intros Hin Hb. revert acc. induction l as [|b' l IH]; intros acc; [destruct Hin|].
  cbn [fold_result]. destruct Hin as [->|Hin].
  - destruct (Hb acc) as [e ->]. eauto.
  - destruct (step acc b') as [e|a']; [eauto | apply IH, Hin].
Qed.

Lemma product_app (l1 l2 : list Z) :
  product (l1 ++ l2) = (product l1 * product l2)%Z.
Proof.
  unfold product. induction l1 as [|a l1 IH]; cbn [app fold_right]; [lia|].
  rewrite IH. lia.
Qed.

(** The numerator is the product of the contents [n + id_col - id_row]
    of the cells. *)
Lemma cell_fold_numer (n : Z) (cols : list Z) (r l : Z) (cs : list Z)
    (nu de nu' de' : Z) :
  fold_result (cell_step n cols r l) (nu, de) cs = Return (nu', de') ->
  nu' = (nu * product (map (fun c => n + c - r) cs))%Z.
Proof.
  revert nu de. induction cs as [|c cs IH]; intros nu de; cbn [fold_result].
  - intros [= <- <-]. cbn. lia.
  - unfold cell_step at 1. destruct (cols !! Z.to_nat c); [|discriminate].
    cbn. intros H. apply IH in H. rewrite H. cbn [map]. unfold product.
    cbn [fold_right]. lia.
Qed.

Lemma row_fold_numer (n : Z) (cols : list Z) (rows : list (Z * Z))
    (nu de nu' de' : Z) :
  fold_result (row_step n cols) (nu, de) rows = Return (nu', de') ->
  nu' = (nu * product
                (map (fun rc => n + snd rc - fst rc)
                     (flat_map (fun row => map (fun c => (fst row, c))
                                             (Circle.range (snd row)))
                               rows)))%Z.
Proof.
  revert nu de. induction rows as [|[r l] rows IH]; intros nu de; cbn [fold_result].
  - intros [= <- <-]. cbn. lia.
  - unfold row_step at 1.
    destruct (fold_result (cell_step n cols r l) (nu, de) (Circle.range l))
      as [e|[nu1 de1]] eqn:Hrow; [discriminate|].
    intros H. apply IH in H. apply cell_fold_numer in Hrow.
    rewrite H, Hrow. cbn [flat_map fst snd].
    rewrite map_app, product_app, map_map. cbn [fst snd]. lia.
Qed.

Lemma l_cols_lookup (l0 : Z) (rest : list Z) (c : Z) :
  (0 <= c < l0)%Z ->
  map (rows_longer_than (l0 :: rest)) (Circle.range l0) !! Z.to_nat c
  = Some (rows_longer_than (l0 :: rest) c).
Proof.
  intros Hc. rewrite lookup_map, range_lookup by lia.
  rewrite Z2Nat.id by lia. reflexivity.
Qed.

Lemma l_cols_lookup_beyond (l0 : Z) (rest : list Z) (c : Z) :
  (Z.max l0 0 <= c)%Z ->
  map (rows_longer_than (l0 :: rest)) (Circle.range l0) !! Z.to_nat c = None.
Proof.
  intros Hc. apply lookup_ge_None.
  unfold Circle.range. rewrite !length_map, length_seq. lia.
Qed.

(** On the shape of a diagram both loops run to their end: every
    [l_cols[id_col]] is within bounds and every factor of the denominator,
    a hook length, is at least one. *)
Lemma hook_content_products_diagram (l0 : Z) (rest : list Z) (n : Z) :
  non_increasing (l0 :: rest) = true ->
  exists numer denom,
    hook_content_products (l0 :: rest) n = Return (numer, denom) /\
    (0 < denom)%Z /\
    numer = product (map (fun rc => n + snd rc - fst rc) (cells (l0 :: rest)))%Z.
Proof.
  intros Hs. apply non_increasing_later_not_longer in Hs.
  set (lmd := l0 :: rest) in *.
  set (cols := map (rows_longer_than lmd) (Circle.range l0)).
  destruct (fold_result_invariant (row_step n cols)
              (fun acc => (0 < snd acc)%Z)
              (fun row => In row (enumerate_from 0 lmd))
              (enumerate_from 0 lmd) (1, 1)%Z) as ([numer denom] & Hfold & Hpos).
  - cbn. lia.
  - apply List.Forall_forall. auto.
  - intros acc [r l] Hacc Hrow.
    apply in_enumerate_from in Hrow as (k & -> & Hk).
    unfold row_step.
    apply (fold_result_invariant (cell_step n cols (0 + Z.of_nat k) l)
             (fun acc => (0 < snd acc)%Z)
             (fun c => In c (Circle.range l))); [exact Hacc | | ].
    + apply List.Forall_forall. auto.
    + intros [nu de] c Hde Hc. apply in_range in Hc. cbn [snd] in Hde.
      assert (Hl0 : (l <= l0)%Z)
        by (apply (Hs 0%nat k l0 l); [lia | reflexivity | exact Hk]).
      unfold cell_step. unfold cols, lmd.
      rewrite l_cols_lookup by lia. eexists. split; [reflexivity|].
      cbn [snd].
      assert (Z.of_nat k < rows_longer_than (l0 :: rest) c)%Z.
      { apply rows_longer_than_prefix; [exact Hs|]. exists l. split; [exact Hk | lia]. }
      apply Z.mul_pos_pos; lia.
  - exists numer, denom. cbn [snd] in Hpos.
    split; [|split; [exact Hpos|]].
    + unfold hook_content_products, l_cols, lmd. exact Hfold.
    + apply row_fold_numer in Hfold. rewrite Hfold. unfold cells. lia.
Qed.

Lemma product_positive (l : list Z) :
  Forall (fun x => (0 < x)%Z) l -> (0 < product l)%Z.
Proof.
  unfold product. induction 1 as [|x l Hx _ IH]; cbn [fold_right]; [lia|].
  apply Z.mul_pos_pos; assumption.
Qed.

Lemma product_zero (l : list Z) : In 0%Z l -> product l = 0%Z.
Proof.
  unfold product. induction l as [|x l IH]; intros Hin; [destruct Hin|].
  cbn [fold_right]. destruct Hin as [->|Hin]; [lia|]. rewrite IH by exact Hin. lia.
Qed.

Lemma float_overflow_positive : (0 < float_overflow)%Z.
Proof. reflexivity. Qed.

(** The division by a positive denominator. *)
Lemma true_divide_positive (numer denom : Z) :
  (0 < denom)%Z ->
  true_divide numer denom
  = if (float_overflow * denom <=? Z.abs numer)%Z then inl OverflowError
    else inr (IZR numer / IZR denom)%R.
Proof.
  intros Hd. unfold true_divide.
  destruct (Z.eqb_spec denom 0); [lia|].
  now rewrite (Z.abs_eq denom) by lia.
Qed.

(** A numerator below the overflow threshold never overflows. *)
Lemma true_divide_small (numer denom : Z) :
  (0 < denom)%Z -> (Z.abs numer < float_overflow)%Z ->
  true_divide numer denom = inr (IZR numer / IZR denom)%R.
Proof.
  intros Hd Hn. rewrite true_divide_positive by exact Hd.
  pose proof float_overflow_positive as Hpos.
  destruct (Z.leb_spec (float_overflow * denom) (Z.abs numer)); [nia|].
  reflexivity.
Qed.

(** X7. On a non-empty, non-increasing tuple of row lengths
    [hook_content_formula] raises neither [IndexError] nor
    [ZeroDivisionError]: every index into [l_cols] is within bounds and
    the denominator is a product of hook lengths that are all at least
    one, hence positive.  The numerator is the product of the contents
    [n + id_col - id_row] of the cells, and the result is the quotient of
    the two, unless that is too large for a float, in which case the
    division raises [OverflowError]. *)
Theorem hook_content_formula_returns (lmd : list Z) (n : Z) :
  lmd <> [] ->
  non_increasing lmd = true ->
  exists numer denom,
    hook_content_products lmd n = Return (numer, denom) /\
    (1 <= denom)%Z /\
    numer = product (map (fun rc => n + snd rc - fst rc) (cells lmd))%Z /\
    hook_content_formula lmd n
    = (if (float_overflow * denom <=? Z.abs numer)%Z then inl OverflowError
       else inr (IZR numer / IZR denom)%R) /\
    ((Z.abs numer < float_overflow)%Z ->
     hook_content_formula lmd n = inr (IZR numer / IZR denom)%R).
Proof.
  intros Hne Hs. destruct lmd as [|l0 rest]; [contradiction|].
  destruct (hook_content_products_diagram l0 rest n Hs)
    as (numer & denom & Hp & Hpos & Hnum).
  exists numer, denom. repeat split; try assumption; [lia| |].
  - unfold hook_content_formula. unfold Return in Hp. rewrite Hp.
    now apply true_divide_positive.
  - intros Hsmall. unfold hook_content_formula. unfold Return in Hp.
    rewrite Hp. now apply true_divide_small.
Qed.

Lemma hook_content_formula_returns_witness :
  exists numer denom,
    hook_content_products [2; 1]%Z 3 = Return (numer, denom) /\
    (1 <= denom)%Z /\
    numer = product (map (fun rc => 3 + snd rc - fst rc) (cells [2; 1]%Z))%Z /\
    hook_content_formula [2; 1]%Z 3
    = (if (float_overflow * denom <=? Z.abs numer)%Z then inl OverflowError
       else inr (IZR numer / IZR denom)%R) /\
    ((Z.abs numer < float_overflow)%Z ->
     hook_content_formula [2; 1]%Z 3 = inr (IZR numer / IZR denom)%R).
Proof.
  apply (hook_content_formula_returns [2; 1]%Z 3); [discriminate | reflexivity].
Defined.

(** X8. For [n >= 0] the numerator on a diagram is never negative, and it
    is zero, so that the formula returns zero, exactly when the diagram
    has more than [n] non-empty rows. *)
Theorem hook_content_formula_vanishes (lmd : list Z) (n : Z) :
  lmd <> [] ->
  non_increasing lmd = true ->
  (0 <= n)%Z ->
  exists numer denom,
    hook_content_products lmd n = Return (numer, denom) /\
    (0 <= numer)%Z /\
    (numer = 0%Z <-> (n < rows_longer_than lmd 0)%Z) /\
    ((n < rows_longer_than lmd 0)%Z -> hook_content_formula lmd n = inr 0%R).
Proof.
  intros Hne Hs Hn. destruct lmd as [|l0 rest]; [contradiction|].
  destruct (hook_content_products_diagram l0 rest n Hs)
    as (numer & denom & Hp & Hpos & Hnum).
  apply non_increasing_later_not_longer in Hs.
  set (lmd := l0 :: rest) in *.
  exists numer, denom. split; [exact Hp|].
  destruct (Z.lt_ge_cases n (rows_longer_than lmd 0)) as [Hmore|Hfew].
  - assert (H0 : numer = 0%Z).
    { rewrite Hnum. apply product_zero. apply in_map_iff.
      exists (n, 0%Z). cbn [fst snd]. split; [lia|].
      apply in_cells.
      assert (Hk : (Z.of_nat (Z.to_nat n) < rows_longer_than lmd 0)%Z) by lia.
      apply rows_longer_than_prefix in Hk as (l & Hl & Hle); [|exact Hs].
      exists (Z.to_nat n), l. repeat split; try lia. exact Hl. }
    split; [lia|]. split; [split; auto|]. intros _.
    unfold hook_content_formula. unfold Return in Hp. rewrite Hp, H0.
    rewrite true_divide_small by (pose proof float_overflow_positive; lia).
    f_equal. unfold Rdiv. apply Rmult_0_l.
  - assert (H0 : (0 < numer)%Z).
    { rewrite Hnum. apply product_positive. apply List.Forall_forall.
      intros x Hx. apply in_map_iff in Hx as ([r c] & <- & Hrc).
      apply in_cells in Hrc as (k & l & -> & Hl & Hc). cbn [fst snd].
      assert (Z.of_nat k < rows_longer_than lmd 0)%Z.
      { apply rows_longer_than_prefix; [exact Hs|]. exists l. split; [exact Hl | lia]. }
      lia. }
    split; [lia|]. split; [lia|]. lia.
Qed.

Lemma hook_content_formula_vanishes_witness :
  exists numer denom,
    hook_content_products [1; 1; 1]%Z 2 = Return (numer, denom) /\
    (0 <= numer)%Z /\
    (numer = 0%Z <-> (2 < rows_longer_than [1; 1; 1]%Z 0)%Z) /\
    ((2 < rows_longer_than [1; 1; 1]%Z 0)%Z ->
     hook_content_formula [1; 1; 1]%Z 2 = inr 0%R).
Proof.
  apply (hook_content_formula_vanishes [1; 1; 1]%Z 2);
    [discriminate | reflexivity | lia].
Defined.

(** X9. A tuple that is not the shape of a diagram makes
    [hook_content_formula] raise [IndexError]: the empty tuple at [lmd[0]],
    and a tuple with a row longer than the first row at [l_cols[id_col]]. *)
Theorem hook_content_formula_index_error (n : Z) :
  hook_content_formula [] n = inl (Exn IndexError) /\
  (forall (l0 : Z) (rest : list Z) (row : Z),
      In row rest -> (Z.max l0 0 < row)%Z ->
      hook_content_formula (l0 :: rest) n = inl (Exn IndexError)).
Proof.
  split; [reflexivity|].
  intros l0 rest row Hin Hrow.
  set (lmd := l0 :: rest).
  set (cols := map (rows_longer_than lmd) (Circle.range l0)).
  assert (Hcell : forall r l a c e,
            cell_step n cols r l a c = inl e -> e = IndexError).
  { intros r l [nu de] c e. unfold cell_step.
    destruct (cols !! Z.to_nat c); [discriminate | now intros [= <-]]. }
  assert (Hstep : forall a b e, row_step n cols a b = inl e -> e = IndexError).
  { intros a [r l] e. unfold row_step.
    apply fold_result_only_raises. apply Hcell. }
  assert (Hfail : exists e,
            fold_result (row_step n cols) (1, 1)%Z (enumerate_from 0 lmd) = inl e).
  { apply list_elem_of_In, list_elem_of_lookup in Hin as [k Hk].
    apply (fold_result_fails _ _ ((0 + Z.of_nat (S k))%Z, row)).
    - apply in_enumerate_from. exists (S k). split; [reflexivity | exact Hk].
    - intros a. unfold row_step.
      apply (fold_result_fails _ _ (Z.max l0 0)).
      + apply in_range. lia.
      + intros [nu de]. unfold cell_step, cols, lmd.
        rewrite l_cols_lookup_beyond by lia. eauto. }
  destruct Hfail as [e He].
  assert (Hprod : hook_content_products lmd n = inl e) by exact He.
  unfold hook_content_formula. fold lmd. rewrite Hprod. f_equal. f_equal.
  eapply fold_result_only_raises; [apply Hstep | exact He].
Qed.

Lemma hook_content_formula_index_error_witness :
  hook_content_formula [1; 2]%Z 3 = inl (Exn IndexError).
Proof.
  apply (proj2 (hook_content_formula_index_error 3) 1%Z [2%Z] 2%Z);
    [left; reflexivity | lia].
Defined.

(** The denominator is the product of the hook lengths of the cells. *)
Lemma cell_fold_denom (n : Z) (cols : list Z) (r l : Z) (cs : list Z)
    (nu de nu' de' : Z) :
  fold_result (cell_step n cols r l) (nu, de) cs = Return (nu', de') ->
  de' = (de * product
                (map (fun c => default 0%Z (cols !! Z.to_nat c) + l - r - c - 1)
                     cs))%Z.
Proof.
  revert nu de. induction cs as [|c cs IH]; intros nu de; cbn [fold_result].
  - intros [= <- <-]. cbn. lia.
  - unfold cell_step at 1.
    destruct (cols !! Z.to_nat c) as [x|] eqn:Hc; [|discriminate].
    cbn. intros H. apply IH in H. rewrite H. cbn [map]. unfold product.
    cbn [fold_right]. rewrite Hc. cbn [default]. unfold id.
    now rewrite Z.mul_assoc.
Qed.

Lemma range_of_nat (k : nat) : Circle.range (Z.of_nat k) = map Z.of_nat (seq 0 k).
Proof. unfold Circle.range. now rewrite Nat2Z.id. Qed.

Lemma seq_snoc (s k : nat) : seq s (S k) = seq s k ++ [(s + k)%nat].
Proof. now rewrite seq_S. Qed.

Lemma product_falling_from (k : nat) :
  product (map (fun i => Z.of_nat (k - i)) (seq 0 k)) = Z.of_nat (fact k).
Proof.
  induction k as [|k IH]; [reflexivity|].
  cbn [seq map]. rewrite <- seq_shift, map_map.
  unfold product in *. cbn [fold_right]. cbn [Nat.sub] in *.
  rewrite IH. cbn [fact]. lia.
Qed.

Lemma product_rising (n k : nat) :
  (1 <= n)%nat ->
  (product (map (fun c => Z.of_nat n + Z.of_nat c) (seq 0 k))
   * Z.of_nat (fact (n - 1)))%Z
  = Z.of_nat (fact (n + k - 1)).
Proof.
  intros Hn. induction k as [|k IH].
  - cbn [seq map]. unfold product. cbn [fold_right].
    replace (n + 0 - 1)%nat with (n - 1)%nat by lia. lia.
  - rewrite seq_snoc, map_app, product_app. cbn [map]. unfold product at 2.
    cbn [fold_right Nat.add].
    replace (n + S k - 1)%nat with (S (n + k - 1)) by lia.
    change (fact (S (n + k - 1))) with (S (n + k - 1) * fact (n + k - 1))%nat.
    rewrite Nat2Z.inj_mul, <- IH.
    replace (Z.of_nat (S (n + k - 1))) with (Z.of_nat n + Z.of_nat k)%Z by lia.
    ring.
Qed.

Lemma product_falling (n m : nat) :
  (m <= n)%nat ->
  (product (map (fun r => Z.of_nat n + 0 - Z.of_nat r) (seq 0 m))
   * Z.of_nat (fact (n - m)))%Z
  = Z.of_nat (fact n).
Proof.
  induction m as [|m IH]; intros Hm.
  - cbn [seq map]. unfold product. cbn [fold_right].
    replace (n - 0)%nat with n by lia. lia.
  - rewrite seq_snoc, map_app, product_app. cbn [map]. unfold product at 2.
    cbn [fold_right Nat.add]. rewrite <- IH by lia.
    replace (n - m)%nat with (S (n - S m)) by lia.
    change (fact (S (n - S m))) with (S (n - S m) * fact (n - S m))%nat.
    rewrite Nat2Z.inj_mul.
    replace (Z.of_nat (S (n - S m))) with (Z.of_nat n - Z.of_nat m)%Z by lia.
    ring.
Qed.

Lemma rows_longer_than_one_row (k c : Z) :
  (0 <= c < k)%Z -> rows_longer_than [k] c = 1%Z.
Proof.
  intros Hc. unfold rows_longer_than. cbn [map fold_right].
  destruct (Z.geb_spec k (c + 1)); lia.
Qed.

(** X10. For the one-row diagram [(k)] and [n >= 1] the formula is the
    binomial coefficient [(n + k - 1)! / (k! (n - 1)!)]: the denominator is
    [k!] and the numerator is [(n + k - 1)! / (n - 1)!].  The quotient is
    returned when it is not too large for a float, as it is when
    [(n + k - 1)!] is below the overflow threshold; otherwise the division
    raises [OverflowError]. *)
Theorem hook_content_formula_one_row (k n : nat) :
  (1 <= n)%nat ->
  exists numer denom,
    hook_content_products [Z.of_nat k] (Z.of_nat n) = Return (numer, denom) /\
    denom = Z.of_nat (fact k) /\
    (numer * Z.of_nat (fact (n - 1)))%Z = Z.of_nat (fact (n + k - 1)) /\
    hook_content_formula [Z.of_nat k] (Z.of_nat n)
    = (if (float_overflow * denom <=? numer)%Z then inl OverflowError
       else inr (IZR numer / IZR denom)%R) /\
    ((Z.of_nat (fact (n + k - 1)) < float_overflow)%Z ->
     hook_content_formula [Z.of_nat k] (Z.of_nat n)
     = inr (IZR numer / IZR denom)%R).
Proof.
  intros Hn.
  destruct (hook_content_products_diagram (Z.of_nat k) [] (Z.of_nat n) eq_refl)
    as (numer & denom & Hp & Hpos & Hnum).
  exists numer, denom. split; [exact Hp|].
  assert (Hden : denom = Z.of_nat (fact k)).
  { pose proof Hp as Hrow.
    unfold hook_content_products, l_cols, enumerate_from in Hrow.
    cbn [fold_result] in Hrow. unfold row_step, Return in Hrow.
    destruct (fold_result
                (cell_step (Z.of_nat n)
                   (map (rows_longer_than [Z.of_nat k])
                      (Circle.range (Z.of_nat k))) 0 (Z.of_nat k))
                (1, 1)%Z (Circle.range (Z.of_nat k)))
      as [e|[nu de]] eqn:Hcells; [discriminate|].
    injection Hrow as -> ->. rename Hcells into Hrow.
    apply cell_fold_denom in Hrow. rewrite Hrow, Z.mul_1_l.
    rewrite <- product_falling_from, range_of_nat, map_map.
    f_equal. apply map_ext_in. intros i Hi. apply in_seq in Hi.
    rewrite lookup_map, Nat2Z.id, lookup_map, lookup_seq_lt by lia.
    cbn [fmap option_fmap option_map default Nat.add].
    rewrite rows_longer_than_one_row by lia. unfold Datatypes.id. lia. }
  assert (Hfact : (numer * Z.of_nat (fact (n - 1)))%Z
                  = Z.of_nat (fact (n + k - 1))).
  { rewrite Hnum, <- (product_rising n k Hn). f_equal. f_equal.
    unfold cells, enumerate_from. cbn [flat_map fst snd].
    rewrite app_nil_r, range_of_nat, !map_map. apply map_ext. intros c.
    cbn [fst snd]. lia. }
  assert (Hbound : (0 < numer <= Z.of_nat (fact (n + k - 1)))%Z).
  { pose proof (lt_O_fact (n - 1)). pose proof (lt_O_fact (n + k - 1)). nia. }
  split; [exact Hden|]. split; [exact Hfact|].
  unfold hook_content_formula. unfold Return in Hp. rewrite Hp. split.
  - rewrite true_divide_positive by exact Hpos.
    now rewrite (Z.abs_eq numer) by lia.
  - intros Hsmall. apply true_divide_small; [exact Hpos | lia].
Qed.

Lemma hook_content_formula_one_row_witness :
  exists numer denom,
    hook_content_products [Z.of_nat 2] (Z.of_nat 3) = Return (numer, denom) /\
    denom = Z.of_nat (fact 2) /\
    (numer * Z.of_nat (fact (3 - 1)))%Z = Z.of_nat (fact (3 + 2 - 1)) /\
    hook_content_formula [Z.of_nat 2] (Z.of_nat 3)
    = (if (float_overflow * denom <=? numer)%Z then inl OverflowError
       else inr (IZR numer / IZR denom)%R) /\
    ((Z.of_nat (fact (3 + 2 - 1)) < float_overflow)%Z ->
     hook_content_formula [Z.of_nat 2] (Z.of_nat 3)
     = inr (IZR numer / IZR denom)%R).
Proof. apply (hook_content_formula_one_row 2 3). lia. Defined.

Lemma row_fold_denom (n : Z) (cols : list Z) (rows : list (Z * Z))
    (nu de nu' de' : Z) :
  fold_result (row_step n cols) (nu, de) rows = Return (nu', de') ->
  de' = (de * product
                (map (fun rc : Z * Z * Z =>
                        default 0%Z (cols !! Z.to_nat (snd rc))
                        + snd (fst rc) - fst (fst rc) - snd rc - 1)
                     (flat_map (fun row => map (fun c => (row, c))
                                             (Circle.range (snd row)))
                               rows)))%Z.
Proof.
  revert nu de. induction rows as [|[r l] rows IH]; intros nu de; cbn [fold_result].
  - intros [= <- <-]. cbn. lia.
  - unfold row_step at 1.
    destruct (fold_result (cell_step n cols r l) (nu, de) (Circle.range l))
      as [e|[nu1 de1]] eqn:Hrow; [discriminate|].
    intros H. apply IH in H. apply cell_fold_denom in Hrow.
    rewrite H, Hrow. cbn [flat_map fst snd].
    rewrite map_app, product_app, map_map. cbn [fst snd].
    now rewrite Z.mul_assoc.
Qed.

Lemma non_increasing_repeat (a : Z) (m : nat) :
  non_increasing (repeat a m) = true.
Proof.
  induction m as [|m IH]; [reflexivity|].
  cbn [repeat]. destruct m as [|m]; [reflexivity|].
  cbn [repeat non_increasing] in *. rewrite IH, Z.leb_refl. reflexivity.
Qed.

Lemma enumerate_from_repeat {A : Type} (start : Z) (a : A) (m : nat) :
  enumerate_from start (repeat a m)
  = map (fun r => ((start + Z.of_nat r)%Z, a)) (seq 0 m).
Proof.
  revert start. induction m as [|m IH]; intros start; [reflexivity|].
  cbn [repeat enumerate_from seq map]. rewrite IH, <- seq_shift, map_map.
  f_equal; [f_equal; lia|]. apply map_ext. intros r. f_equal. lia.
Qed.

Lemma rows_longer_than_column (m : nat) :
  rows_longer_than (repeat 1%Z m) 0 = Z.of_nat m.
Proof.
  unfold rows_longer_than. induction m as [|m IH]; [reflexivity|].
  cbn [repeat map fold_right]. rewrite IH.
  change (1 >=? 0 + 1)%Z with true. cbv iota. lia.
Qed.

Lemma flat_map_singletons {A B : Type} (f : A -> B) (l : list A) :
  flat_map (fun a => [f a]) l = map f l.
Proof. induction l as [|a l IH]; [reflexivity|]. cbn. now rewrite IH. Qed.

(** X11. For the one-column diagram of [m] rows, [1 <= m <= n], the formula
    is the binomial coefficient [n! / (m! (n - m)!)]: the denominator is
    [m!] and the numerator is [n! / (n - m)!].  The quotient is returned
    when it is not too large for a float, as it is when [n!] is below the
    overflow threshold; otherwise the division raises [OverflowError]. *)
Theorem hook_content_formula_one_column (m n : nat) :
  (1 <= m <= n)%nat ->
  exists numer denom,
    hook_content_products (repeat 1%Z m) (Z.of_nat n) = Return (numer, denom) /\
    denom = Z.of_nat (fact m) /\
    (numer * Z.of_nat (fact (n - m)))%Z = Z.of_nat (fact n) /\
    hook_content_formula (repeat 1%Z m) (Z.of_nat n)
    = (if (float_overflow * denom <=? numer)%Z then inl OverflowError
       else inr (IZR numer / IZR denom)%R) /\
    ((Z.of_nat (fact n) < float_overflow)%Z ->
     hook_content_formula (repeat 1%Z m) (Z.of_nat n)
     = inr (IZR numer / IZR denom)%R).
Proof.
  intros Hm. destruct m as [|m']; [lia|]. set (m := S m') in *.
  assert (Hrep : repeat 1%Z m = 1%Z :: repeat 1%Z m') by reflexivity.
  pose proof (non_increasing_repeat 1%Z m) as Hs. rewrite Hrep in Hs.
  destruct (hook_content_products_diagram 1%Z (repeat 1%Z m') (Z.of_nat n) Hs)
    as (numer & denom & Hp & Hpos & Hnum).
  rewrite <- Hrep in Hp, Hnum.
  exists numer, denom. split; [exact Hp|].
  assert (Hcells : flat_map
            (fun row : Z * Z => map (fun c => (row, c)) (Circle.range (snd row)))
            (enumerate_from 0 (repeat 1%Z m))
          = map (fun r => ((Z.of_nat r, 1%Z), 0%Z)) (seq 0 m)).
  { rewrite enumerate_from_repeat, flat_map_concat_map, map_map.
    rewrite <- flat_map_concat_map.
    rewrite (flat_map_ext _ (fun r => [((Z.of_nat r, 1%Z), 0%Z)]))
      by (intros r; reflexivity).
    apply flat_map_singletons. }
  assert (Hfact : (numer * Z.of_nat (fact (n - m)))%Z = Z.of_nat (fact n)).
  { rewrite Hnum, <- (product_falling n m) by lia. f_equal. f_equal.
    unfold cells. rewrite enumerate_from_repeat, flat_map_concat_map, map_map.
    rewrite <- flat_map_concat_map.
    rewrite (flat_map_ext _ (fun r => [(Z.of_nat r, 0%Z)]))
      by (intros r; reflexivity).
    rewrite flat_map_singletons, map_map. apply map_ext. intros r.
    cbn [fst snd]. lia. }
  assert (Hbound : (0 < numer <= Z.of_nat (fact n))%Z).
  { pose proof (lt_O_fact (n - m)). pose proof (lt_O_fact n). nia. }
  split; [|split; [exact Hfact|]].
  - pose proof Hp as Hrow. unfold hook_content_products in Hrow.
    rewrite Hrep in Hrow at 1. cbn [l_cols] in Hrow. unfold Return in Hrow.
    rewrite <- Hrep in Hrow. apply row_fold_denom in Hrow.
    rewrite Hrow, Z.mul_1_l, Hcells, map_map. cbn [fst snd].
    rewrite <- product_falling_from. f_equal. apply map_ext_in.
    intros r Hr. apply in_seq in Hr.
    change (default 0%Z
              (map (rows_longer_than (repeat 1%Z m)) (Circle.range 1)
                 !! Z.to_nat 0))
      with (rows_longer_than (repeat 1%Z m) 0).
    rewrite rows_longer_than_column. lia.
  - unfold hook_content_formula. unfold Return in Hp. rewrite Hp. split.
    + rewrite true_divide_positive by exact Hpos.
      now rewrite (Z.abs_eq numer) by lia.
    + intros Hsmall. apply true_divide_small; [exact Hpos | lia].
Qed.

Lemma hook_content_formula_one_column_witness :
  exists numer denom,
    hook_content_products (repeat 1%Z 2) (Z.of_nat 4) = Return (numer, denom) /\
    denom = Z.of_nat (fact 2) /\
    (numer * Z.of_nat (fact (4 - 2)))%Z = Z.of_nat (fact 4) /\
    hook_content_formula (repeat 1%Z 2) (Z.of_nat 4)
    = (if (float_overflow * denom <=? numer)%Z then inl OverflowError
       else inr (IZR numer / IZR denom)%R) /\
    ((Z.of_nat (fact 4) < float_overflow)%Z ->
     hook_content_formula (repeat 1%Z 2) (Z.of_nat 4)
     = inr (IZR numer / IZR denom)%R).
Proof. apply (hook_content_formula_one_column 2 4). lia. Defined.

Example hook_content_two_one :
  hook_content_products [2; 1]%Z 3 = Return (24, 3)%Z.
Proof. reflexivity. Qed.

End StiefelFacts.

(** ** The back-end's hyperbolic functions and the hyperbolic space *)

Section HyperbolicFacts.

Import Tensor LabMath HyperbolicSpace.
Local Open Scope R_scope.

Lemma exp_opp_mul (x : R) : exp x * exp (- x) = 1.
Proof. rewrite <- exp_plus. replace (x + - x) with 0 by lra. apply exp_0. Qed.

Lemma cosh_increasing (x y : R) : 0 <= x < y -> cosh x < cosh y.
Proof.
  unfold cosh. intros [H0 Hxy].
  pose proof (exp_opp_mul x) as Hx. pose proof (exp_pos x) as Hp.
  pose proof (exp_opp_mul y) as Hy. pose proof (exp_pos y) as Hpy.
  pose proof (exp_pos (- x)) as Hn. pose proof (exp_pos (- y)) as Hny.
  assert (Hlt : exp x < exp y) by (apply exp_increasing; lra).
  assert (H1 : 1 <= exp x).
  { destruct (Req_dec x 0) as [->|Hne]; [rewrite exp_0; lra|].
    pose proof (exp_ineq1 x Hne). lra. }
  assert (Hnx : exp (- x) <= 1).
  { apply Rmult_le_reg_l with (exp x); [exact Hp|]. lra. }
  assert (Hny1 : exp (- y) < 1).
  { apply Rmult_lt_reg_l with (exp y); [exact Hpy|]. lra. }
  assert (Hid : exp y + exp (- y) - (exp x + exp (- x))
                = (exp y - exp x) * (1 - exp (- x) * exp (- y))).
  { transitivity (exp y - exp x - exp (- x) * (exp y * exp (- y))
                  + exp (- y) * (exp x * exp (- x)));
      [rewrite Hx, Hy; ring | ring]. }
  assert (Hprod : exp (- x) * exp (- y) < 1).
  { apply Rle_lt_trans with (1 * exp (- y)); [|lra].
    apply Rmult_le_compat_r; lra. }
  assert (0 < (exp y - exp x) * (1 - exp (- x) * exp (- y)))
    by (apply Rmult_lt_0_compat; lra).
  lra.
Qed.











(** X15. With [diag=True] the distance of the points paired position by
    position is the diagonal of the matrix that [diag=False] computes for
    the same two arrays. *)
Theorem distance_diag_is_diagonal (self : Hyperbolic) (X Y : list (list R))
    (i : nat) :
  distance_diag self X Y !! i
  = distance self (Points X) (Points Y) !! i ≫= (fun row => row !! i).
Proof.
  unfold distance_diag, distance, as_matrix.
  rewrite lookup_zip_with, lookup_map.
  destruct (X !! i) as [a|]; cbn [fmap option_fmap option_map mbind option_bind];
    [|reflexivity].
  rewrite lookup_map. destruct (Y !! i); reflexivity.
Qed.



(** X17. [heat_kernel] is defined for the dimensions one, two and three,
    where it returns one value for every entry of [distance] and every
    entry of [t], an [[N1, N2, T]] tensor; for every other dimension it
    raises [NotImplementedError]. *)
Theorem heat_kernel_shape (self : Hyperbolic) (D : list (list R)) (t : list R)
    (num_points : nat) :
  ((1 <= dimension self <= 3)%Z ->
   exists T,
     heat_kernel self D t num_points = Return T /\
     length T = length D /\
     Forall2 (fun Ti Di =>
                length Ti = length Di /\
                Forall (fun Tij => length Tij = length t) Ti) T D) /\
  (~ (1 <= dimension self <= 3)%Z ->
   heat_kernel self D t num_points = Raise NotImplementedError).
Proof.
  assert (Hshape : forall f : R -> R -> R,
    Forall2 (fun (Ti : list (list R)) (Di : list R) =>
               length Ti = length Di /\
               Forall (fun Tij => length Tij = length t) Ti)
            (map (map (fun d => map (fun ti => f d ti) t)) D) D).
  { intros f. induction D as [|Di D IH]; constructor; [|exact IH].
    split; [apply length_map|].
    apply List.Forall_forall. intros Tij Hin.
    apply in_map_iff in Hin as (d & <- & _). apply length_map. }
  unfold heat_kernel. split.
  - intros Hd.
    destruct (Z.eqb_spec (dimension self) 1);
      [|destruct (Z.eqb_spec (dimension self) 2);
        [|destruct (Z.eqb_spec (dimension self) 3); [|lia]]];
      eexists; (split; [reflexivity|]); (split; [apply length_map|]).
    + apply (Hshape heat_kernel_1).
    + apply (Hshape (fun d ti => heat_kernel_2 d ti num_points)).
    + apply (Hshape heat_kernel_3).
  - intros Hd.
    destruct (Z.eqb_spec (dimension self) 1); [lia|].
    destruct (Z.eqb_spec (dimension self) 2); [lia|].
    destruct (Z.eqb_spec (dimension self) 3); [lia|]. reflexivity.
Qed.

Lemma heat_kernel_shape_witness :
  (exists T,
     heat_kernel {| dim := 2 |} [[0; 1]; [1; 0]] [1 / 2] 100 = Return T /\
     length T = 2%nat /\
     Forall2 (fun Ti Di =>
                length Ti = length Di /\
                Forall (fun Tij => length Tij = 1%nat) Ti)
             T [[0; 1]; [1; 0]]) /\
  heat_kernel {| dim := 4 |} [[0; 1]; [1; 0]] [1 / 2] 100
  = Raise NotImplementedError.
Proof.
  split.
  - apply (proj1 (heat_kernel_shape {| dim := 2 |} [[0; 1]; [1; 0]] [1 / 2]
                    100)).
    simpl. lia.
  - apply (proj2 (heat_kernel_shape {| dim := 4 |} [[0; 1]; [1; 0]] [1 / 2]
                    100)).
    simpl. lia.
Defined.

(** X18. In dimension one, for a time in [(0, 1e4]] and distances in
    [[0, 200]], a range in which neither the square of the distance nor
    four times the time overflows in any floating-point format down to
    half precision, the heat kernel is one at distance zero, never
    negative, at most one, and does not increase with the distance. *)
Theorem heat_kernel_1_decreasing (d1 d2 t : R) :
  0 < t <= 1e4 -> 0 <= d1 <= d2 -> d2 <= 200 ->
  heat_kernel_1 0 t = 1 /\
  0 <= heat_kernel_1 d2 t /\
  heat_kernel_1 d2 t <= heat_kernel_1 d1 t /\
  heat_kernel_1 d1 t <= 1.
Proof.
  intros [Ht _] [H1 H12] _. unfold heat_kernel_1.
  assert (Hmono : forall u v, 0 <= u <= v ->
            exp (- (v ^ 2) / (4 * t)) <= exp (- (u ^ 2) / (4 * t))).
  { intros u v [Hu Huv].
    assert (Hle : - (v ^ 2) / (4 * t) <= - (u ^ 2) / (4 * t)).
    { unfold Rdiv. apply Rmult_le_compat_r;
        [left; apply Rinv_0_lt_compat; lra | nra]. }
    destruct Hle as [Hlt|Heq]; [left; now apply exp_increasing | rewrite Heq; lra]. }
  assert (H0 : exp (- (0 ^ 2) / (4 * t)) = 1).
  { replace (- (0 ^ 2) / (4 * t)) with 0 by (field; lra). apply exp_0. }
  split; [exact H0|]. split; [left; apply exp_pos|]. split; [apply Hmono; lra|].
  rewrite <- H0. apply Hmono. lra.
Qed.

Lemma heat_kernel_1_decreasing_witness :
  heat_kernel_1 0 (1 / 2) = 1 /\
  0 <= heat_kernel_1 2 (1 / 2) /\
  heat_kernel_1 2 (1 / 2) <= heat_kernel_1 1 (1 / 2) /\
  heat_kernel_1 1 (1 / 2) <= 1.
Proof. apply (heat_kernel_1_decreasing 1 2 (1 / 2)); lra. Defined.

End HyperbolicFacts.

(** ** Random-state utilities: wrapping twice, where the key goes *)

Section UtilsMoreFacts.

Import Utils.

Variables rstate data res : Type.

Lemma index_lookup (x : string) (l : list string) (p : nat) :
  index x l = Some p -> l !! p = Some x.
Proof.
  revert p. induction l as [|y l IH]; intros p; cbn [index]; [discriminate|].
  destruct (String.eqb_spec x y) as [->|Hne].
  - now intros [= <-].
  - destruct (index x l) as [q|]; [|discriminate].
    cbn. intros [= <-]. now apply IH.
Qed.

(** X21. The function returned by [make_deterministic] takes any
    arguments and has no argument named ['key'], so wrapping it again, with
    any key and in any state of the generator, returns it as it is:
    [make_deterministic] is idempotent. *)
Theorem make_deterministic_idempotent
    (f : function rstate data res) (key key' : value data) (s0 s1 : rstate) :
  make_deterministic rstate data res
    (fst (make_deterministic rstate data res f key s0)) key' s1
  = (fst (make_deterministic rstate data res f key s0), s1).
Proof.
  unfold make_deterministic at 2 3.
  destruct (find_key_argtype rstate data res f) as [t|] eqn:Ht; cbn [fst].
  - reflexivity.
  - unfold make_deterministic. now rewrite Ht.
Qed.

(** X22. How the restored key reaches [f].  A positional ['key'] at position
    [p] of the signature is inserted at position [p] of the arguments when
    at least [p] of them are given, the others keeping their order, and is
    appended at the end when fewer are given; a keyword-only ['key'] is
    stored under ['key'] in the keyword arguments, replacing a key the
    caller may have passed there. *)
Theorem make_deterministic_places_key
    (f : function rstate data res) (key : value data) (s0 : rstate) :
  (forall p, index "key" (args (getfullargspec rstate data res f)) = Some p ->
     forall a kw s,
       apply rstate data res
         (fst (make_deterministic rstate data res f key s0)) a kw s
       = apply rstate data res f (take p a ++ key :: drop p a) kw s0 /\
       ((p <= length a)%nat ->
        (take p a ++ key :: drop p a) !! p = Some key /\
        take p (take p a ++ key :: drop p a) = take p a /\
        drop (S p) (take p a ++ key :: drop p a) = drop p a) /\
       ((length a < p)%nat -> take p a ++ key :: drop p a = a ++ [key])) /\
  (index "key" (args (getfullargspec rstate data res f)) = None ->
   "key"%string ∈ kwonlyargs (getfullargspec rstate data res f) ->
   forall a kw s,
     apply rstate data res
       (fst (make_deterministic rstate data res f key s0)) a kw s
     = apply rstate data res f a (<["key"%string := key]> kw) s0 /\
     <["key"%string := key]> kw !! "key"%string = Some key).
Proof.
  split.
  - intros p Hp a kw s. split; [|split].
    + unfold make_deterministic, find_key_argtype. rewrite Hp. reflexivity.
    + intros Hle.
      assert (Hlen : length (take p a) = p) by (rewrite length_take; lia).
      split; [|split].
      * rewrite lookup_app_r by lia. rewrite Hlen, Nat.sub_diag. reflexivity.
      * rewrite take_app_le by lia. rewrite take_take. f_equal. lia.
      * rewrite drop_app_ge by lia. rewrite Hlen.
        replace (S p - p)%nat with 1%nat by lia. reflexivity.
    + intros Hlt. rewrite take_ge, drop_ge by lia. reflexivity.
  - intros Hnone Hkw a kw s. split; [|apply lookup_insert_eq].
    unfold make_deterministic, find_key_argtype. rewrite Hnone.
    rewrite bool_decide_eq_true_2 by exact Hkw. reflexivity.
Qed.

End UtilsMoreFacts.

Lemma make_deterministic_places_key_witness :
  Utils.apply nat unit nat
    (fst (Utils.make_deterministic nat unit nat Utils.draw Utils.Key 7%nat))
    [Utils.Datum tt; Utils.Datum tt] ∅ 0%nat
  = Utils.apply nat unit nat Utils.draw
      (take 1 [Utils.Datum tt; Utils.Datum tt]
       ++ Utils.Key :: drop 1 [Utils.Datum tt; Utils.Datum tt]) ∅ 7%nat /\
  ((1 <= length [@Utils.Datum unit tt; Utils.Datum tt])%nat ->
   (take 1 [Utils.Datum tt; Utils.Datum tt]
    ++ Utils.Key :: drop 1 [Utils.Datum tt; Utils.Datum tt]) !! 1%nat
   = Some Utils.Key /\
   take 1 (take 1 [Utils.Datum tt; Utils.Datum tt]
           ++ Utils.Key :: drop 1 [Utils.Datum tt; Utils.Datum tt])
   = take 1 [Utils.Datum tt; Utils.Datum tt] /\
   drop 2 (take 1 [Utils.Datum tt; Utils.Datum tt]
           ++ Utils.Key :: drop 1 [Utils.Datum tt; Utils.Datum tt])
   = drop 1 [Utils.Datum tt; Utils.Datum tt]) /\
  ((length [@Utils.Datum unit tt; Utils.Datum tt] < 1)%nat ->
   take 1 [Utils.Datum tt; Utils.Datum tt]
   ++ Utils.Key :: drop 1 [Utils.Datum tt; Utils.Datum tt]
   = [Utils.Datum tt; Utils.Datum tt] ++ [Utils.Key]).
Proof.
  apply (proj1 (make_deterministic_places_key nat unit nat Utils.draw
                  Utils.Key 7%nat) 1%nat).
  reflexivity.
Defined.

(** ** Feature maps: inner products and shapes *)

Section FeatureMapMoreFacts.

Import Tensor.
Local Open Scope R_scope.

Lemma weighted_dot (s u v : list R) :
  Forall (fun x => 0 <= x) s ->
  sum (zip_with Rmult (zip_with Rmult u (map sqrt s))
                      (zip_with Rmult v (map sqrt s)))
  = sum (zip_with Rmult s (zip_with Rmult u v)).
Proof.
  intros Hs. revert u v. induction Hs as [|x s Hx Hs IH]; intros u v.
  - cbn [map]. now rewrite !zip_with_nil_r.
  - destruct u as [|a u]; [reflexivity|].
    destruct v as [|b v]; [reflexivity|].
    cbn [map zip_with sum fold_right].
    fold (sum (zip_with Rmult (zip_with Rmult u (map sqrt s))
                              (zip_with Rmult v (map sqrt s)))).
    fold (sum (zip_with Rmult s (zip_with Rmult u v))).
    rewrite IH. pose proof (sqrt_sqrt x Hx) as Hsq.
    replace (a * sqrt x * (b * sqrt x)) with (a * b * (sqrt x * sqrt x)) by ring.
    rewrite Hsq. ring.
Qed.

(** X23. The deterministic feature map raises [AssertionError] when the
    state lacks one of its two keys.  Otherwise, for points of a floating
    dtype, so that the casts to the dtype of the points change nothing,
    when the eigenfunctions return as many columns as the spectrum has
    values and no value of the spectrum is negative, it returns one row of
    features for each point, and the inner product of the features of two
    points is the sum over the eigenfunctions of the spectrum times the
    product of the eigenfunction at the two points, the expansion of the
    kernel. *)
Theorem deterministic_features_inner_product (point : Type)
    (cast : list point -> R -> R)
    (space : CompactFeatureMaps.DiscreteSpectrumSpace)
    (kernel : CompactFeatureMaps.MaternKarhunenLoeveKernel)
    (prm : CompactFeatureMaps.kernel_params)
    (state : CompactFeatureMaps.kernel_state point)
    (X Y : list point) :
  ((CompactFeatureMaps.eigenvalues_laplacian point state = None \/
    CompactFeatureMaps.eigenfunctions point state = None) ->
   CompactFeatureMaps._map point cast space kernel X prm state
   = Raise (AssertionError EmptyString)) /\
  (forall ev Phi,
      CompactFeatureMaps.eigenvalues_laplacian point state = Some ev ->
      CompactFeatureMaps.eigenfunctions point state = Some Phi ->
      let spectrum :=
        CompactFeatureMaps._spectrum kernel
          (map sqrt (CompactFeatureMaps.get_repeated_eigenvalues space
                       (CompactFeatureMaps.num_eigenfunctions kernel)))
          (CompactFeatureMaps.nu prm) (CompactFeatureMaps.lengthscale prm) in
      Forall (fun s => 0 <= s) spectrum ->
      (forall v, cast X v = v) -> (forall v, cast Y v = v) ->
      CompactFeatureMaps.columns (Phi X) = length spectrum ->
      CompactFeatureMaps.columns (Phi Y) = length spectrum ->
      exists FX FY,
        CompactFeatureMaps._map point cast space kernel X prm state
        = Return FX /\
        CompactFeatureMaps._map point cast space kernel Y prm state
        = Return FY /\
        length FX = length (CompactFeatureMaps.rows (Phi X)) /\
        forall i j fx fy,
          FX !! i = Some fx -> FY !! j = Some fy ->
          exists px py,
            CompactFeatureMaps.rows (Phi X) !! i = Some px /\
            CompactFeatureMaps.rows (Phi Y) !! j = Some py /\
            sum (zip_with Rmult fx fy)
            = sum (zip_with Rmult spectrum (zip_with Rmult px py))).
Proof.
  split.
  - intros [H|H]; unfold CompactFeatureMaps._map; rewrite H;
      [|destruct (CompactFeatureMaps.eigenvalues_laplacian point state)];
      reflexivity.
  - intros ev Phi Hev HPhi spectrum Hpos HcX HcY HX HY.
    assert (Hrun : forall Z0,
      (forall v, cast Z0 v = v) ->
      CompactFeatureMaps.columns (Phi Z0) = length spectrum ->
      CompactFeatureMaps._map point cast space kernel Z0 prm state
      = Return (map (fun row => zip_with Rmult row (map sqrt spectrum))
                    (CompactFeatureMaps.rows (Phi Z0)))).
    { intros Z0 Hc HZ. unfold CompactFeatureMaps._map. rewrite Hev, HPhi.
      unfold CompactFeatureMaps.broadcast_mul.
      cbn [CompactFeatureMaps.columns CompactFeatureMaps.rows].
      rewrite bool_decide_eq_true_2 by (rewrite !length_map; exact HZ).
      f_equal.
      rewrite (map_ext (cast Z0) (fun v => v)) by exact Hc.
      rewrite (map_ext (map (cast Z0)) (fun row => row))
        by (intros row; rewrite (map_ext (cast Z0) (fun v => v)) by exact Hc;
            apply map_id).
      now rewrite !map_id. }
    eexists. eexists.
    split; [apply Hrun; assumption|]. split; [apply Hrun; assumption|].
    split; [apply length_map|].
    intros i j fx fy Hfx Hfy. rewrite lookup_map in Hfx, Hfy.
    destruct (CompactFeatureMaps.rows (Phi X) !! i) as [px|]; [|discriminate].
    destruct (CompactFeatureMaps.rows (Phi Y) !! j) as [py|]; [|discriminate].
    cbn in Hfx, Hfy. injection Hfx as <-. injection Hfy as <-.
    exists px, py. split; [reflexivity|]. split; [reflexivity|].
    now apply weighted_dot.
Qed.

Lemma deterministic_features_inner_product_witness :
  exists FX,
    CompactFeatureMaps._map R (fun _ v => v)
      {| CompactFeatureMaps.get_repeated_eigenvalues := fun _ => [0; 1] |}
      {| CompactFeatureMaps.num_eigenfunctions := 2;
         CompactFeatureMaps._spectrum := fun s _ _ => map (fun _ => 1) s |}
      [2]
      {| CompactFeatureMaps.nu := 1; CompactFeatureMaps.lengthscale := 1 |}
      {| CompactFeatureMaps.eigenvalues_laplacian := Some [0; 1];
         CompactFeatureMaps.eigenfunctions :=
           Some (fun X =>
                   {| CompactFeatureMaps.columns := 2;
                      CompactFeatureMaps.rows := map (fun x => [1; x]) X |}) |}
    = Return FX /\ length FX = 1%nat.
Proof.
  edestruct (proj2 (deterministic_features_inner_product R (fun _ v => v)
      {| CompactFeatureMaps.get_repeated_eigenvalues := fun _ => [0; 1] |}
      {| CompactFeatureMaps.num_eigenfunctions := 2;
         CompactFeatureMaps._spectrum := fun s _ _ => map (fun _ => 1) s |}
      {| CompactFeatureMaps.nu := 1; CompactFeatureMaps.lengthscale := 1 |}
      {| CompactFeatureMaps.eigenvalues_laplacian := Some [0; 1];
         CompactFeatureMaps.eigenfunctions :=
           Some (fun X =>
                   {| CompactFeatureMaps.columns := 2;
                      CompactFeatureMaps.rows := map (fun x => [1; x]) X |}) |}
      [2] [3])
      [0; 1]
      (fun X =>
         {| CompactFeatureMaps.columns := 2;
            CompactFeatureMaps.rows := map (fun x => [1; x]) X |}))
    as (FX & FY & HX & HY & Hlen & _).
  - reflexivity.
  - reflexivity.
  - cbn. repeat constructor; lra.
  - reflexivity.
  - reflexivity.
  - reflexivity.
  - reflexivity.
  - exists FX. split; [exact HX | exact Hlen].
Defined.

(** X24. When the two samplers return [num_random_phases] values each, the
    random-phase feature map for non-compact spaces returns the key left by
    the second sampler, the first having been given the caller's key and
    the second the key left by the first, and one row of
    [2 * num_random_phases] features for each point. *)
Theorem map_features_shape_and_key (point phase key params : Type)
    (sample : key -> nat -> params -> Z -> key * list R)
    (space : FeatureMaps.NoncompactSymmetricSpace point phase key)
    (num : nat) (X : list point) (prm : params) (k k1 k2 : key)
    (phases : list phase) (lam : list R) :
  FeatureMaps.random_phases _ _ _ space k num = (k1, phases) ->
  sample k1 num prm (FeatureMaps.dimension _ _ _ space) = (k2, lam) ->
  length phases = num -> length lam = num ->
  let result := FeatureMaps._map point phase key params sample space num X
                                 prm k in
  snd result = k2 /\
  length (fst result) = length X /\
  Forall (fun row => length row = (2 * num)%nat) (fst result).
Proof.
  intros Hph Hlam Hlp Hll result. subst result.
  unfold FeatureMaps._map, FeatureMaps.sampled_features.
  rewrite Hph, Hlam. cbn [fst snd].
  split; [reflexivity|].
  unfold FeatureMaps.divide, FeatureMaps.normalizer, FeatureMaps.unnormalized,
    FeatureMaps.power_matrix.
  split; [rewrite length_zip_with, !length_map; lia|].
  rewrite !map_map.
  apply List.Forall_forall. intros row Hin.
  apply list_elem_of_In, elem_of_lookup_zip_with in Hin
    as (i & urow & n & -> & Hu & Hn).
  rewrite lookup_map in Hu, Hn.
  destruct (X !! i) as [x|]; [|discriminate].
  cbn in Hu, Hn. injection Hu as <-. injection Hn as <-.
  cbn [flat_map]. rewrite app_nil_r.
  rewrite length_map, length_app, !length_zip_with, !length_map,
    !length_zip_with. lia.
Qed.

Lemma map_features_shape_and_key_witness :
  snd (FeatureMaps._map unit unit unit unit
         (fun k n _ _ => (k, repeat 1 n))
         FeatureMaps.flat_space 2 [tt] tt tt) = tt /\
  length (fst (FeatureMaps._map unit unit unit unit
                 (fun k n _ _ => (k, repeat 1 n))
                 FeatureMaps.flat_space 2 [tt] tt tt)) = 1%nat /\
  Forall (fun row => length row = (2 * 2)%nat)
         (fst (FeatureMaps._map unit unit unit unit
                 (fun k n _ _ => (k, repeat 1 n))
                 FeatureMaps.flat_space 2 [tt] tt tt)).
Proof.
  apply (map_features_shape_and_key unit unit unit unit
           (fun k n _ _ => (k, repeat 1 n))
           FeatureMaps.flat_space 2 [tt] tt tt tt tt [tt; tt] [1; 1]
           eq_refl eq_refl eq_refl eq_refl).
Defined.

End FeatureMapMoreFacts.

(** ** The projected character of a Stiefel manifold at the identity *)

Section StiefelEigenfunctionsFacts.

Import Stiefel StiefelEigenfunctions.

(** On a diagram and for [n >= 0] the numerator is not negative, and zero
    exactly when more than [n] rows are non-empty; the denominator is
    positive. *)
Lemma hook_content_numerator_sign (l0 : Z) (rest : list Z) (n : Z) :
  non_increasing (l0 :: rest) = true ->
  (0 <= n)%Z ->
  exists numer denom,
    hook_content_products (l0 :: rest) n = Return (numer, denom) /\
    (0 < denom)%Z /\ (0 <= numer)%Z /\
    (numer = 0%Z <-> (n < rows_longer_than (l0 :: rest) 0)%Z).
Proof.
  intros Hs Hn.
  destruct (hook_content_products_diagram l0 rest n Hs)
    as (numer & denom & Hp & Hpos & Hnum).
  apply non_increasing_later_not_longer in Hs.
  set (lmd := l0 :: rest) in *.
  exists numer, denom. split; [exact Hp|]. split; [exact Hpos|].
  destruct (Z.lt_ge_cases n (rows_longer_than lmd 0)) as [Hmore|Hfew].
  - assert (H0 : numer = 0%Z).
    { rewrite Hnum. apply product_zero. apply in_map_iff.
      exists (n, 0%Z). cbn [fst snd]. split; [lia|].
      apply in_cells.
      assert (Hk : (Z.of_nat (Z.to_nat n) < rows_longer_than lmd 0)%Z) by lia.
      apply rows_longer_than_prefix in Hk as (l & Hl & Hle); [|exact Hs].
      exists (Z.to_nat n), l. repeat split; try lia. exact Hl. }
    split; [lia|]. split; [intros _; exact Hmore | intros _; exact H0].
  - assert (H0 : (0 < numer)%Z).
    { rewrite Hnum. apply product_positive. apply List.Forall_forall.
      intros x Hx. apply in_map_iff in Hx as ([r c] & <- & Hrc).
      apply in_cells in Hrc as (k & l & -> & Hl & Hc). cbn [fst snd].
      assert (Z.of_nat k < rows_longer_than lmd 0)%Z.
      { apply rows_longer_than_prefix; [exact Hs|]. exists l.
        split; [exact Hl | lia]. }
      lia. }
    split; [lia|]. split; [intros Hz; lia | intros Hlt; lia].
Qed.

(** X25. For a signature with as many entries as the rank of the group,
    non-increasing in absolute value, and [0 <= m <= n]: when the entry of
    the signature at position [min(m, n - m)] exists and is not zero,
    whatever its sign, the value of the projected character at the identity
    is zero; otherwise it is a positive number, unless the quotient of the
    hook content formula is too large for a float, in which case its
    division raises [OverflowError]. *)
Theorem projected_character_value_vanishes (M : Manifold)
    (signature : list Z) :
  signature <> [] ->
  non_increasing (map Z.abs signature) = true ->
  (0 <= m M <= n M)%Z ->
  Z.of_nat (length signature) = rank M ->
  ((exists x, signature !! Z.to_nat (Z.min (m M) (n M - m M)) = Some x /\
              x <> 0%Z) ->
   _compute_projected_character_value_at_e M signature = inr 0%R) /\
  (~ (exists x, signature !! Z.to_nat (Z.min (m M) (n M - m M)) = Some x /\
                x <> 0%Z) ->
   _compute_projected_character_value_at_e M signature = inl OverflowError \/
   exists v : R,
     _compute_projected_character_value_at_e M signature = inr v /\
     (0 < v)%R).
Proof.
  intros Hne Hs Hm Hlen.
  unfold _compute_projected_character_value_at_e.
  set (m_ := Z.min (m M) (n M - m M)).
  assert (Hm_ : (0 <= m_)%Z) by (unfold m_; lia).
  destruct signature as [|s0 rest]; [contradiction|].
  set (signature := s0 :: rest) in *.
  destruct (hook_content_numerator_sign (Z.abs s0) (map Z.abs rest) m_ Hs Hm_)
    as (numer & denom & Hp & Hden & Hnum & Hzero).
  change (Z.abs s0 :: map Z.abs rest) with (map Z.abs signature) in *.
  assert (Hrows : (m_ < rows_longer_than (map Z.abs signature) 0)%Z
                  <-> exists x, signature !! Z.to_nat m_ = Some x /\ x <> 0%Z).
  { replace m_ with (Z.of_nat (Z.to_nat m_)) at 1 by lia.
    rewrite rows_longer_than_prefix
      by (apply non_increasing_later_not_longer; exact Hs).
    rewrite lookup_map. split.
    - intros (l & Hl & Hle). destruct (signature !! Z.to_nat m_) as [x|];
        [|discriminate]. cbn in Hl. injection Hl as <-. exists x.
      split; [reflexivity | lia].
    - intros (x & Hx & Hnz). rewrite Hx. exists (Z.abs x).
      split; [reflexivity | lia]. }
  assert (Hformula :
    hook_content_formula (map Z.abs signature) m_
    = if (float_overflow * denom <=? Z.abs numer)%Z then inl OverflowError
      else inr (IZR numer / IZR denom)%R).
  { unfold hook_content_formula. unfold Return in Hp. rewrite Hp.
    now apply true_divide_positive. }
  assert (Hvanish :
    (exists x, signature !! Z.to_nat m_ = Some x /\ x <> 0%Z) ->
    hook_content_formula (map Z.abs signature) m_ = inr 0%R).
  { intros Hx. apply Hrows, Hzero in Hx. subst numer.
    unfold hook_content_formula. unfold Return in Hp. rewrite Hp.
    rewrite true_divide_small by (pose proof float_overflow_positive; lia).
    f_equal. unfold Rdiv. apply Rmult_0_l. }
  assert (Hpositive :
    ~ (exists x, signature !! Z.to_nat m_ = Some x /\ x <> 0%Z) ->
    hook_content_formula (map Z.abs signature) m_ = inl OverflowError \/
    exists v : R,
      hook_content_formula (map Z.abs signature) m_ = inr v /\ (0 < v)%R).
  { intros Hx. rewrite Hformula.
    destruct (float_overflow * denom <=? Z.abs numer)%Z; [now left|].
    right. eexists. split; [reflexivity|].
    assert (0 < numer)%Z
      by (destruct (Z.eq_dec numer 0) as [H0|H0];
          [exfalso; apply Hx, Hrows, Hzero, H0 | lia]).
    unfold Rdiv. apply Rmult_lt_0_compat; [now apply IZR_lt|].
    apply Rinv_0_lt_compat. now apply IZR_lt. }
  destruct (Z.ltb_spec m_ (rank M)) as [Hlt|Hge].
  - unfold getitem, LabExtras.normalize_index.
    replace ((0 <=? m_)%Z && (m_ <? Z.of_nat (length signature))%Z)
      with true by (symmetry; apply andb_true_iff; split;
                    [apply Z.leb_le | apply Z.ltb_lt]; lia).
    destruct (signature !! Z.to_nat m_) as [x|] eqn:Hx.
    + cbn [Return]. destruct (Z.gtb_spec x 0) as [Hxp|Hxn].
      * split; [reflexivity|]. intros Hno. exfalso. apply Hno.
        exists x. split; [reflexivity | lia].
      * split; [exact Hvanish | exact Hpositive].
    + apply lookup_ge_None in Hx. lia.
  - cbn [Return]. split; [exact Hvanish | exact Hpositive].
Qed.

Lemma projected_character_value_vanishes_witness :
  _compute_projected_character_value_at_e
    {| n := 5; m := 1; rank := 2 |} [2; -1]%Z = inr 0%R.
Proof.
  refine (proj1 (projected_character_value_vanishes
                   {| n := 5; m := 1; rank := 2 |} [2; -1]%Z _ _ _ _) _).
  - discriminate.
  - reflexivity.
  - cbn. lia.
  - reflexivity.
  - exists (-1)%Z. split; [reflexivity | lia].
Defined.

End StiefelEigenfunctionsFacts.

(** ** The degree matrix *)

Section DegreeFacts.

Import Tensor LabExtras Degree.
Local Open Scope R_scope.

Lemma diagonal_entries_lookup (d : list R) (s i j : nat) :
  (list_to_map (imap (fun k x => ((s + k, s + k)%nat, x)) d)
     : gmap (nat * nat) R) !! (i, j)
  = if decide (i = j /\ (s <= i)%nat) then d !! (i - s)%nat else None.
Proof.
  revert s. induction d as [|x d IH]; intros s.
  - cbn. destruct (decide _); [|reflexivity].
    destruct (i - s)%nat; reflexivity.
  - rewrite imap_cons, list_to_map_cons. cbn beta. cbn [fst snd].
    rewrite (imap_ext _ (fun k x => ((S s + k, S s + k)%nat, x)))
      by (intros k y _; cbn; repeat f_equal; lia).
    destruct (decide ((s + 0, s + 0)%nat = (i, j))) as [Heq|Hne].
    + injection Heq as <- <-. rewrite lookup_insert_eq.
      rewrite decide_True by lia.
      replace (s + 0 - s)%nat with 0%nat by lia. reflexivity.
    + rewrite lookup_insert_ne by exact Hne. rewrite IH.
      destruct (decide (i = j /\ (S s <= i)%nat)) as [[-> Hle]|Hn].
      * rewrite decide_True by lia.
        replace (j - s)%nat with (S (j - S s)) by lia. reflexivity.
      * destruct (decide (i = j /\ (s <= i)%nat)) as [[-> Hle]|Hn'];
          [|reflexivity].
        assert (j = s) as -> by lia. exfalso. apply Hne. f_equal; lia.
Qed.

Lemma spdiags_lookup (d : list R) (i j : nat) :
  (list_to_map (imap (fun k x => ((k, k), x)) d) : gmap (nat * nat) R)
    !! (i, j)
  = if decide (i = j) then d !! i else None.
Proof.
  pose proof (diagonal_entries_lookup d 0 i j) as H. cbn [Nat.add] in H.
  rewrite H. replace (i - 0)%nat with i by lia.
  destruct (decide (i = j)) as [->|Hn].
  - rewrite decide_True by lia. reflexivity.
  - rewrite decide_False by tauto. reflexivity.
Qed.

(** The dense form of [spdiags d] is [np.diag d]. *)
Lemma toarray_spdiags (d : list R) :
  toarray R 0 (spdiags d) = Dense (diag d).
Proof.
  unfold spdiags, toarray, diag. f_equal.
  apply list_eq. intros i. rewrite lookup_map, list_lookup_imap.
  destruct (d !! i) as [x|] eqn:Hx.
  - rewrite lookup_seq_lt by (apply lookup_lt_Some in Hx; exact Hx).
    cbn. f_equal. unfold sparse_row.
    apply list_eq. intros j. rewrite lookup_map, list_lookup_imap.
    destruct (d !! j) as [y|] eqn:Hy.
    + rewrite lookup_seq_lt by (apply lookup_lt_Some in Hy; exact Hy).
      cbn. f_equal. rewrite spdiags_lookup.
      destruct (decide (i = j)); [rewrite Hx|]; reflexivity.
    + rewrite lookup_seq_ge by (apply lookup_ge_None in Hy; exact Hy).
      reflexivity.
  - rewrite lookup_seq_ge by (apply lookup_ge_None in Hx; exact Hx).
    reflexivity.
Qed.

(** The column sums of the dense form are those of the sparse matrix. *)
Lemma sum_axis0_toarray (nrows ncols : nat) (stored : gmap (nat * nat) R) :
  sum_axis0 ncols (map (sparse_row R 0 ncols stored) (seq 0 nrows))
  = sparse_sum_axis0 nrows ncols stored.
Proof.
  unfold sum_axis0, sparse_sum_axis0. apply map_ext_in. intros j Hj.
  apply in_seq in Hj. f_equal. rewrite map_map. apply map_ext. intros i.
  unfold sparse_row. rewrite lookup_map, lookup_seq_lt by lia. reflexivity.
Qed.

(** X26. On a sparse matrix with at least one row, of whatever format,
    [degree] returns a square matrix in the [dia] format that stores
    nothing off its main diagonal, and whose dense form is what [degree]
    returns on the dense form of the matrix: the two implementations
    agree. *)
Theorem degree_sparse_matches_dense (fmt : sparse_format)
    (nrows ncols : nat) (stored : gmap (nat * nat) R) :
  (0 < nrows)%nat ->
  exists dstored,
    degree (Sparse fmt nrows ncols stored)
    = Return (Sparse dia_matrix ncols ncols dstored) /\
    (forall i j, i <> j -> dstored !! (i, j) = None) /\
    degree (toarray R 0 (Sparse fmt nrows ncols stored))
    = Return (toarray R 0 (Sparse dia_matrix ncols ncols dstored)).
Proof.
  intros Hrows.
  assert (Hlen : length (sparse_sum_axis0 nrows ncols stored) = ncols)
    by (unfold sparse_sum_axis0; now rewrite length_map, length_seq).
  eexists. split; [|split].
  - cbn [degree]. unfold spdiags. rewrite Hlen. reflexivity.
  - intros i j Hij. rewrite spdiags_lookup. now rewrite decide_False.
  - pose proof (toarray_spdiags (sparse_sum_axis0 nrows ncols stored)) as Hd.
    unfold spdiags in Hd. rewrite Hlen in Hd. rewrite Hd.
    cbn [toarray degree]. unfold Return. do 3 f_equal.
    destruct nrows as [|k]; [lia|].
    replace (length (hd [] (map (sparse_row R 0 ncols stored) (seq 0 (S k)))))
      with ncols
      by (cbn [seq map hd]; unfold sparse_row;
          now rewrite length_map, length_seq).
    apply sum_axis0_toarray.
Qed.

Lemma degree_sparse_matches_dense_witness :
  exists dstored,
    degree (Sparse csr_matrix 2 2 {[ (0, 1)%nat := 1; (1, 0)%nat := 1 ]})
    = Return (Sparse dia_matrix 2 2 dstored) /\
    (forall i j, i <> j -> dstored !! (i, j) = None) /\
    degree (toarray R 0
              (Sparse csr_matrix 2 2 {[ (0, 1)%nat := 1; (1, 0)%nat := 1 ]}))
    = Return (toarray R 0 (Sparse dia_matrix 2 2 dstored)).
Proof.
  apply (degree_sparse_matches_dense csr_matrix 2 2
           {[ (0, 1)%nat := 1; (1, 0)%nat := 1 ]}).
  lia.
Defined.

Lemma sum_indicator (d : list R) (s i : nat) (x : R) :
  sum (imap (fun j _ => if decide (i = (s + j)%nat) then x else 0) d)
  = if decide (s <= i < s + length d)%nat then x else 0.
Proof.
  revert s. induction d as [|y d IH]; intros s.
  - cbn. rewrite decide_False by lia. reflexivity.
  - rewrite imap_cons. cbn [sum fold_right length].
    rewrite (imap_ext _ (fun j _ => if decide (i = (S s + j)%nat) then x else 0))
      by (intros j z _; cbn; destruct (decide _), (decide _); try reflexivity; lia).
    fold (sum (imap (fun j _ => if decide (i = (S s + j)%nat) then x else 0) d)).
    rewrite IH.
    destruct (decide (i = (s + 0)%nat)) as [->|Hn].
    + rewrite decide_False by lia. rewrite decide_True by lia. lra.
    + destruct (decide (S s <= i < S s + length d)%nat).
      * rewrite decide_True by lia. lra.
      * rewrite decide_False by lia. lra.
Qed.

Lemma sum_zip_minus (l1 l2 : list R) :
  length l1 = length l2 ->
  sum (zip_with Rminus l1 l2) = sum l1 - sum l2.
Proof.
  revert l2. induction l1 as [|a l1 IH]; intros [|b l2] Hlen;
    try discriminate; cbn [zip_with sum fold_right]; [lra|].
  fold (sum (zip_with Rminus l1 l2)). fold (sum l1). fold (sum l2).
  rewrite IH by (cbn in Hlen; lia). lra.
Qed.

Lemma row_entries (a : matrix) (i : nat) (row : list R) :
  a !! i = Some row ->
  row = map (entry a i) (seq 0 (length row)).
Proof.
  intros Hi. apply list_eq. intros j. rewrite lookup_map.
  unfold entry. rewrite Hi. cbn [default].
  destruct (row !! j) as [x|] eqn:Hx.
  - rewrite lookup_seq_lt by (apply lookup_lt_Some in Hx; exact Hx).
    cbn. now rewrite Hx.
  - rewrite lookup_seq_ge by (apply lookup_ge_None in Hx; exact Hx).
    reflexivity.
Qed.

Lemma column_entries (a : matrix) (j : nat) :
  map (fun row => default 0 (row !! j)) a
  = map (fun i => entry a i j) (seq 0 (length a)).
Proof.
  apply list_eq. intros i. rewrite !lookup_map. unfold entry.
  destruct (a !! i) as [row|] eqn:Hrow.
  - rewrite lookup_seq_lt by (apply lookup_lt_Some in Hrow; exact Hrow).
    cbn. now rewrite Hrow.
  - rewrite lookup_seq_ge by (apply lookup_ge_None in Hrow; exact Hrow).
    reflexivity.
Qed.

(** X27. On a square symmetric adjacency matrix [a], [degree] returns a
    square matrix of the same size, and subtracting [a] from it gives rows
    that sum to zero: the Laplacian built from the degree matrix
    annihilates the constant vector. *)
Theorem degree_laplacian_row_sums (a : matrix) :
  Forall (fun row => length row = length a) a ->
  (forall i j, entry a i j = entry a j i) ->
  exists D,
    degree (Dense a) = Return (Dense D) /\
    length D = length a /\
    forall i row, a !! i = Some row ->
      exists drow,
        D !! i = Some drow /\
        length drow = length a /\
        sum (zip_with Rminus drow row) = 0.
Proof.
  intros Hsq Hsym.
  assert (Hcols : length (hd [] a) = length a).
  { destruct a as [|r a']; [reflexivity|].
    inversion Hsq; subst. assumption. }
  set (d := sum_axis0 (length a) a).
  assert (Hd : length d = length a)
    by (unfold d, sum_axis0; now rewrite length_map, length_seq).
  exists (diag d). split; [cbn [degree]; rewrite Hcols; reflexivity|].
  split; [unfold diag; now rewrite length_imap|].
  intros i row Hi.
  assert (Hlt : (i < length a)%nat) by (apply lookup_lt_Some in Hi; exact Hi).
  assert (Hrow : length row = length a).
  { rewrite List.Forall_forall in Hsq. apply Hsq.
    apply list_elem_of_In. eapply list_elem_of_lookup_2. exact Hi. }
  assert (Hdi : d !! i
                = Some (sum (map (fun row' => default 0 (row' !! i)) a))).
  { unfold d, sum_axis0. rewrite lookup_map, lookup_seq_lt by exact Hlt.
    reflexivity. }
  eexists. split; [|split].
  - unfold diag. rewrite list_lookup_imap, Hdi. reflexivity.
  - rewrite length_imap. exact Hd.
  - rewrite sum_zip_minus by (rewrite length_imap; lia).
    pose proof (sum_indicator d 0 i
                  (sum (map (fun row' => default 0 (row' !! i)) a))) as Hind.
    cbn [Nat.add] in Hind. rewrite Hind.
    rewrite decide_True by lia.
    rewrite column_entries.
    pose proof (row_entries a i row Hi) as Hr. rewrite Hrow in Hr.
    rewrite Hr.
    rewrite (map_ext (fun k => entry a k i) (entry a i))
      by (intros k; apply Hsym).
    lra.
Qed.

Lemma degree_laplacian_row_sums_witness :
  exists D,
    degree (Dense [[0; 1]; [1; 0]]) = Return (Dense D) /\
    length D = 2%nat /\
    forall i row, [[0; 1]; [1; 0]] !! i = Some row ->
      exists drow,
        D !! i = Some drow /\
        length drow = 2%nat /\
        sum (zip_with Rminus drow row) = 0.
Proof.
  apply (degree_laplacian_row_sums [[0; 1]; [1; 0]]).
  - repeat constructor.
  - intros [|[|i]] [|[|j]]; reflexivity.
Defined.

End DegreeFacts.

(** ** Ordered pairwise differences *)

Section PairwiseDifferencesFacts.

Import Tensor PairwiseDifferences.
Local Open Scope R_scope.

Lemma differences_entry (x : list R) (i j : nat) (xi xj : R) :
  x !! i = Some xi -> x !! j = Some xj ->
  default 0 (default [] (differences x !! i) !! j) = xj - xi.
Proof.
  intros Hi Hj. unfold differences. rewrite lookup_map, Hi. cbn.
  rewrite lookup_map, Hj. reflexivity.
Qed.

Lemma below_diagonal_count (f : nat -> nat -> R) (n : nat) :
  (2 * length (flat_map (fun i => map (f i) (seq 0 i)) (seq 0 n))
   = n * (n - 1))%nat.
Proof.
  induction n as [|n IH]; [reflexivity|].
  rewrite seq_snoc, flat_map_app, length_app. cbn [flat_map Nat.add].
  rewrite app_nil_r, length_map, length_seq.
  destruct n as [|n]; [reflexivity|]. nia.
Qed.

Lemma tril_to_vec_below (x : list R) :
  tril_to_vec (-1) (differences x)
  = flat_map (fun i => map (fun j => default 0 (x !! j) - default 0 (x !! i))
                           (seq 0 i))
             (seq 0 (length x)).
Proof.
  unfold tril_to_vec.
  replace (length (differences x)) with (length x)
    by (unfold differences; now rewrite length_map).
  rewrite !flat_map_concat_map. f_equal.
  apply map_ext_in. intros i Hi. apply in_seq in Hi.
  replace (Nat.min (length x) (Z.to_nat (Z.of_nat i + -1 + 1))) with i by lia.
  apply map_ext_in. intros j Hj. apply in_seq in Hj.
  destruct (lookup_lt_is_Some_2 x i) as [xi Hxi]; [lia|].
  destruct (lookup_lt_is_Some_2 x j) as [xj Hxj]; [lia|].
  rewrite (differences_entry x i j xi xj Hxi Hxj), Hxi, Hxj. reflexivity.
Qed.

(** X28. For a row [x] of length [D] of the batch,
    [ordered_pairwise_differences] returns [D * (D - 1) / 2] numbers, which
    are exactly the differences [x[k] - x[l]] with [k < l]; they are all
    positive when [x] is strictly decreasing. *)
Theorem ordered_pairwise_differences_row (X : matrix) (b : nat)
    (x : list R) :
  X !! b = Some x ->
  exists out,
    ordered_pairwise_differences X !! b = Some out /\
    (2 * length out = length x * (length x - 1))%nat /\
    (forall v, In v out <->
               exists k l xk xl,
                 (k < l)%nat /\ x !! k = Some xk /\ x !! l = Some xl /\
                 v = xk - xl) /\
    ((forall k l xk xl,
         (k < l)%nat -> x !! k = Some xk -> x !! l = Some xl -> xl < xk) ->
     Forall (fun v => 0 < v) out).
Proof.
  intros Hb. exists (tril_to_vec (-1) (differences x)).
  split; [unfold ordered_pairwise_differences; now rewrite lookup_map, Hb|].
  rewrite tril_to_vec_below.
  assert (Hin : forall v,
    In v (flat_map
            (fun i => map (fun j => default 0 (x !! j) - default 0 (x !! i))
                          (seq 0 i))
            (seq 0 (length x)))
    <-> exists k l xk xl,
          (k < l)%nat /\ x !! k = Some xk /\ x !! l = Some xl /\ v = xk - xl).
  { intros v. rewrite in_flat_map. split.
    - intros (l & Hl & Hv). apply in_seq in Hl.
      apply in_map_iff in Hv as (k & <- & Hk). apply in_seq in Hk.
      destruct (lookup_lt_is_Some_2 x l) as [xl Hxl]; [lia|].
      destruct (lookup_lt_is_Some_2 x k) as [xk Hxk]; [lia|].
      exists k, l, xk, xl. rewrite Hxl, Hxk.
      split; [lia|]. split; [reflexivity|]. split; reflexivity.
    - intros (k & l & xk & xl & Hkl & Hk & Hl & ->).
      exists l. split; [apply in_seq; apply lookup_lt_Some in Hl; lia|].
      apply in_map_iff. exists k. rewrite Hk, Hl.
      split; [reflexivity | apply in_seq; lia]. }
  split; [apply below_diagonal_count|]. split; [exact Hin|].
  intros Hdec. apply List.Forall_forall. intros v Hv.
  apply Hin in Hv as (k & l & xk & xl & Hkl & Hk & Hl & ->).
  specialize (Hdec k l xk xl Hkl Hk Hl). lra.
Qed.

Lemma ordered_pairwise_differences_row_witness :
  exists out,
    ordered_pairwise_differences [[3; 2; 0]] !! 0%nat = Some out /\
    (2 * length out = 3 * (3 - 1))%nat /\
    (forall v, In v out <->
               exists k l xk xl,
                 (k < l)%nat /\ [3; 2; 0] !! k = Some xk /\
                 [3; 2; 0] !! l = Some xl /\ v = xk - xl) /\
    ((forall k l xk xl,
         (k < l)%nat -> [3; 2; 0] !! k = Some xk ->
         [3; 2; 0] !! l = Some xl -> xl < xk) ->
     Forall (fun v => 0 < v) out).
Proof.
  apply (ordered_pairwise_differences_row [[3; 2; 0]] 0 [3; 2; 0]).
  reflexivity.
Defined.

End PairwiseDifferencesFacts.

(** ** The stabiliser inside the group of a Stiefel manifold *)

Section StiefelSpaceFacts.

Import Tensor StiefelSpace.
Local Open Scope R_scope.

Lemma map_seq_const {A : Type} (f : nat -> A) (b : A) (s k : nat) :
  (forall i, (s <= i < s + k)%nat -> f i = b) ->
  map f (seq s k) = repeat b k.
Proof.
  revert s. induction k as [|k IH]; intros s Hf; [reflexivity|].
  cbn [seq map repeat]. rewrite Hf by lia. f_equal.
  apply IH. intros i Hi. apply Hf. lia.
Qed.

Lemma lookup_repeat {A : Type} (b : A) (k j : nat) :
  (j < k)%nat -> repeat b k !! j = Some b.
Proof.
  revert j. induction k as [|k IH]; intros j Hj; [lia|].
  destruct j as [|j]; [reflexivity|]. cbn [repeat]. apply IH. lia.
Qed.

Lemma transpose_zeros (r c : nat) : transpose c (zeros r c) = zeros c r.
Proof.
  unfold transpose, zeros. apply map_seq_const. intros j Hj.
  induction r as [|r IH]; [reflexivity|].
  cbn [repeat map]. rewrite IH. f_equal.
  assert (Hl : repeat 0 c !! j = Some 0).
  { apply lookup_repeat. lia. }
  now rewrite Hl.
Qed.

Lemma eye_split (r k c : nat) :
  (c <= r)%nat ->
  eye (r + k) c = eye r c ++ zeros k c.
Proof.
  intros Hc. unfold eye. rewrite seq_app, map_app. f_equal.
  unfold zeros. apply map_seq_const. intros i Hi.
  apply map_seq_const. intros j Hj.
  rewrite decide_False by lia. reflexivity.
Qed.

(** X29. For [0 <= m < n] and a square matrix [h] of size [n - m],
    [embed_stabilizer] returns the square matrix of size [n] with the
    identity of size [m] and [h] as its diagonal blocks and zeros elsewhere.
    So [project_to_manifold] sends it to the first [m] columns of the
    identity, whatever [h] is: the embedded stabiliser fixes the base
    point. *)
Theorem embed_stabilizer_fixes_base_point (self : Stiefel) (h : matrix) :
  (0 <= m self < n self)%Z ->
  length h = Z.to_nat (n self - m self) ->
  Forall (fun row => length row = Z.to_nat (n self - m self)) h ->
  exists res,
    embed_stabilizer self h = Return res /\
    length res = Z.to_nat (n self) /\
    Forall (fun row => length row = Z.to_nat (n self)) res /\
    project_to_manifold self res
    = eye (Z.to_nat (n self)) (Z.to_nat (m self)) /\
    map (drop (Z.to_nat (m self))) (drop (Z.to_nat (m self)) res) = h /\
    map (drop (Z.to_nat (m self))) (take (Z.to_nat (m self)) res)
    = zeros (Z.to_nat (m self)) (Z.to_nat (n self - m self)).
Proof.
  intros Hm Hrows Hcols.
  set (r := Z.to_nat (m self)) in *.
  set (k := Z.to_nat (n self - m self)) in *.
  assert (Hn : Z.to_nat (n self) = (r + k)%nat) by (unfold r, k; lia).
  assert (Hk : (0 < k)%nat) by (unfold k; lia).
  assert (Hhd : length (hd [] h) = k).
  { destruct h as [|row h']; [cbn in Hrows; lia|].
    inversion Hcols; subst. assumption. }
  assert (Heye : length (eye r r) = r)
    by (unfold eye; now rewrite length_map, length_seq).
  assert (Hz : length (zeros r k) = r) by (unfold zeros; apply repeat_length).
  assert (Hzt : length (zeros k r) = k) by (unfold zeros; apply repeat_length).
  assert (Heye_rows : Forall (fun row : list R => length row = r) (eye r r)).
  { apply List.Forall_forall. intros row Hin. unfold eye in Hin.
    apply in_map_iff in Hin as (i & <- & _). now rewrite length_map, length_seq. }
  assert (Hz_rows : forall a b, Forall (fun row : list R => length row = b)
                                       (zeros a b)).
  { intros a b. apply List.Forall_forall. intros row Hin.
    apply repeat_spec in Hin. subst. apply repeat_length. }
  assert (Hrun : embed_stabilizer self h
                 = Return (zip_with (@app R) (eye r r) (zeros r k) ++
                           zip_with (@app R) (zeros k r) h)).
  { unfold embed_stabilizer. fold r k.
    replace ((m self <? 0)%Z || (n self - m self <? 0)%Z) with false
      by (symmetry; apply orb_false_iff; split; apply Z.ltb_ge; lia).
    rewrite transpose_zeros.
    rewrite bool_decide_eq_true_2 by exact Hhd. cbn [negb].
    rewrite bool_decide_eq_true_2 by (rewrite !length_app; lia). cbn [negb].
    rewrite zip_with_app by lia. reflexivity. }
  exists (zip_with (@app R) (eye r r) (zeros r k) ++
          zip_with (@app R) (zeros k r) h).
  assert (Htop : length (zip_with (@app R) (eye r r) (zeros r k)) = r)
    by (rewrite length_zip_with; lia).
  assert (Htake : forall (a b : matrix) c,
             Forall (fun row => length row = c) a -> length a = length b ->
             map (take c) (zip_with (@app R) a b) = a).
  { intros a. induction a as [|x a IH]; intros [|y b] c Ha Hl;
      try discriminate; [reflexivity|].
    inversion Ha; subst. cbn [zip_with map].
    rewrite take_app_length. f_equal. apply IH; [assumption | cbn in Hl; lia]. }
  assert (Hdrop : forall (a b : matrix) c,
             Forall (fun row => length row = c) a -> length a = length b ->
             map (drop c) (zip_with (@app R) a b) = b).
  { intros a. induction a as [|x a IH]; intros [|y b] c Ha Hl;
      try discriminate; [reflexivity|].
    inversion Ha; subst. cbn [zip_with map].
    rewrite drop_app_length. f_equal. apply IH; [assumption | cbn in Hl; lia]. }
  split; [exact Hrun|]. split; [|split; [|split; [|split]]].
  - rewrite length_app, !length_zip_with. lia.
  - rewrite Hn. apply Forall_app. split.
    + apply List.Forall_forall. intros row Hin.
      apply list_elem_of_In, elem_of_lookup_zip_with in Hin
        as (i & x & y & -> & Hx & Hy).
      rewrite length_app. f_equal.
      * rewrite List.Forall_forall in Heye_rows. apply Heye_rows.
        apply list_elem_of_In. eapply list_elem_of_lookup_2. exact Hx.
      * pose proof (Hz_rows r k) as Hzr.
        rewrite List.Forall_forall in Hzr. apply Hzr.
        apply list_elem_of_In. eapply list_elem_of_lookup_2. exact Hy.
    + apply List.Forall_forall. intros row Hin.
      apply list_elem_of_In, elem_of_lookup_zip_with in Hin
        as (i & x & y & -> & Hx & Hy).
      rewrite length_app. f_equal.
      * pose proof (Hz_rows k r) as Hzr.
        rewrite List.Forall_forall in Hzr. apply Hzr.
        apply list_elem_of_In. eapply list_elem_of_lookup_2. exact Hx.
      * rewrite List.Forall_forall in Hcols. apply Hcols.
        apply list_elem_of_In. eapply list_elem_of_lookup_2. exact Hy.
  - unfold project_to_manifold, slice_to.
    replace (m self <? 0)%Z with false by (symmetry; apply Z.ltb_ge; lia).
    fold r. rewrite Hn, eye_split by lia. rewrite map_app. f_equal.
    + apply Htake; [exact Heye_rows | lia].
    + apply Htake; [apply Hz_rows | lia].
  - rewrite drop_app_length' by (symmetry; exact Htop).
    apply Hdrop; [apply Hz_rows | lia].
  - rewrite take_app_length' by (symmetry; exact Htop).
    apply Hdrop; [exact Heye_rows | lia].
Qed.

Lemma embed_stabilizer_fixes_base_point_witness :
  exists res,
    embed_stabilizer {| n := 3; m := 1 |} [[0; -1]; [1; 0]] = Return res /\
    length res = Z.to_nat 3 /\
    Forall (fun row => length row = Z.to_nat 3) res /\
    project_to_manifold {| n := 3; m := 1 |} res
    = eye (Z.to_nat 3) (Z.to_nat 1) /\
    map (drop (Z.to_nat 1)) (drop (Z.to_nat 1) res) = [[0; -1]; [1; 0]] /\
    map (drop (Z.to_nat 1)) (take (Z.to_nat 1) res)
    = zeros (Z.to_nat 1) (Z.to_nat (3 - 1)).
Proof.
  apply (embed_stabilizer_fixes_base_point
           {| n := 3; m := 1 |} [[0; -1]; [1; 0]]).
  - cbn. lia.
  - reflexivity.
  - repeat constructor.
Defined.

End StiefelSpaceFacts.
